(** * A shallow embedding of the maze rollout engine (cpp_simulator)

    The development follows the C++ sources:
    - [constants.hpp]   : modules [Direction], [Token], [Score], [Config];
    - [game_state.hpp]  : [Position], [Entity], [GameState];
    - [simulator.cpp]   : the distance cache, the program parser, the
      recursive command interpreter, the entity planners and the tick loop;
    - [bindings.cpp]    : the snapshot boundary ([dict_to_state],
      [state_to_dict]).

    Conventions of the model.
    - Fixed-width integers are [Z] with the narrowing conversions written
      out ([to_int8], [to_int16]).  Arithmetic on plain [int] is carried out
      in [Z]: signed overflow of [int] is undefined in the source.
    - A [std::array<std::array<T, 11>, 11>] is a list of rows.  A read outside
      the stored cells (undefined in the source) yields 0 and a write outside
      them changes nothing.
    - Loops whose termination is not structural ([while] over the BFS queue,
      the conditional run, the recursion of [process_commands]) take a fuel
      argument and answer [None] when it runs out. *)

From Stdlib Require Import ZArith Lia List Bool.
From stdpp Require Import base option list gmap strings.

Local Open Scope Z_scope.

(** ** Fixed-width integers *)

Definition wrap_signed (bits : Z) (v : Z) : Z :=
  (v + 2 ^ (bits - 1)) mod 2 ^ bits - 2 ^ (bits - 1).

Definition to_int8 (v : Z) : Z := wrap_signed 8 v.
Definition to_int16 (v : Z) : Z := wrap_signed 16 v.

(** Reading a C array of integers; an index outside the array reads 0. *)
Definition array_at (a : list Z) (i : Z) : Z :=
  if i <? 0 then 0 else default 0 (a !! Z.to_nat i).

(** ** constants.hpp *)

Definition MAP_SIZE : Z := 11.
Definition TOTAL_CELLS : Z := MAP_SIZE * MAP_SIZE.

Module Direction.
Definition UP : Z := 0.
Definition DOWN : Z := 1.
Definition LEFT : Z := 2.
Definition RIGHT : Z := 3.
Definition COUNT : Z := 4.
Definition DX (dir : Z) : Z := array_at [-1; 1; 0; 0] dir.
Definition DY (dir : Z) : Z := array_at [0; 0; -1; 1] dir.
Definition OPPOSITE (dir : Z) : Z := array_at [1; 0; 3; 2] dir.
(** The directions in scan order, [for (dir = 0; dir < COUNT; dir++)]. *)
Definition all : list Z := [0; 1; 2; 3].
End Direction.

Module Token.
Definition DIR_UP : Z := 0.
Definition DIR_DOWN : Z := 1.
Definition DIR_LEFT : Z := 2.
Definition DIR_RIGHT : Z := 3.
Definition IF : Z := 5.
Definition FUNC_F1 : Z := 10.
Definition FUNC_F2 : Z := 11.
Definition NUM_BASE : Z := 100.
Definition NUM_10 : Z := 100.
Definition NUM_1 : Z := 101.
Definition NUM_7 : Z := 107.
Definition NUM_9 : Z := 109.
Definition LOOP : Z := 110.
Definition END : Z := 112.
Definition FUNC_LIB_START : Z := 113.
Definition FUNC_LIB_END : Z := 998.
Definition EMPTY : Z := 999.

Definition is_direction (token : Z) : bool := (0 <=? token) && (token <=? 3).
Definition is_num (token : Z) : bool := (NUM_BASE <=? token) && (token <=? NUM_9).
Definition is_if_num (token : Z) : bool := (NUM_1 <=? token) && (token <=? NUM_7).
Definition get_num_value (token : Z) : Z :=
  if token =? NUM_10 then 10 else token - NUM_BASE.
Definition is_func_lib (token : Z) : bool :=
  (FUNC_LIB_START <=? token) && (token <=? FUNC_LIB_END).
End Token.

Module Score.
Definition SMALL_CHEESE : Z := 10.
Definition BIG_CHEESE : Z := 500.
Definition CAT_COLLISION : Z := -500.
Definition WALL_COLLISION : Z := -10.
End Score.

Module Config.
Definition DEFAULT_LIFE : Z := 3.
Definition DEFAULT_STEP_LIMIT : Z := 200.
Definition DEFAULT_RED_ZONE : Z := 5.
Definition DEFAULT_FUNC_CHANCE : Z := 4.
Definition NUM_CATS : nat := 2.
Definition NUM_MOVBC : nat := 2.
Definition NUM_CRZBC : nat := 2.
Definition MAX_RANDOM_TRIES : nat := 100.
End Config.

(** ** game_state.hpp *)

(** [GridMap] and [DistanceMap]: eleven rows of eleven cells. *)
Abbreviation Grid := (list (list Z)) (only parsing).
Abbreviation GridMap := (list (list Z)) (only parsing).
Abbreviation DistanceMap := (list (list Z)) (only parsing).

Definition grid_at (g : Grid) (i j : Z) : Z :=
  if (i <? 0) || (j <? 0) then 0
  else match g !! Z.to_nat i with
       | Some row => default 0 (row !! Z.to_nat j)
       | None => 0
       end.

Definition grid_set (g : Grid) (i j : Z) (v : Z) : Grid :=
  if (i <? 0) || (j <? 0) then g
  else alter (fun row => <[Z.to_nat j := v]> row) (Z.to_nat i) g.

(** The row and column indices [0 .. MAP_SIZE - 1] of a double loop. *)
Definition indices : list Z := seqZ 0 MAP_SIZE.

(** The grid filled by [for i, for j: g[i][j] = f i j]. *)
Definition grid_init (f : Z -> Z -> Z) : Grid :=
  (fun i => (fun j => f i j) <$> indices) <$> indices.

Module Position.
Record t : Type := mk { x : Z; y : Z }.

Definition eqb (p q : t) : bool := (x p =? x q) && (y p =? y q).

Definition is_valid (p : t) : bool :=
  (0 <=? x p) && (x p <? MAP_SIZE) && (0 <=? y p) && (y p <? MAP_SIZE).

Definition move (p : t) (dir : Z) : t :=
  mk (to_int8 (x p + Direction.DX dir)) (to_int8 (y p + Direction.DY dir)).
End Position.

Record Entity : Type := mkEntity {
  pos : Position.t;
  last_pos : Position.t;
  direction : Z;
  active : bool
}.

(** [Entity()] *)
Definition Entity_default : Entity :=
  mkEntity (Position.mk 0 0) (Position.mk 0 0) 0 true.

(** [std::array<Entity, 2>]: the two slots of a roster. *)
Definition Roster : Type := (Entity * Entity)%type.

Definition roster_at (r : Roster) (i : nat) : Entity :=
  match i with O => fst r | _ => snd r end.

Definition roster_set (r : Roster) (i : nat) (e : Entity) : Roster :=
  match i with O => (e, snd r) | _ => (fst r, e) end.

Definition roster_list (r : Roster) : list Entity := [fst r; snd r].

Record GameState : Type := mkGameState {
  wall : GridMap;
  sc : GridMap;
  junc : GridMap;
  deadend : GridMap;
  mouse : Position.t;
  mouse_last : Position.t;
  cats : Roster;
  movbc : Roster;
  crzbc : Roster;
  score : Z;
  life : Z;
  step : Z;
  step_limit : Z;
  run : Z;
  func_chance : Z;
  red_zone : Z;
  win_sign : bool;
  lose_sign : bool;
  catched : bool
}.

Definition grid_zero : Grid := grid_init (fun _ _ => 0).

(** [GameState::reset] *)
Definition GameState_reset : GameState :=
  {| wall := grid_zero; sc := grid_zero; junc := grid_zero; deadend := grid_zero;
     mouse := Position.mk 10 10; mouse_last := Position.mk 10 10;
     cats := (Entity_default, Entity_default);
     movbc := (Entity_default, Entity_default);
     crzbc := (Entity_default, Entity_default);
     score := 0; life := Config.DEFAULT_LIFE; step := 0;
     step_limit := Config.DEFAULT_STEP_LIMIT; run := 0;
     func_chance := Config.DEFAULT_FUNC_CHANCE;
     red_zone := Config.DEFAULT_RED_ZONE;
     win_sign := false; lose_sign := false; catched := false |}.

Definition WALL_DATA : Grid :=
  [ [0; 0; 0; 0; 1; 0; 1; 0; 0; 0; 0];
    [0; 1; 1; 0; 1; 0; 1; 0; 1; 1; 0];
    [0; 0; 0; 0; 0; 0; 0; 0; 0; 0; 0];
    [0; 1; 0; 1; 1; 0; 1; 1; 0; 1; 0];
    [0; 1; 0; 1; 1; 0; 1; 1; 0; 1; 0];
    [0; 1; 0; 0; 0; 0; 0; 0; 0; 1; 0];
    [0; 1; 1; 1; 0; 1; 0; 1; 1; 1; 0];
    [0; 0; 0; 0; 0; 0; 0; 0; 0; 0; 0];
    [1; 1; 1; 0; 1; 1; 1; 0; 1; 1; 1];
    [0; 0; 0; 0; 1; 1; 1; 0; 0; 0; 0];
    [0; 1; 1; 0; 0; 0; 0; 0; 1; 1; 0] ].

Definition SC_DATA : Grid :=
  [ [1; 1; 1; 1; 0; 1; 0; 1; 1; 1; 1];
    [1; 0; 0; 1; 0; 1; 0; 1; 0; 0; 1];
    [1; 1; 1; 1; 1; 1; 1; 1; 1; 1; 1];
    [1; 0; 1; 0; 0; 1; 0; 0; 1; 0; 1];
    [1; 0; 1; 0; 0; 1; 0; 0; 1; 0; 1];
    [1; 0; 1; 1; 1; 1; 1; 1; 1; 0; 1];
    [1; 0; 0; 0; 1; 0; 1; 0; 0; 0; 1];
    [1; 1; 1; 1; 1; 1; 1; 1; 1; 1; 1];
    [0; 0; 0; 1; 0; 0; 0; 1; 0; 0; 0];
    [1; 1; 1; 1; 0; 0; 0; 1; 1; 1; 1];
    [1; 0; 0; 1; 1; 1; 1; 1; 0; 0; 1] ].

Definition JUNC_DATA : Grid :=
  [ [0; 0; 0; 0; 0; 0; 0; 0; 0; 0; 0];
    [0; 0; 0; 0; 0; 0; 0; 0; 0; 0; 0];
    [1; 0; 1; 1; 0; 1; 0; 1; 1; 0; 1];
    [0; 0; 0; 0; 0; 0; 0; 0; 0; 0; 0];
    [0; 0; 0; 0; 0; 0; 0; 0; 0; 0; 0];
    [0; 0; 0; 0; 1; 1; 1; 0; 0; 0; 0];
    [0; 0; 0; 0; 0; 0; 0; 0; 0; 0; 0];
    [0; 0; 0; 1; 1; 0; 1; 1; 0; 0; 0];
    [0; 0; 0; 0; 0; 0; 0; 0; 0; 0; 0];
    [0; 0; 0; 1; 0; 0; 0; 1; 0; 0; 0];
    [0; 0; 0; 0; 0; 0; 0; 0; 0; 0; 0] ].

Definition DEADEND_DATA : Grid :=
  [ [0; 0; 0; 0; 0; 1; 0; 0; 0; 0; 0];
    [0; 0; 0; 0; 0; 0; 0; 0; 0; 0; 0];
    [0; 0; 0; 0; 0; 0; 0; 0; 0; 0; 0];
    [0; 0; 0; 0; 0; 0; 0; 0; 0; 0; 0];
    [0; 0; 0; 0; 0; 0; 0; 0; 0; 0; 0];
    [0; 0; 0; 0; 0; 0; 0; 0; 0; 0; 0];
    [0; 0; 0; 0; 0; 0; 0; 0; 0; 0; 0];
    [0; 0; 0; 0; 0; 0; 0; 0; 0; 0; 0];
    [0; 0; 0; 0; 0; 0; 0; 0; 0; 0; 0];
    [0; 0; 0; 0; 0; 0; 0; 0; 0; 0; 0];
    [1; 0; 0; 0; 0; 0; 0; 0; 0; 0; 1] ].

Definition entity_at (p : Position.t) (dir : Z) : Entity :=
  mkEntity p p dir true.

(** [GameState::init_level3] *)
Definition GameState_init_level3 : GameState :=
  {| wall := grid_init (grid_at WALL_DATA);
     sc := grid_set (grid_init (grid_at SC_DATA)) 10 10 0;
     junc := grid_init (grid_at JUNC_DATA);
     deadend := grid_init (grid_at DEADEND_DATA);
     mouse := Position.mk 10 10; mouse_last := Position.mk 10 10;
     cats := (entity_at (Position.mk 2 2) Direction.DOWN,
              entity_at (Position.mk 5 5) Direction.RIGHT);
     movbc := (entity_at (Position.mk 1 5) 0, entity_at (Position.mk 7 5) 0);
     crzbc := (entity_at (Position.mk 0 3) Direction.RIGHT,
               entity_at (Position.mk 10 7) Direction.LEFT);
     score := 0; life := Config.DEFAULT_LIFE; step := 0;
     step_limit := Config.DEFAULT_STEP_LIMIT; run := 0;
     func_chance := Config.DEFAULT_FUNC_CHANCE;
     red_zone := Config.DEFAULT_RED_ZONE;
     win_sign := false; lose_sign := false; catched := false |}.

(** [GameState::count_remaining_cheese] *)
Definition count_remaining_cheese (st : GameState) : Z :=
  foldl (fun count i => foldl (fun count j => count + grid_at (sc st) i j) count indices)
        0 indices.

(** ** simulator.cpp: the breadth-first distance maps *)

(** The body of [for (dir = 0; dir < COUNT; dir++)] inside the BFS loop,
    over the directions still to scan. *)
Fixpoint bfs_scan (dist_map : DistanceMap) (queue : list Position.t)
    (curr : Position.t) (curr_dist : Z) (dirs : list Z)
    : DistanceMap * list Position.t :=
  match dirs with
  | [] => (dist_map, queue)
  | dir :: dirs' =>
      let next := Position.move curr dir in
      if Position.is_valid next
         && (grid_at dist_map (Position.x next) (Position.y next) =? 0)
      then bfs_scan
             (grid_set dist_map (Position.x next) (Position.y next)
                       (to_int16 (curr_dist + 1)))
             (queue ++ [next]) curr curr_dist dirs'
      else bfs_scan dist_map queue curr curr_dist dirs'
  end.

(** [while (!queue.empty()) { ... }] *)
Fixpoint bfs_loop (fuel : nat) (dist_map : DistanceMap) (queue : list Position.t)
    : option DistanceMap :=
  match queue with
  | [] => Some dist_map
  | curr :: queue' =>
      match fuel with
      | O => None
      | S fuel' =>
          let curr_dist := grid_at dist_map (Position.x curr) (Position.y curr) in
          let '(dist_map', queue'') :=
            bfs_scan dist_map queue' curr curr_dist Direction.all in
          bfs_loop fuel' dist_map' queue''
      end
  end.

(** The number of loop iterations granted to one BFS. *)
Definition BFS_FUEL : nat := Z.to_nat TOTAL_CELLS.

(** [GlobalDistanceCache::compute_distance_map] *)
Definition compute_distance_map (wall : GridMap) (start_row start_col : Z)
    : option DistanceMap :=
  let dist_map := grid_init (fun i j => if grid_at wall i j =? 0 then 0 else -1) in
  let dist_map := grid_set dist_map start_row start_col 1 in
  bfs_loop BFS_FUEL dist_map [Position.mk (to_int8 start_row) (to_int8 start_col)].

(** [GlobalDistanceCache]: the vector of maps and the [initialized_] flag. *)
Record GlobalDistanceCache : Type := mkCache {
  cache_ : list DistanceMap;
  initialized_ : bool
}.

Definition GlobalDistanceCache_empty : GlobalDistanceCache := mkCache [] false.

(** [GlobalDistanceCache::initialize] *)
Definition GlobalDistanceCache_initialize (wall : GridMap) : option GlobalDistanceCache :=
  maps ← mapM (fun p => compute_distance_map wall (p / MAP_SIZE) (p mod MAP_SIZE))
              (seqZ 0 (MAP_SIZE * MAP_SIZE));
  Some (mkCache maps true).

(** [GlobalDistanceCache::get]; an index outside the vector has no value. *)
Definition GlobalDistanceCache_get (c : GlobalDistanceCache) (row col : Z)
    : option DistanceMap :=
  let i := row * MAP_SIZE + col in
  if i <? 0 then None else cache_ c !! Z.to_nat i.

(** The process-wide variables: the singleton cache and the static flag
    [Simulator::global_cache_enabled_]. *)
Record Globals : Type := mkGlobals {
  global_cache_enabled_ : bool;
  instance : GlobalDistanceCache
}.

(** [GlobalDistanceCache::clear] *)
Definition GlobalDistanceCache_clear (c : GlobalDistanceCache) : GlobalDistanceCache :=
  mkCache [] false.

(** [Simulator::enable_global_cache] and [Simulator::disable_global_cache] *)
Definition enable_global_cache (g : Globals) : Globals := mkGlobals true (instance g).
Definition disable_global_cache (g : Globals) : Globals := mkGlobals false (instance g).

(** [Simulator::is_cache_initialized] and [Simulator::is_cache_enabled] *)
Definition is_cache_initialized (g : Globals) : bool := initialized_ (instance g).
Definition is_cache_enabled (g : Globals) : bool := global_cache_enabled_ g.

(** The globals after [GlobalDistanceCache::instance().clear()]. *)
Definition clear_cache (g : Globals) : Globals :=
  mkGlobals (global_cache_enabled_ g) (GlobalDistanceCache_clear (instance g)).

(** ** Field updates of [GameState] and [Entity] *)

Definition set_mouse (st : GameState) (p : Position.t) : GameState :=
  {| wall := wall st; sc := sc st; junc := junc st; deadend := deadend st;
     mouse := p; mouse_last := mouse_last st;
     cats := cats st; movbc := movbc st; crzbc := crzbc st;
     score := score st; life := life st; step := step st;
     step_limit := step_limit st; run := run st;
     func_chance := func_chance st; red_zone := red_zone st;
     win_sign := win_sign st; lose_sign := lose_sign st; catched := catched st |}.

Definition set_mouse_last (st : GameState) (p : Position.t) : GameState :=
  {| wall := wall st; sc := sc st; junc := junc st; deadend := deadend st;
     mouse := mouse st; mouse_last := p;
     cats := cats st; movbc := movbc st; crzbc := crzbc st;
     score := score st; life := life st; step := step st;
     step_limit := step_limit st; run := run st;
     func_chance := func_chance st; red_zone := red_zone st;
     win_sign := win_sign st; lose_sign := lose_sign st; catched := catched st |}.

Definition set_step (st : GameState) (v : Z) : GameState :=
  {| wall := wall st; sc := sc st; junc := junc st; deadend := deadend st;
     mouse := mouse st; mouse_last := mouse_last st;
     cats := cats st; movbc := movbc st; crzbc := crzbc st;
     score := score st; life := life st; step := v;
     step_limit := step_limit st; run := run st;
     func_chance := func_chance st; red_zone := red_zone st;
     win_sign := win_sign st; lose_sign := lose_sign st; catched := catched st |}.

Definition set_sc (st : GameState) (g : GridMap) : GameState :=
  {| wall := wall st; sc := g; junc := junc st; deadend := deadend st;
     mouse := mouse st; mouse_last := mouse_last st;
     cats := cats st; movbc := movbc st; crzbc := crzbc st;
     score := score st; life := life st; step := step st;
     step_limit := step_limit st; run := run st;
     func_chance := func_chance st; red_zone := red_zone st;
     win_sign := win_sign st; lose_sign := lose_sign st; catched := catched st |}.

Definition set_cats (st : GameState) (r : Roster) : GameState :=
  {| wall := wall st; sc := sc st; junc := junc st; deadend := deadend st;
     mouse := mouse st; mouse_last := mouse_last st;
     cats := r; movbc := movbc st; crzbc := crzbc st;
     score := score st; life := life st; step := step st;
     step_limit := step_limit st; run := run st;
     func_chance := func_chance st; red_zone := red_zone st;
     win_sign := win_sign st; lose_sign := lose_sign st; catched := catched st |}.

Definition set_movbc (st : GameState) (r : Roster) : GameState :=
  {| wall := wall st; sc := sc st; junc := junc st; deadend := deadend st;
     mouse := mouse st; mouse_last := mouse_last st;
     cats := cats st; movbc := r; crzbc := crzbc st;
     score := score st; life := life st; step := step st;
     step_limit := step_limit st; run := run st;
     func_chance := func_chance st; red_zone := red_zone st;
     win_sign := win_sign st; lose_sign := lose_sign st; catched := catched st |}.

Definition set_crzbc (st : GameState) (r : Roster) : GameState :=
  {| wall := wall st; sc := sc st; junc := junc st; deadend := deadend st;
     mouse := mouse st; mouse_last := mouse_last st;
     cats := cats st; movbc := movbc st; crzbc := r;
     score := score st; life := life st; step := step st;
     step_limit := step_limit st; run := run st;
     func_chance := func_chance st; red_zone := red_zone st;
     win_sign := win_sign st; lose_sign := lose_sign st; catched := catched st |}.

Definition set_win_sign (st : GameState) (b : bool) : GameState :=
  {| wall := wall st; sc := sc st; junc := junc st; deadend := deadend st;
     mouse := mouse st; mouse_last := mouse_last st;
     cats := cats st; movbc := movbc st; crzbc := crzbc st;
     score := score st; life := life st; step := step st;
     step_limit := step_limit st; run := run st;
     func_chance := func_chance st; red_zone := red_zone st;
     win_sign := b; lose_sign := lose_sign st; catched := catched st |}.

Definition set_pos (e : Entity) (p : Position.t) : Entity :=
  mkEntity p (last_pos e) (direction e) (active e).
Definition set_last_pos (e : Entity) (p : Position.t) : Entity :=
  mkEntity (pos e) p (direction e) (active e).
Definition set_direction (e : Entity) (d : Z) : Entity :=
  mkEntity (pos e) (last_pos e) d (active e).
Definition set_active (e : Entity) (b : bool) : Entity :=
  mkEntity (pos e) (last_pos e) (direction e) b.

(** ** simulator.hpp: the simulator object *)

(** [std::mt19937] with [std::uniform_int_distribution<>]: a generator state
    and the draw of an integer between two bounds. *)
Class RandomEngine : Type := {
  Rng : Type;
  uniform_int_distribution : Z -> Z -> Rng -> Z * Rng
}.

(** Modelled from the spec: [function_library.hpp] is not among the sources;
    the library is its one query, "resolve(id) -> token sequence", held in
    the field [func_lib_]. *)
Record Simulator `{RandomEngine} : Type := mkSimulator {
  state_ : GameState;
  func_lib_ : Z -> list Z;
  rng_ : Rng;
  level_ : Z
}.

(** Member functions that draw random numbers change the simulator object:
    they are state transformers over [Simulator]. *)
Definition Sim `{RandomEngine} (A : Type) : Type := Simulator -> A * Simulator.

Definition sim_ret `{RandomEngine} {A} (a : A) : Sim A := fun s => (a, s).

Definition sim_bind `{RandomEngine} {A B} (m : Sim A) (k : A -> Sim B) : Sim B :=
  fun s => let '(a, s') := m s in k a s'.

Declare Scope sim_scope.
Delimit Scope sim_scope with sim.
Notation "x <~ m ;> k" := (sim_bind m (fun x => k))
  (at level 20, m at level 100, k at level 200, only parsing) : sim_scope.
Notation "' p <~ m ;> k" := (sim_bind m (fun p => k))
  (at level 20, p pattern, m at level 100, k at level 200, only parsing) : sim_scope.

(** [dist(rng_)] for [std::uniform_int_distribution<> dist(lo, hi)]. *)
Definition draw `{RandomEngine} (lo hi : Z) : Sim Z :=
  fun s =>
    let '(v, r) := uniform_int_distribution lo hi (rng_ s) in
    (v, mkSimulator _ (state_ s) (func_lib_ s) r (level_ s)).

(** [Simulator::restore_state] *)
Definition restore_state `{RandomEngine} (s : Simulator) (st : GameState) : Simulator :=
  mkSimulator _ st (func_lib_ s) (rng_ s) (level_ s).

(** [Simulator::initialize_cache] *)
Definition initialize_cache `{RandomEngine} (s : Simulator) (g : Globals) : option Globals :=
  c ← GlobalDistanceCache_initialize (wall (state_ s));
  Some (mkGlobals true c).

(** [next.is_valid() && !st.wall[next.x][next.y]] *)
Definition open_cell (st : GameState) (next : Position.t) : bool :=
  Position.is_valid next
  && (grid_at (wall st) (Position.x next) (Position.y next) =? 0).

(** [Simulator::movable]: it reads the wall layer of the stored state. *)
Definition movable `{RandomEngine} (s : Simulator) (p : Position.t) (dir : Z) : bool :=
  open_cell (state_ s) (Position.move p dir).

(** [Simulator::move_pos] *)
Definition move_pos (p : Position.t) (dir : Z) : Position.t :=
  let next := Position.move p dir in
  Position.mk
    (Z.max 0 (Z.min (to_int8 (MAP_SIZE - 1)) (Position.x next)))
    (Z.max 0 (Z.min (to_int8 (MAP_SIZE - 1)) (Position.y next))).

(** [Simulator::create_distance_map] *)
Definition create_distance_map `{RandomEngine}
    (g : Globals) (s : Simulator) (target : Position.t) : option DistanceMap :=
  if global_cache_enabled_ g && initialized_ (instance g) then
    GlobalDistanceCache_get (instance g) (Position.x target) (Position.y target)
  else
    let dist_map :=
      grid_init (fun i j => if grid_at (wall (state_ s)) i j =? 0 then 0 else -1) in
    let dist_map := grid_set dist_map (Position.x target) (Position.y target) 1 in
    bfs_loop BFS_FUEL dist_map [target].

(** ** simulator.cpp: parsing *)

Record ParsedProgram : Type := mkParsed {
  main_cmd : list Z;
  func1 : list Z;
  func2 : list Z
}.

(** The locals of [parse_program]. *)
Record ParseLocals : Type := mkParseLocals {
  result : ParsedProgram;
  first_func_id : Z;
  second_func_id : Z
}.

Definition push_main (r : ParsedProgram) (token : Z) : ParsedProgram :=
  mkParsed (main_cmd r ++ [token]) (func1 r) (func2 r).

(** [for (int token : program) { ... }] *)
Fixpoint parse_loop (get_function : Z -> list Z) (program : list Z) (l : ParseLocals)
    : ParsedProgram :=
  match program with
  | [] => result l
  | token :: rest =>
      if token =? Token.END then result l
      else if token =? Token.EMPTY then parse_loop get_function rest l
      else if Token.is_func_lib token then
        if first_func_id l <? 0 then
          parse_loop get_function rest
            (mkParseLocals
               (mkParsed (main_cmd (result l) ++ [Token.FUNC_F1])
                         (get_function token) (func2 (result l)))
               token (second_func_id l))
        else if token =? first_func_id l then
          parse_loop get_function rest
            (mkParseLocals (push_main (result l) Token.FUNC_F1)
                           (first_func_id l) (second_func_id l))
        else if second_func_id l <? 0 then
          parse_loop get_function rest
            (mkParseLocals
               (mkParsed (main_cmd (result l) ++ [Token.FUNC_F2])
                         (func1 (result l)) (get_function token))
               (first_func_id l) token)
        else if token =? second_func_id l then
          parse_loop get_function rest
            (mkParseLocals (push_main (result l) Token.FUNC_F2)
                           (first_func_id l) (second_func_id l))
        else parse_loop get_function rest l
      else
        parse_loop get_function rest
          (mkParseLocals (push_main (result l) token)
                         (first_func_id l) (second_func_id l))
  end.

(** [Simulator::parse_program] *)
Definition parse_program `{RandomEngine} (s : Simulator) (program : list Z) : ParsedProgram :=
  parse_loop (func_lib_ s) program (mkParseLocals (mkParsed [] [] []) (-1) (-1)).

(** ** simulator.cpp: the command interpreter *)

(** [ActionResult] together with the other by-reference arguments of
    [process_commands]: the scratch state and the running action index. *)
Record Exec : Type := mkExec {
  sim_state : GameState;
  actions : list Z;
  wall_collisions : gset Z;
  action_idx : Z
}.

(** The locals [need_next], [pc] and [n_iter] of one [process_commands] call. *)
Record Machine : Type := mkMachine {
  need_next : Z;
  pc : Z;
  n_iter : Z
}.

Definition Machine_init : Machine := mkMachine 0 0 0.

(** One direction attempt of the NORMAL state and of a LOOP iteration. *)
Definition attempt `{RandomEngine} (s : Simulator) (cmd : Z) (e : Exec) : Exec :=
  if movable s (mouse (sim_state e)) cmd then
    mkExec (set_mouse (sim_state e) (move_pos (mouse (sim_state e)) cmd))
           (actions e ++ [cmd]) (wall_collisions e) (action_idx e + 1)
  else
    mkExec (sim_state e) (actions e ++ [cmd])
           ({[action_idx e]} ∪ wall_collisions e) (action_idx e + 1).

(** [for (int j = 0; j < n_iter; j++) { ... }] *)
Fixpoint loop_run `{RandomEngine} (n : nat) (s : Simulator) (cmd : Z) (e : Exec) : Exec :=
  match n with
  | O => e
  | S n' => loop_run n' s cmd (attempt s cmd e)
  end.

(** [while (remaining > 0) { ... }] of the conditional run. *)
Fixpoint if_run `{RandomEngine} (fuel : nat) (s : Simulator) (cmd : Z)
    (remaining : Z) (e : Exec) : option Exec :=
  if remaining >? 0 then
    match fuel with
    | O => None
    | S fuel' =>
        if movable s (mouse (sim_state e)) cmd then
          let st' := set_mouse (sim_state e) (move_pos (mouse (sim_state e)) cmd) in
          let e' := mkExec st' (actions e ++ [cmd]) (wall_collisions e)
                           (action_idx e + 1) in
          let remaining' :=
            if grid_at (junc st') (Position.x (mouse st')) (Position.y (mouse st')) =? 0
            then remaining else remaining - 1 in
          if_run fuel' s cmd remaining' e'
        else Some e
    end
  else Some e.

(** The state machine of the loop body, for a token that is neither END,
    EMPTY nor an executed call. *)
Definition machine_step `{RandomEngine} (fuel : nat) (s : Simulator) (cmd : Z)
    (m : Machine) (e : Exec) : option (Machine * Exec) :=
  if need_next m =? 0 then
    if Token.is_direction cmd then Some (m, attempt s cmd e)
    else if cmd =? Token.LOOP then Some (mkMachine Token.LOOP (pc m) (n_iter m), e)
    else if cmd =? Token.IF then Some (mkMachine Token.IF (pc m) (n_iter m), e)
    else Some (m, e)
  else if need_next m =? Token.LOOP then
    if Token.is_num cmd
    then Some (mkMachine cmd Token.LOOP (Token.get_num_value cmd), e)
    else Some (m, e)
  else if need_next m =? Token.IF then
    if Token.is_if_num cmd
    then Some (mkMachine cmd Token.IF (Token.get_num_value cmd), e)
    else Some (mkMachine cmd Token.IF (n_iter m), e)
  else if (pc m =? Token.LOOP) && Token.is_direction cmd then
    Some (mkMachine 0 0 (n_iter m), loop_run (Z.to_nat (n_iter m)) s cmd e)
  else if (pc m =? Token.IF) && Token.is_if_num (need_next m)
          && Token.is_direction cmd then
    e' ← if_run fuel s cmd (n_iter m) e;
    Some (mkMachine 0 0 (n_iter m), e')
  else Some (m, e).

Definition is_empty (l : list Z) : bool :=
  match l with [] => true | _ => false end.

(** [for (size_t i = 0; i < commands.size(); i++) { ... }]; [call1] and
    [call2] are the recursive invocations on the two function bodies. *)
Fixpoint commands_loop `{RandomEngine} (call1 call2 : Exec -> option Exec)
    (fuel : nat) (s : Simulator) (func1 func2 : list Z)
    (commands : list Z) (m : Machine) (e : Exec) : option Exec :=
  match commands with
  | [] => Some e
  | cmd :: rest =>
      if cmd =? Token.END then Some e
      else if cmd =? Token.EMPTY then
        commands_loop call1 call2 fuel s func1 func2 rest m e
      else if (cmd =? Token.FUNC_F1) && negb (is_empty func1) then
        e' ← call1 e;
        commands_loop call1 call2 fuel s func1 func2 rest m e'
      else if (cmd =? Token.FUNC_F2) && negb (is_empty func2) then
        e' ← call2 e;
        commands_loop call1 call2 fuel s func1 func2 rest m e'
      else
        '(m', e') ← machine_step fuel s cmd m e;
        commands_loop call1 call2 fuel s func1 func2 rest m' e'
  end.

(** [Simulator::process_commands]; [fuel] bounds the depth of the recursion
    and the iterations of each conditional run. *)
Fixpoint process_commands `{RandomEngine} (fuel : nat) (s : Simulator)
    (commands func1 func2 : list Z) (e : Exec) : option Exec :=
  match fuel with
  | O => None
  | S fuel' =>
      commands_loop (process_commands fuel' s func1 func1 func2)
                    (process_commands fuel' s func2 func1 func2)
                    fuel' s func1 func2 commands Machine_init e
  end.

(** [Simulator::get_mouse_actions] *)
Definition get_mouse_actions `{RandomEngine} (fuel : nat) (s : Simulator)
    (command func1 func2 : list Z) (st : GameState) : option Exec :=
  process_commands fuel s command func1 func2 (mkExec st [] ∅ 0).

(** ** simulator.cpp: the per-tick pursuer AI *)

Local Open Scope sim_scope.

Definition sim_get `{RandomEngine} : Sim Simulator := fun s => (s, s).

(** The flee scan [for (dir = 0; dir < COUNT; dir++)] with its two running
    values [best_dir] and [max_dist]. *)
Fixpoint flee_scan (st : GameState) (dist_map : DistanceMap) (p : Position.t)
    (dirs : list Z) (best_dir max_dist : Z) : Z * Z :=
  match dirs with
  | [] => (best_dir, max_dist)
  | dir :: dirs' =>
      let next := Position.move p dir in
      if negb (Position.is_valid next) then
        flee_scan st dist_map p dirs' best_dir max_dist
      else if negb (grid_at (wall st) (Position.x next) (Position.y next) =? 0) then
        flee_scan st dist_map p dirs' best_dir max_dist
      else
        let next_dist := grid_at dist_map (Position.x next) (Position.y next) in
        if next_dist >? max_dist
        then flee_scan st dist_map p dirs' dir next_dist
        else flee_scan st dist_map p dirs' best_dir max_dist
  end.

(** The directions collected in [valid_dirs] on a junction. *)
Definition junction_dirs (st : GameState) (p : Position.t) (back_dir : Z) : list Z :=
  filter (fun dir => negb (dir =? back_dir) && open_cell st (Position.move p dir) = true)
         Direction.all.

(** [for (tries = 0; tries < MAX_RANDOM_TRIES; tries++)] at the end of
    [move_single_cat]: the first open neighbour drawn, with its direction. *)
Fixpoint random_probe `{RandomEngine} (tries : nat) (st : GameState) (p : Position.t)
    : Sim (option (Position.t * Z)) :=
  match tries with
  | O => sim_ret None
  | S tries' =>
      dir <~ draw 0 (Direction.COUNT - 1) ;>
      let next := Position.move p dir in
      if open_cell st next then sim_ret (Some (next, dir))
      else random_probe tries' st p
  end.

(** [Simulator::move_single_cat], from "keep the current direction" on. *)
Definition cat_straight_or_probe `{RandomEngine} (cat : Entity) (st : GameState)
    : Sim Entity :=
  let next := Position.move (pos cat) (direction cat) in
  if open_cell st next then sim_ret (set_pos cat next)
  else
    r <~ random_probe Config.MAX_RANDOM_TRIES st (pos cat) ;>
    match r with
    | Some (next, dir) => sim_ret (set_direction (set_pos cat next) (to_int8 dir))
    | None => sim_ret cat
    end.

(** [Simulator::move_single_cat], from the junction rule on. *)
Definition cat_junction `{RandomEngine} (cat : Entity) (st : GameState) : Sim Entity :=
  if negb (grid_at (junc st) (Position.x (pos cat)) (Position.y (pos cat)) =? 0) then
    let back_dir := Direction.OPPOSITE (direction cat) in
    let valid_dirs := junction_dirs st (pos cat) back_dir in
    if negb (is_empty valid_dirs) then
      i <~ draw 0 (Z.of_nat (length valid_dirs) - 1) ;>
      let chosen := array_at valid_dirs i in
      sim_ret (set_direction (set_pos cat (Position.move (pos cat) chosen))
                             (to_int8 chosen))
    else cat_straight_or_probe cat st
  else cat_straight_or_probe cat st.

(** [Simulator::move_single_cat] *)
Definition move_single_cat `{RandomEngine} (cat : Entity) (st : GameState)
    (dist_map : DistanceMap) : Sim Entity :=
  let cat := set_last_pos cat (pos cat) in
  if negb (grid_at (deadend st) (Position.x (pos cat)) (Position.y (pos cat)) =? 0)
  then sim_ret cat
  else
    let my_dist := grid_at dist_map (Position.x (pos cat)) (Position.y (pos cat)) in
    let best_dir :=
      if (my_dist >? 0) && (my_dist <=? red_zone st)
      then fst (flee_scan st dist_map (pos cat) Direction.all (-1) my_dist)
      else -1 in
    if best_dir >=? 0 then
      sim_ret (set_direction (set_pos cat (Position.move (pos cat) best_dir))
                             (to_int8 best_dir))
    else cat_junction cat st.

(** [Simulator::check_crossing] *)
Definition check_crossing (p1 p1_last p2 p2_last : Position.t) : bool :=
  Position.eqb p1 p2_last && Position.eqb p2 p1_last.

(** *** The movers of the three rosters *)

(** [Simulator::move_cats]: the loop over the two pursuers; the second is
    moved in the state the first was moved in. *)
Definition move_cats `{RandomEngine} (st : GameState) (dist_map : DistanceMap)
    : Sim GameState :=
  c0 <~ (if negb (active (fst (cats st))) then sim_ret (fst (cats st))
         else move_single_cat (fst (cats st)) st dist_map) ;>
  let st := set_cats st (c0, snd (cats st)) in
  c1 <~ (if negb (active (snd (cats st))) then sim_ret (snd (cats st))
         else move_single_cat (snd (cats st)) st dist_map) ;>
  sim_ret (set_cats st (fst (cats st), c1)).

(** The body of the loop of [move_movbc] for an active item: the first open
    neighbour drawn becomes its cell; its facing is not written. *)
Definition move_one_movbc `{RandomEngine} (bc : Entity) (st : GameState) : Sim Entity :=
  let bc := set_last_pos bc (pos bc) in
  r <~ random_probe Config.MAX_RANDOM_TRIES st (pos bc) ;>
  match r with
  | Some (next, _) => sim_ret (set_pos bc next)
  | None => sim_ret bc
  end.

(** [Simulator::move_movbc] *)
Definition move_movbc `{RandomEngine} (st : GameState) : Sim GameState :=
  b0 <~ (if negb (active (fst (movbc st))) then sim_ret (fst (movbc st))
         else move_one_movbc (fst (movbc st)) st) ;>
  let st := set_movbc st (b0, snd (movbc st)) in
  b1 <~ (if negb (active (snd (movbc st))) then sim_ret (snd (movbc st))
         else move_one_movbc (snd (movbc st)) st) ;>
  sim_ret (set_movbc st (fst (movbc st), b1)).

(** The body of the loop of [move_crzbc] for an active item: the dead-end
    halt, then the junction rule, continue-straight and the random probe. *)
Definition move_one_crzbc `{RandomEngine} (bc : Entity) (st : GameState) : Sim Entity :=
  let bc := set_last_pos bc (pos bc) in
  if negb (grid_at (deadend st) (Position.x (pos bc)) (Position.y (pos bc)) =? 0)
  then sim_ret bc
  else cat_junction bc st.

(** [Simulator::move_crzbc]; the distance map is not read. *)
Definition move_crzbc `{RandomEngine} (st : GameState) (dist_map : DistanceMap)
    : Sim GameState :=
  b0 <~ (if negb (active (fst (crzbc st))) then sim_ret (fst (crzbc st))
         else move_one_crzbc (fst (crzbc st)) st) ;>
  let st := set_crzbc st (b0, snd (crzbc st)) in
  b1 <~ (if negb (active (snd (crzbc st))) then sim_ret (snd (crzbc st))
         else move_one_crzbc (snd (crzbc st)) st) ;>
  sim_ret (set_crzbc st (fst (crzbc st), b1)).

(** ** simulator.cpp: planning the entity actions ahead of the tick loop *)

(** One planned entity: its virtual position and facing
    ([virtual_cats[i]], [virtual_dirs[i]]) and its action list so far. *)
Record Virtual : Type := mkVirtual {
  virtual_pos : Position.t;
  virtual_dir : Z;
  planned : list Z
}.

(** [cat_dir >= 0 && cat_dir < COUNT ? cat_dir : 0] *)
Definition facing_or_zero (dir : Z) : Z :=
  if (dir >=? 0) && (dir <? Direction.COUNT) then dir else 0.

(** The probe of the junction branch: a draw equal to the reverse of the
    facing is skipped ([continue]); [None] is [found == false]. *)
Fixpoint plan_junction_probe `{RandomEngine} (tries : nat) (st : GameState)
    (v : Virtual) : Sim (option Virtual) :=
  match tries with
  | O => sim_ret None
  | S tries' =>
      new_dir <~ draw 0 (Direction.COUNT - 1) ;>
      if new_dir =? Direction.OPPOSITE (virtual_dir v)
      then plan_junction_probe tries' st v
      else
        let next := Position.move (virtual_pos v) new_dir in
        if open_cell st next
        then sim_ret (Some (mkVirtual next new_dir (planned v ++ [new_dir])))
        else plan_junction_probe tries' st v
  end.

(** The probe of the blocked branch. *)
Fixpoint plan_blocked_probe `{RandomEngine} (tries : nat) (st : GameState)
    (v : Virtual) : Sim (option Virtual) :=
  match tries with
  | O => sim_ret None
  | S tries' =>
      new_dir <~ draw 0 (Direction.COUNT - 1) ;>
      let next := Position.move (virtual_pos v) new_dir in
      if open_cell st next
      then sim_ret (Some (mkVirtual next new_dir (planned v ++ [new_dir])))
      else plan_blocked_probe tries' st v
  end.

Definition plan_not_found (v : Virtual) : Virtual :=
  mkVirtual (virtual_pos v) (virtual_dir v)
            (planned v ++ [facing_or_zero (virtual_dir v)]).

(** The body of the inner loop of [pre_calculate_cat_actions] for one
    pursuer, and of [pre_calculate_crzbc_actions] after its two guards. *)
Definition plan_step `{RandomEngine} (st : GameState) (v : Virtual) : Sim Virtual :=
  s <~ sim_get ;>
  if negb (grid_at (junc st) (Position.x (virtual_pos v)) (Position.y (virtual_pos v)) =? 0)
  then
    r <~ plan_junction_probe Config.MAX_RANDOM_TRIES st v ;>
    match r with
    | Some v' => sim_ret v'
    | None => sim_ret (plan_not_found v)
    end
  else if movable s (virtual_pos v) (virtual_dir v) then
    sim_ret (mkVirtual (move_pos (virtual_pos v) (virtual_dir v)) (virtual_dir v)
                       (planned v ++ [virtual_dir v]))
  else
    r <~ plan_blocked_probe Config.MAX_RANDOM_TRIES st v ;>
    match r with
    | Some v' => sim_ret v'
    | None => sim_ret (plan_not_found v)
    end.

(** [for (step = 0; step < n_steps; step++) for (i = 0; i < NUM_CATS; i++)] *)
Fixpoint plan_cats_loop `{RandomEngine} (n : nat) (st : GameState)
    (c0 c1 : Virtual) : Sim (Virtual * Virtual) :=
  match n with
  | O => sim_ret (c0, c1)
  | S n' =>
      c0' <~ plan_step st c0 ;>
      c1' <~ plan_step st c1 ;>
      plan_cats_loop n' st c0' c1'
  end.

Definition virtual_of (e : Entity) : Virtual :=
  mkVirtual (pos e) (direction e) [].

(** [Simulator::pre_calculate_cat_actions] *)
Definition pre_calculate_cat_actions `{RandomEngine} (mouse_actions : list Z)
    (st : GameState) : Sim (list Z * list Z) :=
  '(c0, c1) <~ plan_cats_loop (length mouse_actions) st
                 (virtual_of (fst (cats st))) (virtual_of (snd (cats st))) ;>
  sim_ret (planned c0, planned c1).

(** One roaming item in one step of [pre_calculate_crzbc_actions]. *)
Definition plan_crzbc_step `{RandomEngine} (st : GameState) (is_active : bool)
    (v : Virtual) : Sim Virtual :=
  if negb is_active then sim_ret v
  else if negb (Position.is_valid (virtual_pos v)) then sim_ret v
  else plan_step st v.

Fixpoint plan_crzbc_loop `{RandomEngine} (n : nat) (st : GameState)
    (b0 b1 : Virtual) : Sim (Virtual * Virtual) :=
  match n with
  | O => sim_ret (b0, b1)
  | S n' =>
      b0' <~ plan_crzbc_step st (active (fst (crzbc st))) b0 ;>
      b1' <~ plan_crzbc_step st (active (snd (crzbc st))) b1 ;>
      plan_crzbc_loop n' st b0' b1'
  end.

(** [Simulator::pre_calculate_crzbc_actions] *)
Definition pre_calculate_crzbc_actions `{RandomEngine} (n_moves : Z)
    (st : GameState) : Sim (list Z * list Z) :=
  '(b0, b1) <~ plan_crzbc_loop (Z.to_nat n_moves) st
                 (virtual_of (fst (crzbc st))) (virtual_of (snd (crzbc st))) ;>
  sim_ret (planned b0, planned b1).

(** ** simulator.cpp: the tick loop *)

(** The scratch state of [simulate_program] with its two running totals. *)
Record Run : Type := mkRun {
  run_state : GameState;
  virtual_score : Z;
  virtual_life : Z
}.

(** [command_length]: the tokens up to and including the first END. *)
Fixpoint count_command_length (program : list Z) : Z :=
  match program with
  | [] => 0
  | token :: rest =>
      if token =? Token.END then 1 else 1 + count_command_length rest
  end.

(** Step 2 of a tick: the mouse. *)
Definition tick_mouse `{RandomEngine} (s : Simulator) (action : Z) (st : GameState)
    : GameState :=
  let st := set_mouse_last st (mouse st) in
  if movable s (mouse st) action
  then set_step (set_mouse st (move_pos (mouse st) action)) (to_int16 (step st + 1))
  else st.

(** Steps 3 and 4: pursuer [me] follows its plan unless the destination is
    the current cell of pursuer [other]. *)
Definition tick_cat `{RandomEngine} (s : Simulator) (me other : nat) (plan : list Z)
    (itr : nat) (st : GameState) : GameState :=
  match plan !! itr with
  | Some a =>
      let c := roster_at (cats st) me in
      if movable s (pos c) a then
        let new_pos := move_pos (pos c) a in
        if negb (Position.eqb new_pos (pos (roster_at (cats st) other)))
        then set_cats st (roster_set (cats st) me
                            (set_pos (set_last_pos c (pos c)) new_pos))
        else st
      else st
  | None => st
  end.

(** Step 5 for roaming item [j]. *)
Definition tick_crzbc `{RandomEngine} (s : Simulator) (j : nat) (plan : list Z)
    (itr : nat) (st : GameState) : GameState :=
  let bc := roster_at (crzbc st) j in
  if negb (active bc) then st
  else match plan !! itr with
       | Some a =>
           if movable s (pos bc) a then
             let new_pos := move_pos (pos bc) a in
             let collision :=
               existsb (fun c => Position.eqb new_pos (pos c)) (roster_list (cats st))
               || existsb (fun k => negb (Nat.eqb k j)
                                    && active (roster_at (crzbc st) k)
                                    && Position.eqb new_pos (pos (roster_at (crzbc st) k)))
                          [0%nat; 1%nat] in
             if negb collision
             then set_crzbc st (roster_set (crzbc st) j (set_pos bc new_pos))
             else st
           else st
       | None => st
       end.

(** Step 6 for pursuer [ci]; the flag of the result is [catched]. *)
Definition tick_catch (ci : nat) (acc : Run * bool) : Run * bool :=
  let '(r, was_catched) := acc in
  let st := run_state r in
  let c := roster_at (cats st) ci in
  if negb (active c) then acc
  else if Position.eqb (mouse st) (pos c)
          || check_crossing (mouse st) (mouse_last st) (pos c) (last_pos c)
  then (mkRun st (virtual_score r + Score.CAT_COLLISION) (virtual_life r - 1), true)
  else acc.

(** Steps 7 and 8 for one bonus item. *)
Definition collect (at_mouse : Position.t) (bc : Entity) (points : Z) : Entity * Z :=
  if negb (active bc) then (bc, points)
  else if Position.eqb at_mouse (pos bc)
  then (set_active bc false, points + Score.BIG_CHEESE)
  else (bc, points).

Definition collect_roster (at_mouse : Position.t) (r : Roster) (points : Z)
    : Roster * Z :=
  let '(b0, points) := collect at_mouse (fst r) points in
  let '(b1, points) := collect at_mouse (snd r) points in
  ((b0, b1), points).

Definition tick_movbc (r : Run) : Run :=
  let st := run_state r in
  let '(bcs, points) := collect_roster (mouse st) (movbc st) (virtual_score r) in
  mkRun (set_movbc st bcs) points (virtual_life r).

Definition tick_crzbc_collect (r : Run) : Run :=
  let st := run_state r in
  let '(bcs, points) := collect_roster (mouse st) (crzbc st) (virtual_score r) in
  mkRun (set_crzbc st bcs) points (virtual_life r).

(** Step 9: the small cheese under the mouse. *)
Definition tick_sc (r : Run) : Run :=
  let st := run_state r in
  let mx := Position.x (mouse st) in
  let my := Position.y (mouse st) in
  if negb (grid_at (sc st) mx my =? 0)
  then mkRun (set_sc st (grid_set (sc st) mx my 0))
             (virtual_score r + Score.SMALL_CHEESE) (virtual_life r)
  else r.

(** The victory branch: the flag and the bonus [run * 10 + step]. *)
Definition award_victory (r : Run) : Run :=
  let st := set_win_sign (run_state r) true in
  mkRun st (virtual_score r + (run st * 10 + step st)) (virtual_life r).

(** Steps 10 and 11; the flag of the result is "leave the loop". *)
Definition tick_finish (r : Run) (was_catched : bool) : Run * bool :=
  if virtual_life r <=? 0 then (r, true)
  else if count_remaining_cheese (run_state r) =? 0 then (award_victory r, true)
  else if step (run_state r) >=? step_limit (run_state r) then (r, true)
  else (r, was_catched).

(** One iteration of the simulation loop. *)
Definition tick `{RandomEngine} (s : Simulator) (wall_hits : gset Z)
    (command_length : Z) (cat_actions crzbc_actions : list Z * list Z)
    (itr : nat) (action : Z) (r : Run) : Run * bool :=
  let points :=
    if bool_decide (Z.of_nat itr ∈ wall_hits)
    then virtual_score r + Score.WALL_COLLISION else virtual_score r in
  let st := tick_mouse s action (run_state r) in
  let st := tick_cat s 1 0 (snd cat_actions) itr st in
  let st := if Z.of_nat itr <? command_length
            then tick_cat s 0 1 (fst cat_actions) itr st else st in
  let st := tick_crzbc s 0 (fst crzbc_actions) itr st in
  let st := tick_crzbc s 1 (snd crzbc_actions) itr st in
  let '(r, was_catched) :=
    tick_catch 1 (tick_catch 0 (mkRun st points (virtual_life r), false)) in
  let r := tick_sc (tick_crzbc_collect (tick_movbc r)) in
  tick_finish r was_catched.

(** [for (itr = 0; itr < actions.size(); itr++)] with its [break]s. *)
Fixpoint ticks `{RandomEngine} (s : Simulator) (wall_hits : gset Z)
    (command_length : Z) (cat_actions crzbc_actions : list Z * list Z)
    (itr : nat) (todo : list Z) (r : Run) : Run :=
  match todo with
  | [] => r
  | action :: rest =>
      let '(r', stop) :=
        tick s wall_hits command_length cat_actions crzbc_actions itr action r in
      if stop then r'
      else ticks s wall_hits command_length cat_actions crzbc_actions (S itr) rest r'
  end.

(** The check after the loop. *)
Definition final_victory_check (r : Run) : Run :=
  if negb (win_sign (run_state r)) && (count_remaining_cheese (run_state r) =? 0)
  then award_victory r else r.

(** [static_cast<float>] of an [int]: the nearest binary32 number, a tie
    going to the even significand.  A binary32 number has a significand of 24
    bits, so an [int] of magnitude below [2 ^ 24] is kept and a larger one
    loses its [e] low bits; the result is again an integer, and no [int] is
    large enough to leave the exponent range. *)
Definition static_cast_float (v : Z) : Z :=
  let n := Z.abs v in
  if n <? 2 ^ 24 then v
  else
    let e := Z.log2 n - 23 in
    let q := n / 2 ^ e in
    let r := n mod 2 ^ e in
    let half := 2 ^ (e - 1) in
    let q := if (half <? r) || ((r =? half) && Z.odd q) then q + 1 else q in
    Z.sgn v * (q * 2 ^ e).

(** [Simulator::simulate_program].  The result is [virtual_score] converted
    to [float], with the simulator object after the call. *)
Definition simulate_program `{RandomEngine} (fuel : nat) (program : list Z)
    (s : Simulator) : option (Z * Simulator) :=
  let st := state_ s in
  let start_score := score (state_ s) in
  let start_life := life (state_ s) in
  let parsed := parse_program s program in
  action_result ← get_mouse_actions fuel s (main_cmd parsed) (func1 parsed)
                                       (func2 parsed) st;
  let st := state_ s in
  let command_length := count_command_length program in
  let '(cat_actions, s) := pre_calculate_cat_actions (actions action_result) st s in
  let '(crzbc_actions, s) := pre_calculate_crzbc_actions command_length st s in
  let r := ticks s (wall_collisions action_result) command_length
                 cat_actions crzbc_actions 0 (actions action_result)
                 (mkRun st start_score start_life) in
  let r := final_victory_check r in
  Some (static_cast_float (virtual_score r), s).

(** [Simulator::simulate_program_and_apply] *)
Definition simulate_program_and_apply `{RandomEngine} (fuel : nat) (program : list Z)
    (s : Simulator) : option (Z * Simulator) :=
  '(points, s) ← simulate_program fuel program s;
  Some (points, s).

Local Close Scope sim_scope.

(** ** bindings.cpp: the snapshot boundary *)

(** The Python objects a snapshot is made of.  A lookup of a missing key, a
    conversion that pybind11 rejects and an index outside a converted vector
    all end the construction without a state ([None]). *)
#[warnings="-register-all"]
Inductive PyObj : Type :=
  | PyInt (z : Z)
  | PyBool (b : bool)
  | PyList (items : list PyObj).

(** [.cast<int>()] *)
Definition cast_int (o : PyObj) : option Z :=
  match o with
  | PyInt z => Some z
  | PyBool b => Some (if b then 1 else 0)
  | PyList _ => None
  end.

(** [.cast<bool>()] *)
Definition cast_bool (o : PyObj) : option bool :=
  match o with
  | PyBool b => Some b
  | PyInt z => Some (negb (z =? 0))
  | PyList _ => None
  end.

(** [.cast<std::vector<int>>()] *)
Definition cast_vector (o : PyObj) : option (list Z) :=
  match o with
  | PyList items => mapM cast_int items
  | _ => None
  end.

(** [.cast<std::vector<std::vector<int>>>()] *)
Definition cast_matrix (o : PyObj) : option (list (list Z)) :=
  match o with
  | PyList items => mapM cast_vector items
  | _ => None
  end.

(** The loops over [cat], [movbc] and [crzbc]: slot [i] of the roster takes
    the position in row [i] and becomes active. *)
Definition read_entity (rows : list (list Z)) (i : nat) (r : Roster) : option Roster :=
  match rows !! i with
  | None => Some r
  | Some row =>
      px ← row !! 0%nat;
      py ← row !! 1%nat;
      let p := Position.mk (to_int8 px) (to_int8 py) in
      Some (roster_set r i (mkEntity p p (direction (roster_at r i)) true))
  end.

Definition read_entities (rows : list (list Z)) (r : Roster) : option Roster :=
  r ← read_entity rows 0 r;
  read_entity rows 1 r.

(** The loop over [cat_last_pos]. *)
Definition read_last_pos (rows : list (list Z)) (i : nat) (r : Roster) : option Roster :=
  match rows !! i with
  | None => Some r
  | Some row =>
      px ← row !! 0%nat;
      py ← row !! 1%nat;
      Some (roster_set r i
              (set_last_pos (roster_at r i) (Position.mk (to_int8 px) (to_int8 py))))
  end.

(** The loops over [cat_direction] and [crzbc_direction]. *)
Definition read_direction (dirs : list Z) (i : nat) (r : Roster) : Roster :=
  match dirs !! i with
  | None => r
  | Some d => roster_set r i (set_direction (roster_at r i) (to_int8 d))
  end.

(** The double loop copying a matrix into a map layer. *)
Definition read_grid (m : list (list Z)) : option GridMap :=
  mapM (fun i => row ← m !! i;
                 mapM (fun j => to_int8 <$> row !! j) (seq 0 (Z.to_nat MAP_SIZE)))
       (seq 0 (Z.to_nat MAP_SIZE)).

(** [d[key].cast<T>()] *)
Definition required_key {A} (d : gmap string PyObj) (key : string)
    (cast : PyObj -> option A) : option A :=
  match d !! key with
  | Some o => cast o
  | None => None
  end.

(** [d.contains(key) ? d[key].cast<T>() : fallback] *)
Definition optional_key {A} (d : gmap string PyObj) (key : string)
    (cast : PyObj -> option A) (fallback : A) : option A :=
  match d !! key with
  | Some o => cast o
  | None => Some fallback
  end.

(** [p.x = v[0]; p.y = v[1]] *)
Definition read_position (v : list Z) : option Position.t :=
  px ← v !! 0%nat;
  py ← v !! 1%nat;
  Some (Position.mk (to_int8 px) (to_int8 py)).

Definition cast_position (o : PyObj) : option Position.t :=
  cast_vector o ≫= read_position.

Definition cast_grid (o : PyObj) : option GridMap :=
  cast_matrix o ≫= read_grid.

Definition read_last_positions (r : Roster) (o : PyObj) : option Roster :=
  cl ← cast_matrix o;
  r ← read_last_pos cl 0 r;
  read_last_pos cl 1 r.

Definition read_directions (r : Roster) (o : PyObj) : option Roster :=
  cd ← cast_vector o;
  Some (read_direction cd 1 (read_direction cd 0 r)).

(** [dict_to_state] *)
Definition dict_to_state (d : gmap string PyObj) : option GameState :=
  let state := GameState_reset in
  mouse_p ← required_key d "mouse" cast_position;
  mouse_last_p ← optional_key d "mouse_last_pos" cast_position mouse_p;
  cat ← required_key d "cat" cast_matrix;
  cats1 ← read_entities cat (cats state);
  cats2 ← match d !! "cat_last_pos" with
          | Some o => read_last_positions cats1 o
          | None => Some cats1
          end;
  cats3 ← match d !! "cat_direction" with
          | Some o => read_directions cats2 o
          | None => Some cats2
          end;
  sc_g ← required_key d "sc" cast_grid;
  wall_g ← required_key d "wall" cast_grid;
  junc_g ← required_key d "junc" cast_grid;
  deadend_g ← required_key d "deadend" cast_grid;
  movbc_m ← required_key d "movbc" cast_matrix;
  movbc1 ← read_entities movbc_m (movbc state);
  crzbc_m ← required_key d "crzbc" cast_matrix;
  crzbc1 ← read_entities crzbc_m (crzbc state);
  crzbc2 ← match d !! "crzbc_direction" with
           | Some o => read_directions crzbc1 o
           | None => Some crzbc1
           end;
  score_v ← required_key d "score" cast_int;
  life_v ← required_key d "life" cast_int;
  step_v ← required_key d "step" cast_int;
  step_limit_v ← optional_key d "step_limit" cast_int Config.DEFAULT_STEP_LIMIT;
  run_v ← optional_key d "run" cast_int 0;
  func_chance_v ← optional_key d "func_chance" cast_int Config.DEFAULT_FUNC_CHANCE;
  red_zone_v ← optional_key d "red_zone" cast_int Config.DEFAULT_RED_ZONE;
  win_v ← optional_key d "win_sign" cast_bool false;
  lose_v ← optional_key d "lose_sign" cast_bool false;
  catched_v ← optional_key d "catched" cast_bool false;
  Some {| wall := wall_g; sc := sc_g; junc := junc_g; deadend := deadend_g;
          mouse := mouse_p; mouse_last := mouse_last_p;
          cats := cats3; movbc := movbc1; crzbc := crzbc2;
          score := score_v; life := to_int16 life_v; step := to_int16 step_v;
          step_limit := to_int16 step_limit_v; run := to_int16 run_v;
          func_chance := to_int8 func_chance_v; red_zone := to_int8 red_zone_v;
          win_sign := win_v; lose_sign := lose_v; catched := catched_v |}.

Definition py_vector (l : list Z) : PyObj := PyList (PyInt <$> l).
Definition py_matrix (m : list (list Z)) : PyObj := PyList (py_vector <$> m).
Definition py_position (p : Position.t) : list Z := [Position.x p; Position.y p].

(** [state_to_dict] *)
Definition state_to_dict (st : GameState) : gmap string PyObj :=
  let grid g := py_matrix (grid_init (grid_at g)) in
  <["mouse" := py_vector (py_position (mouse st))]>
  (<["mouse_last_pos" := py_vector (py_position (mouse_last st))]>
  (<["cat" := py_matrix ((fun c => py_position (pos c)) <$> roster_list (cats st))]>
  (<["cat_last_pos" :=
       py_matrix ((fun c => py_position (last_pos c)) <$> roster_list (cats st))]>
  (<["cat_direction" := py_vector (direction <$> roster_list (cats st))]>
  (<["sc" := grid (sc st)]>
  (<["wall" := grid (wall st)]>
  (<["junc" := grid (junc st)]>
  (<["deadend" := grid (deadend st)]>
  (<["movbc" := py_matrix ((fun c => py_position (pos c)) <$> roster_list (movbc st))]>
  (<["crzbc" := py_matrix ((fun c => py_position (pos c)) <$> roster_list (crzbc st))]>
  (<["crzbc_direction" := py_vector (direction <$> roster_list (crzbc st))]>
  (<["score" := PyInt (score st)]>
  (<["life" := PyInt (life st)]>
  (<["step" := PyInt (step st)]>
  (<["step_limit" := PyInt (step_limit st)]>
  (<["run" := PyInt (run st)]>
  (<["func_chance" := PyInt (func_chance st)]>
  (<["red_zone" := PyInt (red_zone st)]>
  (<["win_sign" := PyBool (win_sign st)]>
  (<["lose_sign" := PyBool (lose_sign st)]>
  (<["catched" := PyBool (catched st)]> ∅))))))))))))))))))))).

(** Every slot of the three rosters is active. *)
Definition all_active (st : GameState) : Prop :=
  Forall (fun e => active e = true)
         (roster_list (cats st) ++ roster_list (movbc st) ++ roster_list (crzbc st)).

(** ** Sample inputs *)

(** A generator that always draws the lower bound. *)
#[local] Instance LowRng : RandomEngine :=
  {| Rng := unit; uniform_int_distribution := fun lo _ r => (lo, r) |}.

Definition library_none : Z -> list Z := fun _ => [].

Definition level3_simulator : Simulator :=
  mkSimulator _ GameState_init_level3 library_none tt 3.


(** A library whose every body is a single call of slot 1. *)
Definition library_self_call : Z -> list Z := fun _ => [Token.FUNC_F1].

Definition self_call_simulator : Simulator :=
  mkSimulator _ GameState_init_level3 library_self_call tt 3.



(** An open board with one small cheese left at (10, 9), one life left, the
    mouse at (10, 10) and pursuer 0 two cells to its left, facing it. *)
Definition last_cheese_state : GameState :=
  {| wall := grid_zero;
     sc := grid_set grid_zero 10 9 1;
     junc := grid_zero; deadend := grid_zero;
     mouse := Position.mk 10 10; mouse_last := Position.mk 10 10;
     cats := (entity_at (Position.mk 10 8) Direction.RIGHT,
              entity_at (Position.mk 3 0) Direction.RIGHT);
     movbc := (entity_at (Position.mk 7 0) 0, entity_at (Position.mk 8 0) 0);
     crzbc := (entity_at (Position.mk 0 0) Direction.RIGHT,
               entity_at (Position.mk 5 0) Direction.RIGHT);
     score := 0; life := 1; step := 0;
     step_limit := Config.DEFAULT_STEP_LIMIT; run := 0;
     func_chance := Config.DEFAULT_FUNC_CHANCE;
     red_zone := Config.DEFAULT_RED_ZONE;
     win_sign := false; lose_sign := false; catched := false |}.

Definition last_cheese_simulator : Simulator :=
  mkSimulator _ last_cheese_state library_none tt 3.

(** A member function leaves the stored state, the library and the level of
    the simulator object as they are. *)
Definition keeps_state `{RandomEngine} {A} (m : Sim A) : Prop :=
  forall s, state_ (m s).2 = state_ s
            /\ func_lib_ (m s).2 = func_lib_ s /\ level_ (m s).2 = level_ s.

(** The level-3 state after stationary item 0 has been collected. *)
Definition collected_state : GameState :=
  set_movbc GameState_init_level3
            (set_active (fst (movbc GameState_init_level3)) false,
             snd (movbc GameState_init_level3)).

(** A library in which function 113 calls slot 2 and then moves right, and
    every other function moves up. *)
Definition library_chain : Z -> list Z :=
  fun id => if id =? 113 then [Token.FUNC_F2; Direction.RIGHT] else [Direction.UP].

Definition chain_simulator : Simulator :=
  mkSimulator _ GameState_init_level3 library_chain tt 3.

(** A snapshot with the eleven required keys only, for the level-3 board. *)
Definition minimal_snapshot : gmap string PyObj :=
  <["mouse" := py_vector [10; 10]]>
  (<["cat" := py_matrix [[2; 2]; [5; 5]]]>
  (<["sc" := py_matrix SC_DATA]>
  (<["wall" := py_matrix WALL_DATA]>
  (<["junc" := py_matrix JUNC_DATA]>
  (<["deadend" := py_matrix DEADEND_DATA]>
  (<["movbc" := py_matrix [[1; 5]; [7; 5]]]>
  (<["crzbc" := py_matrix [[0; 3]; [10; 7]]]>
  (<["score" := PyInt 0]>
  (<["life" := PyInt 3]>
  (<["step" := PyInt 0]> ∅)))))))))).

(** The state that [minimal_snapshot] restores to. *)
Definition minimal_state : GameState :=
  {| wall := WALL_DATA; sc := SC_DATA; junc := JUNC_DATA; deadend := DEADEND_DATA;
     mouse := Position.mk 10 10; mouse_last := Position.mk 10 10;
     cats := (entity_at (Position.mk 2 2) 0, entity_at (Position.mk 5 5) 0);
     movbc := (entity_at (Position.mk 1 5) 0, entity_at (Position.mk 7 5) 0);
     crzbc := (entity_at (Position.mk 0 3) 0, entity_at (Position.mk 10 7) 0);
     score := 0; life := 3; step := 0;
     step_limit := 200; run := 0; func_chance := 4; red_zone := 5;
     win_sign := false; lose_sign := false; catched := false |}.

(** ** Notions used in the statements and proofs *)

(** A grid with eleven rows of eleven cells. *)
Definition grid_dims (g : Grid) : Prop :=
  length g = Z.to_nat MAP_SIZE /\ Forall (fun row => length row = Z.to_nat MAP_SIZE) g.

(** The cells of the board, row by row. *)
Definition cells : list (Z * Z) := i ← indices; j ← indices; [(i, j)].

(** The number of cells of a distance map still holding 0. *)
Definition count_zero (g : Grid) : nat :=
  length (filter (fun c => grid_at g c.1 c.2 = 0) cells).

(** A queued cell of the BFS: on the board, with a distance already set and
    bounded by the number of cells set so far. *)
Definition queued_ok (g : DistanceMap) (p : Position.t) : Prop :=
  Position.is_valid p = true
  /\ 1 <= grid_at g (Position.x p) (Position.y p) <= 122 - Z.of_nat (count_zero g).

(** The two marks of a distance map [dm] computed from the source cell [src]
    over the wall layer [wall_layer]: the source holds 1 and every other wall
    cell of the board holds -1. *)
Definition source_one_walls_sentinel (wall_layer : GridMap) (src : Position.t)
    (dm : DistanceMap) : Prop :=
  grid_at dm (Position.x src) (Position.y src) = 1
  /\ forall i j, 0 <= i < MAP_SIZE -> 0 <= j < MAP_SIZE ->
       (i, j) <> (Position.x src, Position.y src) ->
       grid_at wall_layer i j <> 0 -> grid_at dm i j = -1.

(** *** The parsing pass as the specification words it

    "Scan tokens until the end sentinel or program exhaust; skip filler
    tokens": the tokens the scan looks at. *)
Fixpoint scanned (program : list Z) : list Z :=
  match program with
  | [] => []
  | token :: rest =>
      if token =? Token.END then []
      else if token =? Token.EMPTY then scanned rest
      else token :: scanned rest
  end.

(** The function-library ids met by the scan, in order. *)
Definition lib_ids (program : list Z) : list Z :=
  filter (fun token => Token.is_func_lib token = true) (scanned program).

(** "The first distinct function-library id encountered". *)
Definition first_bound (program : list Z) : option Z := head (lib_ids program).

(** "The next different id". *)
Definition second_bound (program : list Z) : option Z :=
  match first_bound program with
  | Some f => head (filter (fun token => token <> f) (lib_ids program))
  | None => None
  end.

(** What becomes of one scanned token: an id bound to a slot is rewritten to
    the call token of the slot, any other id is dropped, and every other
    token passes through. *)
Definition rewrite_token (first second : option Z) (token : Z) : list Z :=
  if Token.is_func_lib token then
    if decide (first = Some token) then [Token.FUNC_F1]
    else if decide (second = Some token) then [Token.FUNC_F2]
    else []
  else [token].

Definition parse_spec (resolve : Z -> list Z) (program : list Z) : ParsedProgram :=
  let first := first_bound program in
  let second := second_bound program in
  mkParsed (scanned program ≫= rewrite_token first second)
           (from_option resolve [] first)
           (from_option resolve [] second).

(** A third distinct id: a library id bound to neither slot. *)
Definition dropped_id (program : list Z) (token : Z) : Prop :=
  Token.is_func_lib token = true
  /\ first_bound program <> Some token /\ second_bound program <> Some token.

(** The value of a slot variable of [parse_program]: negative is "unbound". *)
Definition slot (id : Z) : option Z := if id <? 0 then None else Some id.

(** *** The conditional run in closed form *)

(** The cell reached after [k] successful moves in direction [d]. *)
Fixpoint walk (k : nat) (p : Position.t) (d : Z) : Position.t :=
  match k with
  | O => p
  | S k' => walk k' (move_pos p d) d
  end.

(** The number of junction cells among the first [k] cells moved onto. *)
Fixpoint crossed (junctions : GridMap) (k : nat) (p : Position.t) (d : Z) : Z :=
  match k with
  | O => 0
  | S k' =>
      let p' := move_pos p d in
      (if grid_at junctions (Position.x p') (Position.y p') =? 0 then 0 else 1)
      + crossed junctions k' p' d
  end.

(** The by-reference arguments after a conditional run of [k] moves: [k]
    actions appended, the index advanced by [k], the mouse moved [k] cells
    and the wall-collision set as it was. *)
Definition after_run (e : Exec) (d : Z) (k : nat) : Exec :=
  mkExec (set_mouse (sim_state e) (walk k (mouse (sim_state e)) d))
         (actions e ++ replicate k d) (wall_collisions e)
         (action_idx e + Z.of_nat k).

(** How many further moves in direction [d] the board allows from [p] at
    most. *)
Definition room (p : Position.t) (d : Z) : nat :=
  if Position.is_valid p then
    Z.to_nat (if d =? 0 then Position.x p
              else if d =? 1 then 10 - Position.x p
              else if d =? 2 then Position.y p
              else 10 - Position.y p)
  else 11.

(** The fuel that covers every conditional run: at most eleven moves fit on
    the board in one direction, and one more attempt is blocked. *)
Definition RUN_FUEL : nat := 12.

(** *** Programs whose calls matter *)

(** The tokens of a command sequence that [process_commands] executes as
    calls: up to the first END, the call tokens whose body is not empty. *)
Fixpoint executed_calls (func1 func2 : list Z) (commands : list Z) : list Z :=
  match commands with
  | [] => []
  | cmd :: rest =>
      if cmd =? Token.END then []
      else if ((cmd =? Token.FUNC_F1) && negb (is_empty func1))
              || ((cmd =? Token.FUNC_F2) && negb (is_empty func2))
      then cmd :: executed_calls func1 func2 rest
      else executed_calls func1 func2 rest
  end.

(** A token that the loop body hands to the state machine: neither END,
    EMPTY nor an executed call. *)
Definition reaches_machine (func1 func2 : list Z) (cmd : Z) : bool :=
  negb (cmd =? Token.END) && negb (cmd =? Token.EMPTY)
  && negb ((cmd =? Token.FUNC_F1) && negb (is_empty func1))
  && negb ((cmd =? Token.FUNC_F2) && negb (is_empty func2)).

(** The body [body] executes a call of the slot whose call token is
    [token]. *)
Definition calls_slot (func1 func2 body : list Z) (token : Z) : Prop :=
  token ∈ executed_calls func1 func2 body.

(** Neither function body calls itself, directly or through the other. *)
Definition calls_well_founded (func1 func2 : list Z) : Prop :=
  ~ calls_slot func1 func2 func1 Token.FUNC_F1
  /\ ~ calls_slot func1 func2 func2 Token.FUNC_F2
  /\ ~ (calls_slot func1 func2 func1 Token.FUNC_F2
        /\ calls_slot func1 func2 func2 Token.FUNC_F1).

(** The deepest chain of calls that well-founded bodies allow: the main
    sequence, one body, the other body. *)
Definition CALL_DEPTH : nat := 3.

(** Both slots of a roster are active. *)
Definition roster_active (r : Roster) : Prop :=
  active (fst r) = true /\ active (snd r) = true.

(** *** Distance maps as shortest walks *)

(** Equality of positions is decidable ([Position::operator==]). *)
#[global] Instance Position_eq_dec : EqDecision Position.t.
Proof. solve_decision. Defined.

(** The entry of a distance map at a cell. *)
Definition dist_at (dm : DistanceMap) (p : Position.t) : Z :=
  grid_at dm (Position.x p) (Position.y p).

(** The wall layer has no wall at a cell. *)
Definition no_wall (wall_layer : GridMap) (p : Position.t) : Prop :=
  grid_at wall_layer (Position.x p) (Position.y p) = 0.

(** [open_walk wall_layer src k p]: the cell [p] is reached from [src] in [k]
    moves, each in one of the four directions and each onto a cell of the
    board that is not a wall. *)
Inductive open_walk (wall_layer : GridMap) (src : Position.t)
    : nat -> Position.t -> Prop :=
  | open_walk_here : open_walk wall_layer src 0 src
  | open_walk_step k p dir :
      open_walk wall_layer src k p ->
      dir ∈ Direction.all ->
      Position.is_valid (Position.move p dir) = true ->
      no_wall wall_layer (Position.move p dir) ->
      open_walk wall_layer src (S k) (Position.move p dir).

(** No neighbour of [p] on the board is still unvisited. *)
Definition bfs_closed (dm : DistanceMap) (p : Position.t) : Prop :=
  forall dir, dir ∈ Direction.all ->
    Position.is_valid (Position.move p dir) = true ->
    dist_at dm (Position.move p dir) <> 0.

(** What the entry of a cell says about it during a BFS from [src]. *)
Definition bfs_mark (wall_layer : GridMap) (src : Position.t) (dm : DistanceMap)
    (p : Position.t) : Prop :=
  (dist_at dm p = -1 /\ ~ no_wall wall_layer p /\ p <> src)
  \/ (dist_at dm p = 0 /\ no_wall wall_layer p /\ p <> src)
  \/ (dist_at dm p = 1 /\ p = src)
  \/ (2 <= dist_at dm p /\ no_wall wall_layer p /\ p <> src
      /\ exists q dir, Position.is_valid q = true /\ dir ∈ Direction.all
                       /\ p = Position.move q dir
                       /\ dist_at dm q = dist_at dm p - 1).

(** The invariant of the BFS loop at level [h]: the queue holds cells of
    level [h] followed by cells of level [h + 1]; every visited cell outside
    the queue has level at most [h] and no unvisited neighbour; levels of
    visited neighbours differ by at most one. *)
Definition bfs_inv (wall_layer : GridMap) (src : Position.t) (dm : DistanceMap)
    (queue : list Position.t) (h : Z) : Prop :=
  grid_dims dm
  /\ Forall (queued_ok dm) queue
  /\ (forall p, Position.is_valid p = true -> bfs_mark wall_layer src dm p)
  /\ (forall p, Position.is_valid p = true -> 1 <= dist_at dm p ->
        p ∈ queue \/ bfs_closed dm p)
  /\ (exists A B, queue = A ++ B
        /\ Forall (fun c => dist_at dm c = h) A
        /\ Forall (fun c => dist_at dm c = h + 1) B)
  /\ (forall p, Position.is_valid p = true -> 1 <= dist_at dm p ->
        p ∉ queue -> dist_at dm p <= h)
  /\ (forall p, Position.is_valid p = true -> dist_at dm p <= h + 1)
  /\ (forall p dir, Position.is_valid p = true -> dir ∈ Direction.all ->
        Position.is_valid (Position.move p dir) = true ->
        1 <= dist_at dm p -> 1 <= dist_at dm (Position.move p dir) ->
        dist_at dm (Position.move p dir) <= dist_at dm p + 1)
  /\ (forall p, Position.is_valid p = true ->
        dist_at dm p <= 121 - Z.of_nat (count_zero dm)).

(** What the finished map of a BFS from [src] says. *)
Definition bfs_final (wall_layer : GridMap) (src : Position.t) (dm : DistanceMap)
    : Prop :=
  grid_dims dm
  /\ (forall p, Position.is_valid p = true -> bfs_mark wall_layer src dm p)
  /\ (forall p, Position.is_valid p = true -> 1 <= dist_at dm p -> bfs_closed dm p)
  /\ (forall p dir, Position.is_valid p = true -> dir ∈ Direction.all ->
        Position.is_valid (Position.move p dir) = true ->
        1 <= dist_at dm p -> 1 <= dist_at dm (Position.move p dir) ->
        dist_at dm (Position.move p dir) <= dist_at dm p + 1)
  /\ (forall p, Position.is_valid p = true -> dist_at dm p <= 121).

(** *** Replaying the actions of the mouse *)

(** The actions [acts] replayed from cell [p] against the stored wall layer,
    the first of them having index [idx]: the cell reached and the indices of
    the blocked attempts. *)
Fixpoint replay `{RandomEngine} (s : Simulator) (acts : list Z) (p : Position.t)
    (idx : Z) : Position.t * gset Z :=
  match acts with
  | [] => (p, ∅)
  | a :: rest =>
      if movable s p a then replay s rest (move_pos p a) (idx + 1)
      else ((replay s rest p (idx + 1)).1, {[idx]} ∪ (replay s rest p (idx + 1)).2)
  end.

(** [e'] continues [e]: direction tokens were appended to the actions, the
    index advanced by their number, and the mouse and the wall-collision set
    are what replaying the appended actions gives. *)
Definition continues `{RandomEngine} (s : Simulator) (e e' : Exec) : Prop :=
  exists added,
    actions e' = actions e ++ added
    /\ Forall (fun a => Token.is_direction a = true) added
    /\ action_idx e' = action_idx e + Z.of_nat (length added)
    /\ sim_state e'
       = set_mouse (sim_state e)
                   (replay s added (mouse (sim_state e)) (action_idx e)).1
    /\ wall_collisions e'
       = (replay s added (mouse (sim_state e)) (action_idx e)).2 ∪ wall_collisions e.

(** *** Planned entities *)

(** A planned entity one step later: one action more, and still on the board
    if it was. *)
Definition one_more_planned (v v' : Virtual) : Prop :=
  length (planned v') = S (length (planned v))
  /\ (Position.is_valid (virtual_pos v) = true ->
      Position.is_valid (virtual_pos v') = true).

(** *** What the tick loop may change *)

(** The fields of a state that no tick writes. *)
Definition same_board (st st' : GameState) : Prop :=
  wall st' = wall st /\ junc st' = junc st /\ deadend st' = deadend st
  /\ score st' = score st /\ life st' = life st
  /\ step_limit st' = step_limit st /\ run st' = run st
  /\ func_chance st' = func_chance st /\ red_zone st' = red_zone st
  /\ lose_sign st' = lose_sign st /\ catched st' = catched st.

(** A cell after some moves: the cell it was, or a cell of the board that the
    stored wall layer leaves open. *)
Definition moved_to `{RandomEngine} (s : Simulator) (p p' : Position.t) : Prop :=
  p' = p \/ open_cell (state_ s) p' = true.

(** What the ticks may change of a pursuer: its cell and its last cell. *)
Definition pursuer_step `{RandomEngine} (s : Simulator) (c c' : Entity) : Prop :=
  active c' = active c /\ direction c' = direction c /\ moved_to s (pos c) (pos c').

(** What the ticks may change of a stationary item: it can be collected. *)
Definition stationary_step (b b' : Entity) : Prop :=
  pos b' = pos b /\ last_pos b' = last_pos b /\ direction b' = direction b
  /\ (active b' = true -> active b = true).

(** What the ticks may change of a roaming item: it can move while it is
    active, and it can be collected. *)
Definition roaming_step `{RandomEngine} (s : Simulator) (b b' : Entity) : Prop :=
  last_pos b' = last_pos b /\ direction b' = direction b
  /\ (active b' = true -> active b = true)
  /\ moved_to s (pos b) (pos b')
  /\ (active b = false -> pos b' = pos b).

(** What a run of ticks may change of the scratch state. *)
Definition evolves `{RandomEngine} (s : Simulator) (st st' : GameState) : Prop :=
  same_board st st'
  /\ (forall i j, grid_at (sc st') i j = grid_at (sc st) i j \/ grid_at (sc st') i j = 0)
  /\ (win_sign st = true -> win_sign st' = true)
  /\ moved_to s (mouse st) (mouse st')
  /\ pursuer_step s (fst (cats st)) (fst (cats st'))
  /\ pursuer_step s (snd (cats st)) (snd (cats st'))
  /\ stationary_step (fst (movbc st)) (fst (movbc st'))
  /\ stationary_step (snd (movbc st)) (snd (movbc st'))
  /\ roaming_step s (fst (crzbc st)) (fst (crzbc st'))
  /\ roaming_step s (snd (crzbc st)) (snd (crzbc st'))
  /\ (pos (fst (cats st)) <> pos (snd (cats st)) ->
      pos (fst (cats st')) <> pos (snd (cats st'))).

(** *** One move of the per-tick movers *)

(** The law of [std::uniform_int_distribution]: a draw lies between its
    bounds. *)
Definition draws_in_range `{RandomEngine} : Prop :=
  forall (lo hi : Z) (r : Rng), lo <= hi ->
    lo <= (uniform_int_distribution lo hi r).1 <= hi.

(** An entity after one move of the per-tick AI in state [st]: its last cell
    is the cell it was on, and it is on that cell or on a cell of the board
    without a wall. *)
Definition stepped (st : GameState) (c c' : Entity) : Prop :=
  active c' = active c
  /\ last_pos c' = pos c
  /\ (pos c' = pos c \/ open_cell st (pos c') = true).

(** A slot of a roster after a move function: untouched if inactive, moved
    one step otherwise. *)
Definition slot_moved (st : GameState) (c c' : Entity) : Prop :=
  if active c then stepped st c c' else c' = c.

(** *** Snapshots of typed states *)

(** The values of [int8_t] and of [int16_t]. *)
Definition is_int8 (v : Z) : Prop := -128 <= v < 128.
Definition is_int16 (v : Z) : Prop := -32768 <= v < 32768.

Definition position_typed (p : Position.t) : Prop :=
  is_int8 (Position.x p) /\ is_int8 (Position.y p).

(** A map layer as the C++ type has it: eleven rows of eleven [int8_t]. *)
Definition grid_typed (g : GridMap) : Prop :=
  grid_dims g
  /\ forall i j, 0 <= i < MAP_SIZE -> 0 <= j < MAP_SIZE -> is_int8 (grid_at g i j).

Definition entity_typed (e : Entity) : Prop :=
  position_typed (pos e) /\ position_typed (last_pos e) /\ is_int8 (direction e).

(** Every field of the state holds a value of its C++ type. *)
Definition state_typed (st : GameState) : Prop :=
  grid_typed (wall st) /\ grid_typed (sc st) /\ grid_typed (junc st)
  /\ grid_typed (deadend st)
  /\ position_typed (mouse st) /\ position_typed (mouse_last st)
  /\ Forall entity_typed
       (roster_list (cats st) ++ roster_list (movbc st) ++ roster_list (crzbc st))
  /\ is_int16 (life st) /\ is_int16 (step st) /\ is_int16 (step_limit st)
  /\ is_int16 (run st) /\ is_int8 (func_chance st) /\ is_int8 (red_zone st).

(** What a snapshot keeps of an entity of each roster. *)
Definition reimported_cat (c : Entity) : Entity :=
  mkEntity (pos c) (last_pos c) (direction c) true.
Definition reimported_movbc (b : Entity) : Entity := mkEntity (pos b) (pos b) 0 true.
Definition reimported_crzbc (b : Entity) : Entity :=
  mkEntity (pos b) (pos b) (direction b) true.

(** The state that the export of [st] restores to. *)
Definition reimported (st : GameState) : GameState :=
  {| wall := wall st; sc := sc st; junc := junc st; deadend := deadend st;
     mouse := mouse st; mouse_last := mouse_last st;
     cats := (reimported_cat (fst (cats st)), reimported_cat (snd (cats st)));
     movbc := (reimported_movbc (fst (movbc st)), reimported_movbc (snd (movbc st)));
     crzbc := (reimported_crzbc (fst (crzbc st)), reimported_crzbc (snd (crzbc st)));
     score := score st; life := life st; step := step st;
     step_limit := step_limit st; run := run st;
     func_chance := func_chance st; red_zone := red_zone st;
     win_sign := win_sign st; lose_sign := lose_sign st; catched := catched st |}.

(** The keys that [dict_to_state] reads without asking whether they are
    there. *)
Definition required_keys : list string :=
  ["mouse"; "cat"; "sc"; "wall"; "junc"; "deadend"; "movbc"; "crzbc";
   "score"; "life"; "step"]%string.

(** *** The ticks a run executes *)

(** The runs at the start of the ticks that the loop executes, in order: the
    loop of [ticks], recording its state at the head of every iteration. *)
Fixpoint tick_starts `{RandomEngine} (s : Simulator) (wall_hits : gset Z)
    (command_length : Z) (cat_actions crzbc_actions : list Z * list Z)
    (itr : nat) (todo : list Z) (r : Run) : list Run :=
  match todo with
  | [] => []
  | action :: rest =>
      r :: (if (tick s wall_hits command_length cat_actions crzbc_actions
                     itr action r).2
            then []
            else tick_starts s wall_hits command_length cat_actions crzbc_actions
                             (S itr) rest
                             (tick s wall_hits command_length cat_actions crzbc_actions
                                   itr action r).1)
  end.

(** *** A run without ticks *)


(** * Properties *)

(** ** Integers, positions and grids *)

Lemma to_int8_small v : -128 <= v < 128 -> to_int8 v = v.
Proof.
  intros Hv. unfold to_int8, wrap_signed.
  change (2 ^ (8 - 1)) with 128. change (2 ^ 8) with 256.
  rewrite Z.mod_small; lia.
Qed.

Lemma to_int16_small v : -32768 <= v < 32768 -> to_int16 v = v.
Proof.
  intros Hv. unfold to_int16, wrap_signed.
  change (2 ^ (16 - 1)) with 32768. change (2 ^ 16) with 65536.
  rewrite Z.mod_small; lia.
Qed.

Lemma is_valid_spec p :
  Position.is_valid p = true <->
  0 <= Position.x p < MAP_SIZE /\ 0 <= Position.y p < MAP_SIZE.
Proof. unfold Position.is_valid. rewrite !andb_true_iff. lia. Qed.

Lemma position_eqb_eq p q : Position.eqb p q = true <-> p = q.
Proof.
  destruct p as [px py], q as [qx qy]. unfold Position.eqb. simpl.
  rewrite andb_true_iff, !Z.eqb_eq. split.
  - intros [-> ->]. reflexivity.
  - intros [= -> ->]. split; reflexivity.
Qed.

Lemma elem_of_indices i : i ∈ indices <-> 0 <= i < MAP_SIZE.
Proof. unfold indices. rewrite elem_of_seqZ. lia. Qed.

Lemma elem_of_cells i j : (i, j) ∈ cells <-> 0 <= i < MAP_SIZE /\ 0 <= j < MAP_SIZE.
Proof.
  unfold cells. rewrite list_elem_of_bind. split.
  - intros (i' & Hin & Hi'). apply list_elem_of_bind in Hin as (j' & Hin & Hj').
    apply list_elem_of_singleton in Hin as [= -> ->].
    split; apply elem_of_indices; assumption.
  - intros [Hi Hj]. exists i. split; [| apply elem_of_indices; assumption].
    apply list_elem_of_bind. exists j. split; [| apply elem_of_indices; assumption].
    apply list_elem_of_singleton. reflexivity.
Qed.

Lemma NoDup_cells : NoDup cells.
Proof. apply (bool_decide_unpack _). vm_compute. exact I. Qed.

Lemma length_cells : length cells = 121%nat.
Proof. reflexivity. Qed.

Lemma grid_at_set_other g i j v i' j' :
  (i, j) <> (i', j') -> grid_at (grid_set g i j v) i' j' = grid_at g i' j'.
Proof.
  intros Hne. unfold grid_at, grid_set.
  destruct ((i' <? 0) || (j' <? 0)) eqn:Hneg'; [reflexivity |].
  destruct ((i <? 0) || (j <? 0)) eqn:Hneg; [reflexivity |].
  apply orb_false_iff in Hneg' as [Hi' Hj'], Hneg as [Hi Hj].
  apply Z.ltb_ge in Hi', Hj', Hi, Hj.
  destruct (decide (i = i')) as [<- | Hii].
  - rewrite list_lookup_alter_eq. destruct (g !! Z.to_nat i) as [row |]; simpl; [| reflexivity].
    rewrite list_lookup_insert_ne; [reflexivity |].
    intros Heq. apply Hne. f_equal. lia.
  - rewrite list_lookup_alter_ne; [reflexivity | lia].
Qed.

Lemma grid_at_set_same g i j v :
  grid_dims g -> 0 <= i < MAP_SIZE -> 0 <= j < MAP_SIZE ->
  grid_at (grid_set g i j v) i j = v.
Proof.
  intros [Hlen Hrows] Hi Hj. unfold grid_at, grid_set.
  replace ((i <? 0) || (j <? 0)) with false by (symmetry; apply orb_false_iff; lia).
  rewrite list_lookup_alter_eq.
  destruct (g !! Z.to_nat i) as [row |] eqn:Hrow; simpl.
  - rewrite list_lookup_insert_eq; [reflexivity |].
    rewrite Forall_forall in Hrows. rewrite (Hrows row).
    + unfold MAP_SIZE in *. lia.
    + eapply list_elem_of_lookup_2. eassumption.
  - apply lookup_ge_None in Hrow. unfold MAP_SIZE in *. lia.
Qed.

Lemma grid_dims_set g i j v : grid_dims g -> grid_dims (grid_set g i j v).
Proof.
  intros [Hlen Hrows]. unfold grid_set.
  destruct ((i <? 0) || (j <? 0)); [split; assumption |].
  split.
  - rewrite length_alter. assumption.
  - rewrite Forall_forall in *. intros row Hin.
    apply list_elem_of_lookup in Hin as [k Hk].
    destruct (decide (Z.to_nat i = k)) as [<- | Hne].
    + rewrite list_lookup_alter_eq in Hk.
      destruct (g !! Z.to_nat i) as [row0 |] eqn:Hrow0; simpl in Hk; [| discriminate].
      injection Hk as <-. rewrite length_insert. apply Hrows.
      eapply list_elem_of_lookup_2. eassumption.
    + rewrite list_lookup_alter_ne in Hk by assumption.
      apply Hrows. eapply list_elem_of_lookup_2. eassumption.
Qed.

Lemma grid_dims_init f : grid_dims (grid_init f).
Proof.
  unfold grid_dims, grid_init. split.
  - rewrite length_fmap. reflexivity.
  - apply Forall_forall. intros row Hin.
    apply list_elem_of_fmap in Hin as (i & -> & _).
    rewrite length_fmap. reflexivity.
Qed.

Lemma grid_at_init f i j :
  0 <= i < MAP_SIZE -> 0 <= j < MAP_SIZE -> grid_at (grid_init f) i j = f i j.
Proof.
  intros Hi Hj. unfold grid_at, grid_init.
  replace ((i <? 0) || (j <? 0)) with false by (symmetry; apply orb_false_iff; lia).
  unfold indices, MAP_SIZE in *.
  rewrite list_lookup_fmap. rewrite lookup_seqZ_lt by lia.
  cbn [fmap option_fmap option_map].
  rewrite list_lookup_fmap. rewrite lookup_seqZ_lt by lia.
  cbn [fmap option_fmap option_map default from_option id].
  f_equal; lia.
Qed.

(** ** The breadth-first search *)

Lemma filter_agree_length {A} (P Q : A -> Prop)
    `{!forall x, Decision (P x)} `{!forall x, Decision (Q x)} (l : list A) :
  (forall b, b ∈ l -> (P b <-> Q b)) -> length (filter Q l) = length (filter P l).
Proof.
  induction l as [| b l IH]; intros Hiff; [reflexivity |].
  assert (Hb : P b <-> Q b) by (apply Hiff; left).
  assert (Hl : length (filter Q l) = length (filter P l)).
  { apply IH. intros c Hc. apply Hiff. right. assumption. }
  destruct (decide (P b)) as [HP | HP].
  - rewrite (filter_cons_True P), (filter_cons_True Q) by tauto. simpl. lia.
  - rewrite (filter_cons_False P), (filter_cons_False Q) by tauto. assumption.
Qed.

Lemma filter_flip_length {A} (P Q : A -> Prop)
    `{!forall x, Decision (P x)} `{!forall x, Decision (Q x)} (l : list A) a :
  NoDup l -> a ∈ l -> P a -> ~ Q a -> (forall b, b <> a -> (P b <-> Q b)) ->
  (length (filter Q l) + 1 = length (filter P l))%nat.
Proof.
  intros Hnd Hin HPa HQa Hiff. induction l as [| b l IH]; [inversion Hin |].
  apply NoDup_cons in Hnd as [Hnotin Hnd].
  apply elem_of_cons in Hin as [-> | Hin].
  - rewrite (filter_cons_True P), (filter_cons_False Q) by assumption. simpl.
    rewrite (filter_agree_length P Q); [lia |].
    intros c Hc. apply Hiff. intros ->. contradiction.
  - assert (Hne : b <> a) by (intros ->; contradiction).
    specialize (IH Hnd Hin). specialize (Hiff b Hne).
    destruct (decide (P b)) as [HP | HP].
    + rewrite (filter_cons_True P), (filter_cons_True Q) by tauto. simpl. lia.
    + rewrite (filter_cons_False P), (filter_cons_False Q) by tauto. assumption.
Qed.

Lemma count_zero_le g : (count_zero g <= 121)%nat.
Proof. unfold count_zero. rewrite <- length_cells. apply length_filter. Qed.

Lemma count_zero_set g i j v :
  grid_dims g -> 0 <= i < MAP_SIZE -> 0 <= j < MAP_SIZE ->
  grid_at g i j = 0 -> v <> 0 ->
  (count_zero (grid_set g i j v) + 1 = count_zero g)%nat.
Proof.
  intros Hdims Hi Hj Hzero Hv. unfold count_zero.
  apply (filter_flip_length (fun c => grid_at g c.1 c.2 = 0)
           (fun c => grid_at (grid_set g i j v) c.1 c.2 = 0) cells (i, j)).
  - apply NoDup_cells.
  - apply elem_of_cells. split; assumption.
  - assumption.
  - simpl. rewrite grid_at_set_same by assumption. assumption.
  - intros [i' j'] Hne. simpl. rewrite grid_at_set_other; [tauto |].
    intros Heq. apply Hne. symmetry. assumption.
Qed.

Lemma count_zero_seeded g i j v :
  grid_dims g -> 0 <= i < MAP_SIZE -> 0 <= j < MAP_SIZE -> v <> 0 ->
  (count_zero (grid_set g i j v) <= 120)%nat.
Proof.
  intros Hdims Hi Hj Hv. unfold count_zero.
  assert (Hlt : (length (filter (fun c => grid_at (grid_set g i j v) c.1 c.2 = 0%Z) cells)
                 < length cells)%nat).
  { apply (length_filter_lt _ _ (i, j)).
    - apply elem_of_cells. split; assumption.
    - simpl. rewrite grid_at_set_same by assumption. assumption. }
  rewrite length_cells in Hlt. lia.
Qed.

(** One scan of the four directions keeps the loop invariant, enqueues as
    many cells as it takes out of the zero cells, and never writes to a cell
    that already holds a value. *)
Lemma bfs_scan_invariant dirs : forall dist_map queue curr curr_dist dist_map' queue',
  grid_dims dist_map ->
  Forall (queued_ok dist_map) queue ->
  1 <= curr_dist <= 122 - Z.of_nat (count_zero dist_map) ->
  bfs_scan dist_map queue curr curr_dist dirs = (dist_map', queue') ->
  grid_dims dist_map'
  /\ Forall (queued_ok dist_map') queue'
  /\ (length queue' + count_zero dist_map' = length queue + count_zero dist_map)%nat
  /\ (forall i j, grid_at dist_map i j <> 0 -> grid_at dist_map' i j = grid_at dist_map i j).
Proof.
  induction dirs as [| dir dirs IH];
    intros dist_map queue curr curr_dist dm_end q_end Hdims Hq Hc Hscan.
  - simpl in Hscan. injection Hscan as <- <-.
    exact (conj Hdims (conj Hq (conj eq_refl (fun _ _ _ => eq_refl)))).
  - revert Hscan. cbn [bfs_scan].
    destruct (Position.is_valid (Position.move curr dir)
              && (grid_at dist_map (Position.x (Position.move curr dir))
                          (Position.y (Position.move curr dir)) =? 0)) eqn:Hvisit;
      intros Hscan.
    + apply andb_true_iff in Hvisit as [Hvalid Hzero]. apply Z.eqb_eq in Hzero.
      set (next := Position.move curr dir) in *.
      pose proof (proj1 (is_valid_spec next) Hvalid) as [Hx Hy].
      pose proof (count_zero_le dist_map) as Hle.
      assert (Hnew : to_int16 (curr_dist + 1) = curr_dist + 1)
        by (apply to_int16_small; lia).
      rewrite Hnew in Hscan.
      pose proof (count_zero_set dist_map (Position.x next) (Position.y next)
                    (curr_dist + 1) Hdims Hx Hy Hzero ltac:(lia)) as Hcount.
      pose proof (grid_at_set_same dist_map (Position.x next) (Position.y next)
                    (curr_dist + 1) Hdims Hx Hy) as Hsame.
      set (dist_map' := grid_set dist_map (Position.x next) (Position.y next)
                                 (curr_dist + 1)) in *.
      assert (Hother : forall i j, grid_at dist_map i j <> 0 ->
                                   grid_at dist_map' i j = grid_at dist_map i j).
      { intros i j Hij. apply grid_at_set_other. intros Heq.
        injection Heq as Hxi Hyj. subst i j. contradiction. }
      assert (Hdims' : grid_dims dist_map') by (apply grid_dims_set; assumption).
      assert (Hq' : Forall (queued_ok dist_map') (queue ++ [next])).
      { apply Forall_app. split.
        - eapply Forall_impl; [exact Hq |]. intros p [Hp Hval]. split; [assumption |].
          rewrite Hother by lia. lia.
        - apply Forall_singleton. split; [assumption |].
          rewrite Hsame. lia. }
      destruct (IH dist_map' (queue ++ [next]) curr curr_dist dm_end q_end
                   Hdims' Hq' ltac:(lia) Hscan) as (Hd & Hf & Hlen & Hkeep).
      split; [assumption |]. split; [assumption |]. split.
      * rewrite Hlen, length_app. simpl. lia.
      * intros i j Hij. rewrite Hkeep; [apply Hother; assumption |].
        rewrite Hother; assumption.
    + eapply IH; eassumption.
Qed.

(** The loop returns a map whenever the fuel covers the queued cells and the
    cells still to be reached; cells that held a value keep it. *)
Lemma bfs_loop_total fuel : forall dist_map queue,
  grid_dims dist_map ->
  Forall (queued_ok dist_map) queue ->
  (length queue + count_zero dist_map <= fuel)%nat ->
  exists result,
    bfs_loop fuel dist_map queue = Some result
    /\ grid_dims result
    /\ (forall i j, grid_at dist_map i j <> 0 -> grid_at result i j = grid_at dist_map i j).
Proof.
  induction fuel as [| fuel IH]; intros dist_map queue Hdims Hq Hfuel.
  - destruct queue; [| simpl in Hfuel; lia].
    exists dist_map. simpl. auto.
  - destruct queue as [| curr queue]; [exists dist_map; simpl; auto |].
    apply Forall_cons in Hq as [[Hvalid Hcurr] Hq].
    cbn [bfs_loop].
    destruct (bfs_scan dist_map queue curr
                (grid_at dist_map (Position.x curr) (Position.y curr)) Direction.all)
      as [dist_map' queue'] eqn:Hscan.
    destruct (bfs_scan_invariant _ _ _ _ _ _ _ Hdims Hq Hcurr Hscan)
      as (Hd & Hf & Hlen & Hkeep).
    destruct (IH dist_map' queue' Hd Hf) as (result & Hrun & Hdr & Hkeep').
    { simpl in Hfuel. lia. }
    exists result. split; [assumption |]. split; [assumption |].
    intros i j Hij. rewrite Hkeep'; [apply Hkeep; assumption |].
    rewrite Hkeep; assumption.
Qed.

(** The seeded map of a BFS from a cell of the board. *)
Lemma bfs_seed_ready (wall_layer : GridMap) (target : Position.t) :
  Position.is_valid target = true ->
  let seeded :=
    grid_set (grid_init (fun i j => if grid_at wall_layer i j =? 0 then 0 else -1))
             (Position.x target) (Position.y target) 1 in
  grid_dims seeded
  /\ Forall (queued_ok seeded) [target]
  /\ (length [target] + count_zero seeded <= BFS_FUEL)%nat.
Proof.
  intros Hvalid seeded.
  pose proof (proj1 (is_valid_spec target) Hvalid) as [Hx Hy].
  assert (Hdims : grid_dims seeded) by (apply grid_dims_set, grid_dims_init).
  assert (Hcount : (count_zero seeded <= 120)%nat).
  { apply count_zero_seeded; [apply grid_dims_init | assumption | assumption | lia]. }
  split; [assumption |]. split.
  - apply Forall_singleton. split; [assumption |].
    assert (Hval : grid_at seeded (Position.x target) (Position.y target) = 1)
      by (apply grid_at_set_same; [apply grid_dims_init | assumption | assumption]).
    rewrite Hval. lia.
  - simpl. change BFS_FUEL with 121%nat. lia.
Qed.

Lemma bfs_from_seed (wall_layer : GridMap) (target : Position.t) :
  Position.is_valid target = true ->
  exists dm,
    bfs_loop BFS_FUEL
      (grid_set (grid_init (fun i j => if grid_at wall_layer i j =? 0 then 0 else -1))
                (Position.x target) (Position.y target) 1)
      [target] = Some dm
    /\ source_one_walls_sentinel wall_layer target dm.
Proof.
  intros Hvalid.
  destruct (bfs_seed_ready wall_layer target Hvalid) as (Hdims & Hq & Hfuel).
  destruct (bfs_loop_total _ _ _ Hdims Hq Hfuel) as (dm & Hrun & _ & Hkeep).
  pose proof (proj1 (is_valid_spec target) Hvalid) as [Hx Hy].
  assert (Hseed : grid_at
            (grid_set (grid_init (fun i j => if grid_at wall_layer i j =? 0 then 0 else -1))
                      (Position.x target) (Position.y target) 1)
            (Position.x target) (Position.y target) = 1)
    by (apply grid_at_set_same; [apply grid_dims_init | assumption | assumption]).
  exists dm. split; [exact Hrun |]. split.
  - rewrite Hkeep; [exact Hseed |]. rewrite Hseed. discriminate.
  - intros i j Hi Hj Hne Hwall.
    assert (Hinit : grid_at
              (grid_set (grid_init (fun i j => if grid_at wall_layer i j =? 0 then 0 else -1))
                        (Position.x target) (Position.y target) 1) i j = -1).
    { rewrite grid_at_set_other by (intros Heq; apply Hne; symmetry; exact Heq).
      rewrite grid_at_init by assumption.
      destruct (grid_at wall_layer i j =? 0) eqn:Hz; [| reflexivity].
      apply Z.eqb_eq in Hz. contradiction. }
    rewrite Hkeep; [exact Hinit |]. rewrite Hinit. discriminate.
Qed.

Lemma compute_distance_map_total (wall_layer : GridMap) (row col : Z) :
  0 <= row < MAP_SIZE -> 0 <= col < MAP_SIZE ->
  exists dm,
    compute_distance_map wall_layer row col = Some dm
    /\ source_one_walls_sentinel wall_layer (Position.mk row col) dm.
Proof.
  intros Hrow Hcol. unfold compute_distance_map.
  rewrite !to_int8_small by (unfold MAP_SIZE in *; lia).
  apply (bfs_from_seed wall_layer (Position.mk row col)).
  apply is_valid_spec. simpl. split; assumption.
Qed.

(** The uncached branch of [create_distance_map] is the computation that
    fills the cache. *)
Lemma create_distance_map_uncached `{RandomEngine} (g : Globals) (s : Simulator)
    (target : Position.t) :
  global_cache_enabled_ g && initialized_ (instance g) = false ->
  Position.is_valid target = true ->
  create_distance_map g s target
  = compute_distance_map (wall (state_ s)) (Position.x target) (Position.y target).
Proof.
  intros Hoff Hvalid. unfold create_distance_map, compute_distance_map. rewrite Hoff.
  pose proof (proj1 (is_valid_spec target) Hvalid) as [Hx Hy].
  rewrite !to_int8_small by (unfold MAP_SIZE in *; lia).
  destruct target; reflexivity.
Qed.

Lemma cache_initialize_lookup (wall_layer : GridMap) (row col : Z) :
  0 <= row < MAP_SIZE -> 0 <= col < MAP_SIZE ->
  exists c,
    GlobalDistanceCache_initialize wall_layer = Some c
    /\ initialized_ c = true
    /\ GlobalDistanceCache_get c row col = compute_distance_map wall_layer row col.
Proof.
  intros Hrow Hcol. unfold GlobalDistanceCache_initialize.
  set (f := fun p => compute_distance_map wall_layer (p / MAP_SIZE) (p mod MAP_SIZE)).
  assert (Hall : is_Some (mapM f (seqZ 0 (MAP_SIZE * MAP_SIZE)))).
  { apply mapM_is_Some_2, Forall_forall. intros p Hp.
    apply elem_of_seqZ in Hp. unfold MAP_SIZE in *.
    destruct (compute_distance_map_total wall_layer (p / 11) (p mod 11)) as (dm & Hdm & _).
    - unfold MAP_SIZE.
      split; [apply Z.div_pos; lia | apply Z.div_lt_upper_bound; lia].
    - unfold MAP_SIZE. apply Z.mod_pos_bound. lia.
    - exists dm. exact Hdm. }
  destruct Hall as [maps Hmaps]. rewrite Hmaps. simpl.
  exists (mkCache maps true). split; [reflexivity |]. split; [reflexivity |].
  unfold GlobalDistanceCache_get. simpl.
  replace (row * MAP_SIZE + col <? 0) with false
    by (symmetry; apply Z.ltb_ge; unfold MAP_SIZE in *; lia).
  apply mapM_Some_1 in Hmaps.
  assert (Hidx : seqZ 0 (MAP_SIZE * MAP_SIZE) !! Z.to_nat (row * MAP_SIZE + col)
                 = Some (row * MAP_SIZE + col)).
  { rewrite lookup_seqZ_lt by (unfold MAP_SIZE in *; lia). f_equal. unfold MAP_SIZE in *. lia. }
  destruct (Forall2_lookup_l _ _ _ _ _ Hmaps Hidx) as (dm & Hdm & Hf).
  rewrite Hdm, <- Hf. unfold f. f_equal; unfold MAP_SIZE in *.
  - symmetry. apply Z.div_unique with col; lia.
  - symmetry. apply Z.mod_unique with row; lia.
Qed.

(** C1. Once [initialize_cache] has filled the global cache from a wall layer
    and enabled it, [create_distance_map] answers, for every target cell of
    the board and every simulator whose stored state has that wall layer, the
    very map that its uncached branch computes. *)
Theorem cached_distance_map_equals_direct `{RandomEngine}
    (s s' : Simulator) (g0 g_off : Globals) (target : Position.t) :
  Position.is_valid target = true ->
  wall (state_ s') = wall (state_ s) ->
  global_cache_enabled_ g_off && initialized_ (instance g_off) = false ->
  exists g dm,
    initialize_cache s g0 = Some g
    /\ create_distance_map g s' target = Some dm
    /\ create_distance_map g_off s' target = Some dm.
Proof.
  intros Hvalid Hwall Hoff.
  pose proof (proj1 (is_valid_spec target) Hvalid) as [Hx Hy].
  destruct (cache_initialize_lookup (wall (state_ s)) _ _ Hx Hy) as (c & Hc & Hinit & Hget).
  destruct (compute_distance_map_total (wall (state_ s)) _ _ Hx Hy) as (dm & Hdm & _).
  exists (mkGlobals true c), dm. split; [| split].
  - unfold initialize_cache. rewrite Hc. reflexivity.
  - unfold create_distance_map. simpl. rewrite Hinit. simpl.
    rewrite Hget. exact Hdm.
  - rewrite create_distance_map_uncached, Hwall by assumption. exact Hdm.
Qed.

(** C8, corrected. Every BFS from a source cell of the board returns a map
    in which the source holds 1 and every wall cell other than the source
    holds -1; this holds for the computation that fills the cache, for each
    of the maps the filled cache hands out, and for the on-demand
    computation. *)
Theorem distance_map_source_and_walls `{RandomEngine} :
  (forall (wall_layer : GridMap) (row col : Z),
      0 <= row < MAP_SIZE -> 0 <= col < MAP_SIZE ->
      exists dm, compute_distance_map wall_layer row col = Some dm
                 /\ source_one_walls_sentinel wall_layer (Position.mk row col) dm)
  /\ (forall (wall_layer : GridMap) (row col : Z),
         0 <= row < MAP_SIZE -> 0 <= col < MAP_SIZE ->
         exists c dm, GlobalDistanceCache_initialize wall_layer = Some c
                      /\ GlobalDistanceCache_get c row col = Some dm
                      /\ source_one_walls_sentinel wall_layer (Position.mk row col) dm)
  /\ (forall (g : Globals) (s : Simulator) (target : Position.t),
         global_cache_enabled_ g && initialized_ (instance g) = false ->
         Position.is_valid target = true ->
         exists dm, create_distance_map g s target = Some dm
                    /\ source_one_walls_sentinel (wall (state_ s)) target dm).
Proof.
  split; [apply compute_distance_map_total |]. split.
  - intros wall_layer row col Hrow Hcol.
    destruct (cache_initialize_lookup wall_layer row col Hrow Hcol) as (c & Hc & _ & Hget).
    destruct (compute_distance_map_total wall_layer row col Hrow Hcol) as (dm & Hdm & Hok).
    exists c, dm. split; [exact Hc |]. split; [rewrite Hget; exact Hdm | exact Hok].
  - intros g s target Hoff Hvalid.
    rewrite create_distance_map_uncached by assumption.
    pose proof (proj1 (is_valid_spec target) Hvalid) as [Hx Hy].
    destruct target as [tx ty]. apply compute_distance_map_total; assumption.
Qed.

(** ** The parsing pass *)

Lemma slot_func_lib token : Token.is_func_lib token = true -> slot token = Some token.
Proof.
  unfold Token.is_func_lib, Token.FUNC_LIB_START, slot. intros Hlib.
  apply andb_true_iff in Hlib as [Hlo _]. apply Z.leb_le in Hlo.
  destruct (token <? 0) eqn:Hneg; [apply Z.ltb_lt in Hneg; lia | reflexivity].
Qed.

Lemma slot_negative id : (id <? 0) = true -> slot id = None.
Proof. unfold slot. intros ->. reflexivity. Qed.

Lemma slot_bound id : (id <? 0) = false -> slot id = Some id.
Proof. unfold slot. intros ->. reflexivity. Qed.

(** The loop of [parse_program], started in any state in which slot 2 is
    bound only if slot 1 is, completes the bindings from the tokens that
    remain and rewrites those tokens accordingly. *)
Lemma parse_loop_spec (resolve : Z -> list Z) (program : list Z) :
  forall l : ParseLocals,
    (slot (first_func_id l) = None -> slot (second_func_id l) = None) ->
    let first :=
      match slot (first_func_id l) with
      | Some f => Some f
      | None => head (lib_ids program)
      end in
    let second :=
      match slot (second_func_id l) with
      | Some f => Some f
      | None =>
          match first with
          | Some f => head (filter (fun token => token <> f) (lib_ids program))
          | None => None
          end
      end in
    parse_loop resolve program l
    = mkParsed (main_cmd (result l) ++ (scanned program ≫= rewrite_token first second))
               (match slot (first_func_id l) with
                | Some _ => func1 (result l)
                | None => from_option resolve (func1 (result l)) first
                end)
               (match slot (second_func_id l) with
                | Some _ => func2 (result l)
                | None => from_option resolve (func2 (result l)) second
                end).
Proof.
  induction program as [| token rest IH]; intros l Hslots; cbv zeta.
  - simpl. rewrite app_nil_r.
    destruct (slot (first_func_id l)), (slot (second_func_id l)), (result l); reflexivity.
  - cbn [parse_loop]. unfold lib_ids. cbn [scanned].
    destruct (token =? Token.END) eqn:Hend.
    { simpl. rewrite app_nil_r.
      destruct (slot (first_func_id l)), (slot (second_func_id l)), (result l); reflexivity. }
    destruct (token =? Token.EMPTY) eqn:Hempty.
    { rewrite IH by assumption. reflexivity. }
    destruct (Token.is_func_lib token) eqn:Hlib.
    + rewrite filter_cons_True by assumption. cbn [head].
      pose proof (slot_func_lib token Hlib) as Htoken.
      destruct (first_func_id l <? 0) eqn:Hfirst.
      * (* the first id: slot 1 is bound to it *)
        rewrite (slot_negative _ Hfirst) in *. rewrite (Hslots eq_refl).
        rewrite IH by (simpl; rewrite Htoken; discriminate).
        cbn [first_func_id second_func_id result main_cmd func1 func2].
        rewrite Htoken, (Hslots eq_refl). cbn [from_option].
        rewrite filter_cons_False by (intros Hne; apply Hne; reflexivity).
        cbn [mbind list_bind]. unfold rewrite_token at 2. rewrite Hlib.
        rewrite decide_True by reflexivity.
        rewrite <- app_assoc. reflexivity.
      * rewrite (slot_bound _ Hfirst) in *.
        destruct (token =? first_func_id l) eqn:Hsame.
        -- (* slot 1 again *)
           apply Z.eqb_eq in Hsame. subst token.
           rewrite IH by (simpl; rewrite slot_bound by assumption; discriminate).
           cbn [first_func_id second_func_id result main_cmd func1 func2 push_main].
           rewrite (slot_bound _ Hfirst).
           rewrite filter_cons_False by (intros Hne; apply Hne; reflexivity).
           cbn [mbind list_bind]. unfold rewrite_token at 2. rewrite Hlib.
           rewrite decide_True by reflexivity.
           rewrite <- app_assoc. reflexivity.
        -- apply Z.eqb_neq in Hsame.
           rewrite filter_cons_True by assumption. cbn [head].
           destruct (second_func_id l <? 0) eqn:Hsecond.
           ++ (* the next different id: slot 2 is bound to it *)
              rewrite (slot_negative _ Hsecond).
              rewrite IH by (simpl; rewrite slot_bound by assumption; discriminate).
              cbn [first_func_id second_func_id result main_cmd func1 func2].
              rewrite (slot_bound _ Hfirst), Htoken. cbn [from_option].
              cbn [mbind list_bind]. unfold rewrite_token at 2. rewrite Hlib.
              rewrite decide_False by (intros [= Heq]; apply Hsame; symmetry; exact Heq).
              rewrite decide_True by reflexivity.
              rewrite <- app_assoc. reflexivity.
           ++ rewrite (slot_bound _ Hsecond).
              destruct (token =? second_func_id l) eqn:Hsame2.
              ** (* slot 2 again *)
                 apply Z.eqb_eq in Hsame2.
                 rewrite IH by (simpl; rewrite slot_bound by assumption; discriminate).
                 cbn [first_func_id second_func_id result main_cmd func1 func2 push_main].
                 rewrite (slot_bound _ Hfirst), (slot_bound _ Hsecond).
                 cbn [mbind list_bind]. unfold rewrite_token at 2. rewrite Hlib.
                 rewrite decide_False by (intros [= Heq]; apply Hsame; symmetry; exact Heq).
                 rewrite decide_True by (f_equal; symmetry; exact Hsame2).
                 rewrite <- app_assoc. reflexivity.
              ** (* a third id: dropped *)
                 apply Z.eqb_neq in Hsame2.
                 rewrite IH by (rewrite slot_bound by assumption; discriminate).
                 rewrite (slot_bound _ Hfirst), (slot_bound _ Hsecond).
                 cbn [mbind list_bind]. unfold rewrite_token at 2. rewrite Hlib.
                 rewrite decide_False by (intros [= Heq]; apply Hsame; symmetry; exact Heq).
                 rewrite decide_False by (intros [= Heq]; apply Hsame2; symmetry; exact Heq).
                 reflexivity.
    + (* any other token passes through *)
      rewrite filter_cons_False by (rewrite Hlib; discriminate).
      rewrite IH by assumption.
      cbn [first_func_id second_func_id result main_cmd func1 func2 push_main].
      cbn [mbind list_bind]. unfold rewrite_token at 2. rewrite Hlib.
      rewrite <- app_assoc. reflexivity.
Qed.

Lemma parse_program_spec `{RandomEngine} (s : Simulator) (program : list Z) :
  parse_program s program = parse_spec (func_lib_ s) program.
Proof.
  unfold parse_program. rewrite parse_loop_spec by reflexivity.
  reflexivity.
Qed.

Lemma scanned_without token program :
  Token.is_func_lib token = true ->
  scanned (filter (fun t => t <> token) program)
  = filter (fun t => t <> token) (scanned program).
Proof.
  intros Hlib. induction program as [| t rest IH]; [reflexivity |].
  destruct (decide (t = token)) as [-> | Hne].
  - rewrite filter_cons_False by (intros Hne; apply Hne; reflexivity).
    cbn [scanned].
    replace (token =? Token.END) with false
      by (symmetry; apply Z.eqb_neq; intros ->; discriminate).
    replace (token =? Token.EMPTY) with false
      by (symmetry; apply Z.eqb_neq; intros ->; discriminate).
    rewrite filter_cons_False by (intros Hne; apply Hne; reflexivity).
    exact IH.
  - rewrite filter_cons_True by assumption. cbn [scanned].
    destruct (t =? Token.END); [reflexivity |].
    destruct (t =? Token.EMPTY); [exact IH |].
    rewrite filter_cons_True by assumption. rewrite IH. reflexivity.
Qed.

Lemma head_filter_without (Q : Z -> Prop) `{!forall t, Decision (Q t)} token (l : list Z) :
  head (filter Q l) <> Some token ->
  head (filter Q (filter (fun t => t <> token) l)) = head (filter Q l).
Proof.
  induction l as [| t rest IH]; intros Hhead; [reflexivity |].
  destruct (decide (Q t)) as [HQ | HQ].
  - rewrite (filter_cons_True Q t rest) in * by assumption. simpl in Hhead.
    rewrite filter_cons_True by (intros ->; apply Hhead; reflexivity).
    rewrite filter_cons_True by assumption. reflexivity.
  - rewrite (filter_cons_False Q t rest) in * by assumption.
    destruct (decide (t = token)) as [-> | Hne].
    + rewrite filter_cons_False by (intros Hne; apply Hne; reflexivity).
      apply IH. assumption.
    + rewrite filter_cons_True by assumption.
      rewrite filter_cons_False by assumption. apply IH. assumption.
Qed.

Lemma bind_without (f : Z -> list Z) token (l : list Z) :
  f token = [] ->
  filter (fun t => t <> token) l ≫= f = l ≫= f.
Proof.
  intros Hdrop. induction l as [| t rest IH]; [reflexivity |].
  destruct (decide (t = token)) as [-> | Hne].
  - rewrite filter_cons_False by (intros Hne; apply Hne; reflexivity).
    cbn [mbind list_bind]. rewrite Hdrop. exact IH.
  - rewrite filter_cons_True by assumption.
    cbn [mbind list_bind]. f_equal. exact IH.
Qed.

(** Deleting every occurrence of a dropped id changes neither binding. *)
Lemma bounds_without program token :
  dropped_id program token ->
  first_bound (filter (fun t => t <> token) program) = first_bound program
  /\ second_bound (filter (fun t => t <> token) program) = second_bound program.
Proof.
  intros (Hlib & Hfirst & Hsecond).
  assert (Hf : first_bound (filter (fun t => t <> token) program) = first_bound program).
  { unfold first_bound, lib_ids in *. rewrite scanned_without by assumption.
    apply head_filter_without. assumption. }
  split; [exact Hf |].
  unfold second_bound in *. rewrite Hf.
  destruct (first_bound program) as [f |]; [| reflexivity].
  unfold lib_ids in *. rewrite scanned_without by assumption.
  rewrite (list_filter_filter _ _ (filter _ (scanned program))).
  rewrite (list_filter_filter _ (fun t => Token.is_func_lib t = true)
             (scanned program)) in Hsecond.
  rewrite (list_filter_filter _ (fun t => Token.is_func_lib t = true)
             (scanned program)).
  apply head_filter_without. assumption.
Qed.

(** C6. [parse_program] binds the first library id met before the end
    sentinel to call slot 1 and the next different id to call slot 2,
    resolving their bodies through the library; it rewrites every occurrence
    of a bound id to the call token of its slot, drops every other library id
    and passes every other token (fillers apart, which the scan skips)
    through unchanged.  At most two ids are bound, and deleting the
    occurrences of a dropped id from the program leaves the result as it
    is. *)
Theorem parse_program_binds_two_slots `{RandomEngine} (s : Simulator) (program : list Z) :
  parse_program s program = parse_spec (func_lib_ s) program
  /\ forall token,
       dropped_id program token ->
       parse_program s (filter (fun t => t <> token) program) = parse_program s program.
Proof.
  split; [apply parse_program_spec |].
  intros token Hdropped. rewrite !parse_program_spec. unfold parse_spec.
  destruct (bounds_without program token Hdropped) as [-> ->].
  destruct Hdropped as (Hlib & Hfirst & Hsecond).
  rewrite scanned_without by assumption.
  rewrite bind_without; [reflexivity |].
  unfold rewrite_token. rewrite Hlib.
  rewrite decide_False by assumption. rewrite decide_False by assumption. reflexivity.
Qed.

(** ** The command interpreter: conditional runs *)

Lemma set_mouse_same st : set_mouse st (mouse st) = st.
Proof. destruct st. reflexivity. Qed.

Lemma after_run_zero e d : after_run e d 0 = e.
Proof.
  unfold after_run. simpl. rewrite set_mouse_same, app_nil_r, Z.add_0_r.
  destruct e. reflexivity.
Qed.

Lemma is_direction_cases d :
  Token.is_direction d = true -> d = 0 \/ d = 1 \/ d = 2 \/ d = 3.
Proof. unfold Token.is_direction. rewrite andb_true_iff. lia. Qed.

(** Case analysis on a direction token, with the move vector computed. *)
Ltac direction_cases Hd :=
  destruct (is_direction_cases _ Hd) as [-> | [-> | [-> | ->]]];
  [ change (Direction.DX 0) with (-1) in *; change (Direction.DY 0) with 0 in *
  | change (Direction.DX 1) with 1 in *; change (Direction.DY 1) with 0 in *
  | change (Direction.DX 2) with 0 in *; change (Direction.DY 2) with (-1) in *
  | change (Direction.DX 3) with 0 in *; change (Direction.DY 3) with 1 in * ].

(** A successful move lands on the board, is not clamped, and uses up one
    unit of room. *)
Lemma movable_room `{RandomEngine} (s : Simulator) (p : Position.t) (d : Z) :
  Token.is_direction d = true ->
  movable s p d = true ->
  move_pos p d = Position.move p d
  /\ Position.is_valid (move_pos p d) = true
  /\ (room (move_pos p d) d < room p d)%nat.
Proof.
  intros Hd Hmov. unfold movable, open_cell in Hmov.
  apply andb_true_iff in Hmov as [Hvalid _].
  pose proof (proj1 (is_valid_spec _) Hvalid) as [Hx Hy]. unfold MAP_SIZE in *.
  assert (Hclamp : move_pos p d = Position.move p d).
  { unfold move_pos. change (to_int8 (MAP_SIZE - 1)) with 10.
    destruct (Position.move p d) as [mx my]. simpl in *. f_equal; lia. }
  rewrite Hclamp. split; [reflexivity |]. split; [assumption |].
  unfold room. rewrite Hvalid.
  destruct (Position.is_valid p) eqn:Hp.
  - pose proof (proj1 (is_valid_spec _) Hp) as [Hpx Hpy]. unfold MAP_SIZE in *.
    destruct p as [px py]. unfold Position.move in *. simpl in *.
    direction_cases Hd; rewrite ?to_int8_small in * by lia; simpl; lia.
  - destruct (Position.move p d) as [mx my]. simpl in *.
    destruct (is_direction_cases d Hd) as [-> | [-> | [-> | ->]]]; simpl; lia.
Qed.

(** The conditional run in closed form: with fuel beyond the room left in
    direction [d], [if_run] makes some number [k] of moves; each of them was
    possible and found the junction count short of [remaining]; and it stops
    because the count is reached or because move [k + 1] is blocked. *)
Lemma if_run_spec `{RandomEngine} (s : Simulator) (d : Z) :
  Token.is_direction d = true ->
  forall (fuel : nat) (remaining : Z) (e : Exec),
    (room (mouse (sim_state e)) d < fuel)%nat ->
    exists k : nat,
      if_run fuel s d remaining e = Some (after_run e d k)
      /\ (forall j : nat, (j < k)%nat ->
            movable s (walk j (mouse (sim_state e)) d) d = true
            /\ crossed (junc (sim_state e)) j (mouse (sim_state e)) d < remaining)
      /\ (remaining <= crossed (junc (sim_state e)) k (mouse (sim_state e)) d
          \/ movable s (walk k (mouse (sim_state e)) d) d = false).
Proof.
  intros Hd. induction fuel as [| fuel IH]; intros remaining e Hroom; [lia |].
  cbn [if_run].
  destruct (remaining >? 0) eqn:Hrem.
  - apply Z.gtb_lt in Hrem.
    destruct (movable s (mouse (sim_state e)) d) eqn:Hmov.
    + destruct (movable_room s _ d Hd Hmov) as (_ & _ & Hless).
      set (p1 := move_pos (mouse (sim_state e)) d) in *.
      set (c1 := if grid_at (junc (sim_state e)) (Position.x p1) (Position.y p1) =? 0
                 then 0 else 1).
      set (e1 := mkExec (set_mouse (sim_state e) p1) (actions e ++ [d])
                        (wall_collisions e) (action_idx e + 1)).
      destruct (IH (remaining - c1) e1) as (k & Hrun & Hmoves & Hstop).
      { simpl. lia. }
      exists (S k). split; [| split].
      * assert (Hnext : (if grid_at (junc (set_mouse (sim_state e) p1))
                               (Position.x (mouse (set_mouse (sim_state e) p1)))
                               (Position.y (mouse (set_mouse (sim_state e) p1))) =? 0
                         then remaining else remaining - 1) = remaining - c1).
        { cbn [junc mouse set_mouse]. unfold c1.
          destruct (grid_at (junc (sim_state e)) (Position.x p1) (Position.y p1) =? 0); lia. }
        rewrite Hnext. fold e1. rewrite Hrun. f_equal.
        unfold after_run, e1. simpl. fold p1.
        rewrite <- app_assoc. simpl. f_equal. lia.
      * intros [| j] Hj.
        -- simpl. split; [assumption | lia].
        -- destruct (Hmoves j ltac:(lia)) as [Hm Hc].
           cbn [sim_state e1 junc mouse set_mouse] in Hm, Hc.
           cbn [walk crossed]. fold p1. fold c1. split; [assumption | lia].
      * cbn [sim_state e1 junc mouse set_mouse] in Hstop.
        cbn [walk crossed]. fold p1. fold c1.
        destruct Hstop as [Hstop | Hstop]; [left; lia | right; assumption].
    + exists 0%nat. rewrite after_run_zero. split; [reflexivity |].
      split; [intros j Hj; lia | right; assumption].
  - exists 0%nat. rewrite after_run_zero. split; [reflexivity |].
    split; [intros j Hj; lia |]. left. simpl.
    destruct (Z.gtb_spec remaining 0); [discriminate | lia].
Qed.

Lemma room_le p d : (room p d <= 11)%nat.
Proof.
  unfold room. destruct (Position.is_valid p) eqn:Hp; [| lia].
  apply is_valid_spec in Hp. unfold MAP_SIZE in Hp.
  repeat match goal with |- context [if ?c then _ else _] => destruct c end; lia.
Qed.

Lemma crossed_succ_le junctions k : forall p d,
  crossed junctions (S k) p d <= crossed junctions k p d + 1.
Proof.
  induction k as [| k IH]; intros p d.
  - simpl. destruct (grid_at junctions _ _ =? 0); lia.
  - specialize (IH (move_pos p d) d). cbn [crossed] in *.
    destruct (grid_at junctions (Position.x (move_pos p d)) (Position.y (move_pos p d)) =? 0);
      lia.
Qed.

(** A direction token is neither END, EMPTY nor a call token. *)
Lemma direction_not_control cmd :
  Token.is_direction cmd = true ->
  (cmd =? Token.END) = false /\ (cmd =? Token.EMPTY) = false
  /\ (cmd =? Token.FUNC_F1) = false /\ (cmd =? Token.FUNC_F2) = false.
Proof.
  intros Hd. destruct (is_direction_cases cmd Hd) as [-> | [-> | [-> | ->]]];
    repeat split; reflexivity.
Qed.

(** C4. In the execution pass, a direction token that meets the machine with
    a captured valid conditional count [N] (1 to 7) makes some number [k] of
    moves in that direction: each appends one action, and a move onto a
    junction cell counts against [N]; the run ends when [N] junctions have
    been counted or at the first blocked attempt, which appends no action
    and leaves the wall-collision set as it was; the machine is then back in
    the NORMAL state for the rest of the sequence. *)
Theorem conditional_run_after_valid_count `{RandomEngine}
    (call1 call2 : Exec -> option Exec) (fuel : nat) (s : Simulator)
    (func1 func2 rest : list Z) (m : Machine) (e : Exec) (cmd N : Z) :
  pc m = Token.IF ->
  need_next m = Token.NUM_BASE + N ->
  n_iter m = N ->
  1 <= N <= 7 ->
  Token.is_direction cmd = true ->
  (RUN_FUEL <= fuel)%nat ->
  exists k : nat,
    commands_loop call1 call2 fuel s func1 func2 (cmd :: rest) m e
    = commands_loop call1 call2 fuel s func1 func2 rest
        (mkMachine 0 0 N) (after_run e cmd k)
    /\ (forall j : nat, (j < k)%nat ->
          movable s (walk j (mouse (sim_state e)) cmd) cmd = true
          /\ crossed (junc (sim_state e)) j (mouse (sim_state e)) cmd < N)
    /\ (crossed (junc (sim_state e)) k (mouse (sim_state e)) cmd = N
        \/ (crossed (junc (sim_state e)) k (mouse (sim_state e)) cmd < N
            /\ movable s (walk k (mouse (sim_state e)) cmd) cmd = false)).
Proof.
  intros Hpc Hneed Hiter HN Hd Hfuel.
  destruct (direction_not_control cmd Hd) as (Hend & Hempty & Hf1 & Hf2).
  pose proof (room_le (mouse (sim_state e)) cmd) as Hroom.
  destruct (if_run_spec s cmd Hd fuel N e) as (k & Hrun & Hmoves & Hstop).
  { unfold RUN_FUEL in Hfuel. lia. }
  exists k. split; [| split].
  - cbn [commands_loop]. rewrite Hend, Hempty, Hf1, Hf2. cbn [andb].
    unfold machine_step. rewrite Hpc, Hneed, Hiter, Hd.
    unfold Token.NUM_BASE, Token.LOOP, Token.IF, Token.is_if_num, Token.NUM_1, Token.NUM_7.
    replace (100 + N =? 0) with false by (symmetry; apply Z.eqb_neq; lia).
    replace (100 + N =? 110) with false by (symmetry; apply Z.eqb_neq; lia).
    replace (100 + N =? 5) with false by (symmetry; apply Z.eqb_neq; lia).
    replace (101 <=? 100 + N) with true by (symmetry; apply Z.leb_le; lia).
    replace (100 + N <=? 107) with true by (symmetry; apply Z.leb_le; lia).
    cbn [Z.eqb Pos.eqb andb]. rewrite Hrun. reflexivity.
  - exact Hmoves.
  - assert (Hle : crossed (junc (sim_state e)) k (mouse (sim_state e)) cmd <= N).
    { destruct k as [| k]; [simpl; lia |].
      destruct (Hmoves k ltac:(lia)) as [_ Hlt].
      pose proof (crossed_succ_le (junc (sim_state e)) k (mouse (sim_state e)) cmd). lia. }
    destruct Hstop as [Hstop | Hstop]; [left; lia |].
    destruct (Z.eq_dec (crossed (junc (sim_state e)) k (mouse (sim_state e)) cmd) N);
      [left; assumption | right; split; [lia | assumption]].
Qed.

(** ** The command interpreter: an invalid conditional count *)

Lemma reaches_machine_spec func1 func2 cmd :
  reaches_machine func1 func2 cmd = true ->
  (cmd =? Token.END) = false /\ (cmd =? Token.EMPTY) = false
  /\ (cmd =? Token.FUNC_F1) && negb (is_empty func1) = false
  /\ (cmd =? Token.FUNC_F2) && negb (is_empty func2) = false.
Proof.
  unfold reaches_machine. rewrite !andb_true_iff, !negb_true_iff. tauto.
Qed.

(** The tokens that the loop keeps from the state machine leave the machine
    as it is: END ends the sequence, the filler is skipped, and an executed
    call runs its body.  A count that is awaited stays awaited across them. *)
Lemma commands_loop_kept_from_machine `{RandomEngine}
    (call1 call2 : Exec -> option Exec) (fuel : nat) (s : Simulator)
    (func1 func2 rest : list Z) (m : Machine) (e : Exec) (token : Z) :
  reaches_machine func1 func2 token = false ->
  commands_loop call1 call2 fuel s func1 func2 (token :: rest) m e
  = if token =? Token.END then Some e
    else if token =? Token.EMPTY
         then commands_loop call1 call2 fuel s func1 func2 rest m e
         else (if token =? Token.FUNC_F1 then call1 e else call2 e)
              ≫= commands_loop call1 call2 fuel s func1 func2 rest m.
Proof.
  intros Hkept. cbn [commands_loop].
  destruct (token =? Token.END) eqn:Hend; [reflexivity |].
  destruct (token =? Token.EMPTY) eqn:Hempty; [reflexivity |].
  unfold reaches_machine in Hkept. rewrite Hend, Hempty in Hkept. cbn [negb andb] in Hkept.
  destruct (token =? Token.FUNC_F1) eqn:Hf1; cbn [andb] in Hkept |- *.
  - destruct (is_empty func1); cbn [negb andb] in Hkept |- *; [| reflexivity].
    apply Z.eqb_eq in Hf1. subst token. cbn [Z.eqb Token.FUNC_F1 Token.FUNC_F2 Pos.eqb andb] in Hkept.
    discriminate.
  - destruct ((token =? Token.FUNC_F2) && negb (is_empty func2)); [reflexivity | discriminate].
Qed.

(** With an invalid count pending that is none of 0, IF and LOOP, no branch
    of the state machine applies to any token. *)
Lemma machine_step_blocked `{RandomEngine} (fuel : nat) (s : Simulator)
    (cmd token n : Z) (e : Exec) :
  Token.is_if_num token = false ->
  token <> 0 -> token <> Token.IF -> token <> Token.LOOP ->
  machine_step fuel s cmd (mkMachine token Token.IF n) e
  = Some (mkMachine token Token.IF n, e).
Proof.
  intros Hnum H0 Hif Hloop. unfold machine_step. cbn [need_next pc n_iter].
  rewrite (proj2 (Z.eqb_neq token 0)) by assumption.
  rewrite (proj2 (Z.eqb_neq token Token.LOOP)) by assumption.
  rewrite (proj2 (Z.eqb_neq token Token.IF)) by assumption.
  rewrite Hnum. reflexivity.
Qed.

Lemma commands_loop_blocked `{RandomEngine} (call1 call2 : Exec -> option Exec)
    (fuel : nat) (s : Simulator) (func1 func2 : list Z) (token n : Z) :
  Token.is_if_num token = false ->
  token <> 0 -> token <> Token.IF -> token <> Token.LOOP ->
  forall (rest : list Z) (e : Exec),
    commands_loop call1 call2 fuel s func1 func2 rest (mkMachine token Token.IF n) e
    = commands_loop call1 call2 fuel s func1 func2
        (executed_calls func1 func2 rest) Machine_init e.
Proof.
  intros Hnum H0 Hif Hloop. induction rest as [| cmd rest IH]; intros e; [reflexivity |].
  cbn [commands_loop executed_calls].
  destruct (cmd =? Token.END) eqn:Hend; [reflexivity |].
  destruct (cmd =? Token.EMPTY) eqn:Hempty.
  { apply Z.eqb_eq in Hempty. subst cmd. simpl. apply IH. }
  destruct ((cmd =? Token.FUNC_F1) && negb (is_empty func1)) eqn:Hc1.
  { cbn [orb commands_loop]. rewrite Hend, Hempty, Hc1.
    destruct (call1 e) as [e' |]; simpl; [apply IH | reflexivity]. }
  destruct ((cmd =? Token.FUNC_F2) && negb (is_empty func2)) eqn:Hc2.
  { cbn [orb commands_loop]. rewrite Hend, Hempty, Hc1, Hc2.
    destruct (call2 e) as [e' |]; simpl; [apply IH | reflexivity]. }
  cbn [orb]. rewrite machine_step_blocked by assumption. simpl. apply IH.
Qed.

(** C5, corrected. In AWAIT_IF_COUNT a token outside the 1-7 count range
    that the loop hands to the state machine, which is every token but END,
    the filler and a call token whose body is not empty, still advances the
    machine: it becomes the pending value, with the conditional marked.  When
    that token is none of 0, IF and LOOP, the machine never leaves this state
    during the call: of all the tokens that follow in the sequence only the
    executed calls have an effect, direction, loop and conditional tokens are
    ignored. *)
Theorem invalid_conditional_count_blocks_sequence `{RandomEngine}
    (call1 call2 : Exec -> option Exec) (fuel : nat) (s : Simulator)
    (func1 func2 rest : list Z) (m : Machine) (e : Exec) (token : Z) :
  need_next m = Token.IF ->
  Token.is_if_num token = false ->
  reaches_machine func1 func2 token = true ->
  commands_loop call1 call2 fuel s func1 func2 (token :: rest) m e
  = commands_loop call1 call2 fuel s func1 func2 rest
      (mkMachine token Token.IF (n_iter m)) e
  /\ (token <> 0 -> token <> Token.IF -> token <> Token.LOOP ->
      commands_loop call1 call2 fuel s func1 func2 (token :: rest) m e
      = commands_loop call1 call2 fuel s func1 func2
          (executed_calls func1 func2 rest) Machine_init e).
Proof.
  intros Hneed Hnum Hreach.
  destruct (reaches_machine_spec _ _ _ Hreach) as (Hend & Hempty & Hc1 & Hc2).
  assert (Hstep : commands_loop call1 call2 fuel s func1 func2 (token :: rest) m e
                  = commands_loop call1 call2 fuel s func1 func2 rest
                      (mkMachine token Token.IF (n_iter m)) e).
  { cbn [commands_loop]. rewrite Hend, Hempty, Hc1, Hc2.
    unfold machine_step. rewrite Hneed, Hnum. reflexivity. }
  split; [exact Hstep |].
  intros H0 Hif Hloop. rewrite Hstep. apply commands_loop_blocked; assumption.
Qed.

(** ** The command interpreter: termination *)

(** A body that calls its own slot: the recursion never returns. *)
Lemma self_call_diverges `{RandomEngine} (s : Simulator) (e : Exec) (fuel : nat) :
  process_commands fuel s [Token.FUNC_F1] [Token.FUNC_F1] [] e = None.
Proof.
  induction fuel as [| fuel IH]; [reflexivity |].
  cbn [process_commands commands_loop]. simpl. rewrite IH. reflexivity.
Qed.

Lemma machine_step_total `{RandomEngine} (fuel : nat) (s : Simulator) (cmd : Z)
    (m : Machine) (e : Exec) :
  (RUN_FUEL <= fuel)%nat -> is_Some (machine_step fuel s cmd m e).
Proof.
  intros Hfuel. unfold machine_step.
  repeat match goal with
         | |- is_Some (if ?c then _ else _) => destruct c eqn:?
         | |- is_Some (Some _) => eexists; reflexivity
         end.
  match goal with
  | Hc : _ && Token.is_direction cmd = true |- _ =>
      apply andb_true_iff in Hc as [_ Hd]
  end.
  pose proof (room_le (mouse (sim_state e)) cmd) as Hroom.
  destruct (if_run_spec s cmd Hd fuel (n_iter m) e) as (k & Hrun & _).
  { unfold RUN_FUEL in Hfuel. lia. }
  rewrite Hrun. eexists. reflexivity.
Qed.

Lemma executed_calls_cons (func1 func2 rest : list Z) (cmd token : Z) :
  (cmd =? Token.END) = false ->
  token ∈ executed_calls func1 func2 rest ->
  token ∈ executed_calls func1 func2 (cmd :: rest).
Proof.
  intros Hend Hin. cbn [executed_calls]. rewrite Hend.
  destruct (_ || _); [right |]; exact Hin.
Qed.

Lemma executed_calls_head1 (func1 func2 rest : list Z) (cmd : Z) :
  (cmd =? Token.END) = false ->
  (cmd =? Token.FUNC_F1) && negb (is_empty func1) = true ->
  Token.FUNC_F1 ∈ executed_calls func1 func2 (cmd :: rest).
Proof.
  intros Hend Hc. cbn [executed_calls]. rewrite Hend, Hc. cbn [orb].
  apply andb_true_iff in Hc as [Hc _]. apply Z.eqb_eq in Hc. subst cmd. left.
Qed.

Lemma executed_calls_head2 (func1 func2 rest : list Z) (cmd : Z) :
  (cmd =? Token.END) = false ->
  (cmd =? Token.FUNC_F2) && negb (is_empty func2) = true ->
  Token.FUNC_F2 ∈ executed_calls func1 func2 (cmd :: rest).
Proof.
  intros Hend Hc. cbn [executed_calls]. rewrite Hend, Hc. rewrite orb_true_r.
  apply andb_true_iff in Hc as [Hc _]. apply Z.eqb_eq in Hc. subst cmd. left.
Qed.

(** The loop over a command sequence returns as soon as the calls that the
    sequence executes return. *)
Lemma commands_loop_total `{RandomEngine} (call1 call2 : Exec -> option Exec)
    (fuel : nat) (s : Simulator) (func1 func2 : list Z) :
  (RUN_FUEL <= fuel)%nat ->
  forall (commands : list Z) (m : Machine) (e : Exec),
    (calls_slot func1 func2 commands Token.FUNC_F1 -> forall e1, is_Some (call1 e1)) ->
    (calls_slot func1 func2 commands Token.FUNC_F2 -> forall e2, is_Some (call2 e2)) ->
    is_Some (commands_loop call1 call2 fuel s func1 func2 commands m e).
Proof.
  intros Hfuel. unfold calls_slot.
  induction commands as [| cmd rest IH]; intros m e Hcall1 Hcall2.
  - eexists. reflexivity.
  - cbn [commands_loop].
    destruct (cmd =? Token.END) eqn:Hend; [eexists; reflexivity |].
    assert (Hrest1 : Token.FUNC_F1 ∈ executed_calls func1 func2 rest ->
                     forall e1, is_Some (call1 e1))
      by (intros Hin; apply Hcall1, executed_calls_cons; assumption).
    assert (Hrest2 : Token.FUNC_F2 ∈ executed_calls func1 func2 rest ->
                     forall e2, is_Some (call2 e2))
      by (intros Hin; apply Hcall2, executed_calls_cons; assumption).
    destruct (cmd =? Token.EMPTY); [apply IH; assumption |].
    destruct ((cmd =? Token.FUNC_F1) && negb (is_empty func1)) eqn:Hc1.
    { destruct (Hcall1 (executed_calls_head1 _ _ _ _ Hend Hc1) e) as [e' ->].
      simpl. apply IH; assumption. }
    destruct ((cmd =? Token.FUNC_F2) && negb (is_empty func2)) eqn:Hc2.
    { destruct (Hcall2 (executed_calls_head2 _ _ _ _ Hend Hc2) e) as [e' ->].
      simpl. apply IH; assumption. }
    destruct (machine_step_total fuel s cmd m e Hfuel) as [[m' e'] ->].
    simpl. apply IH; assumption.
Qed.

(** A sequence that executes no call returns. *)
Lemma process_commands_total_0 `{RandomEngine} (fuel : nat) (s : Simulator)
    (body func1 func2 : list Z) (e : Exec) :
  (RUN_FUEL + 1 <= fuel)%nat ->
  ~ calls_slot func1 func2 body Token.FUNC_F1 ->
  ~ calls_slot func1 func2 body Token.FUNC_F2 ->
  is_Some (process_commands fuel s body func1 func2 e).
Proof.
  intros Hfuel Hno1 Hno2. destruct fuel as [| fuel]; [lia |].
  cbn [process_commands]. apply commands_loop_total; [lia | |]; intros Hc; contradiction.
Qed.

(** A sequence whose calls lead to bodies that execute no call returns. *)
Lemma process_commands_total_1 `{RandomEngine} (fuel : nat) (s : Simulator)
    (body func1 func2 : list Z) (e : Exec) :
  (RUN_FUEL + 2 <= fuel)%nat ->
  (calls_slot func1 func2 body Token.FUNC_F1 ->
   ~ calls_slot func1 func2 func1 Token.FUNC_F1
   /\ ~ calls_slot func1 func2 func1 Token.FUNC_F2) ->
  (calls_slot func1 func2 body Token.FUNC_F2 ->
   ~ calls_slot func1 func2 func2 Token.FUNC_F1
   /\ ~ calls_slot func1 func2 func2 Token.FUNC_F2) ->
  is_Some (process_commands fuel s body func1 func2 e).
Proof.
  intros Hfuel Hleaf1 Hleaf2. destruct fuel as [| fuel]; [lia |].
  cbn [process_commands]. apply commands_loop_total; [lia | |]; intros Hc e'.
  - destruct (Hleaf1 Hc). apply process_commands_total_0; [lia | assumption | assumption].
  - destruct (Hleaf2 Hc). apply process_commands_total_0; [lia | assumption | assumption].
Qed.

(** With well-founded calls every command sequence runs to completion. *)
Lemma process_commands_total `{RandomEngine} (fuel : nat) (s : Simulator)
    (commands func1 func2 : list Z) (e : Exec) :
  (RUN_FUEL + CALL_DEPTH <= fuel)%nat ->
  calls_well_founded func1 func2 ->
  is_Some (process_commands fuel s commands func1 func2 e).
Proof.
  unfold CALL_DEPTH. intros Hfuel (Hno11 & Hno22 & Hno_both).
  destruct fuel as [| fuel]; [lia |].
  cbn [process_commands]. apply commands_loop_total; [lia | |]; intros _ e';
    apply process_commands_total_1; try lia; intros Hc; try contradiction.
  - split; [| exact Hno22]. intros Hc'. apply Hno_both. split; assumption.
  - split; [exact Hno11 |]. intros Hc'. apply Hno_both. split; assumption.
Qed.

(** A sequence that executes a call which never returns does not return. *)
Lemma commands_loop_diverges `{RandomEngine} (call1 call2 : Exec -> option Exec)
    (fuel : nat) (s : Simulator) (func1 func2 : list Z) :
  forall (commands : list Z) (m : Machine) (e : Exec),
    (calls_slot func1 func2 commands Token.FUNC_F1 /\ (forall e1, call1 e1 = None))
    \/ (calls_slot func1 func2 commands Token.FUNC_F2 /\ (forall e2, call2 e2 = None)) ->
    commands_loop call1 call2 fuel s func1 func2 commands m e = None.
Proof.
  unfold calls_slot. induction commands as [| cmd rest IH]; intros m e Hcalls.
  - destruct Hcalls as [[Hin _] | [Hin _]]; inversion Hin.
  - cbn [commands_loop]. cbn [executed_calls] in Hcalls.
    destruct (cmd =? Token.END) eqn:Hend.
    { destruct Hcalls as [[Hin _] | [Hin _]]; inversion Hin. }
    destruct (cmd =? Token.EMPTY) eqn:Hempty.
    { apply Z.eqb_eq in Hempty. subst cmd. simpl in Hcalls. apply IH. exact Hcalls. }
    destruct ((cmd =? Token.FUNC_F1) && negb (is_empty func1)) eqn:Hc1.
    { cbn [orb] in Hcalls. destruct (call1 e) as [e' |] eqn:Hcall; [| reflexivity].
      simpl. apply IH. destruct Hcalls as [[Hin Hnone] | [Hin Hnone]].
      - rewrite Hnone in Hcall. discriminate.
      - right. split; [| exact Hnone].
        apply elem_of_cons in Hin as [Heq | Hin]; [| exact Hin].
        apply andb_true_iff in Hc1 as [Hc1 _]. apply Z.eqb_eq in Hc1.
        subst cmd. discriminate. }
    destruct ((cmd =? Token.FUNC_F2) && negb (is_empty func2)) eqn:Hc2.
    { cbn [orb] in Hcalls. destruct (call2 e) as [e' |] eqn:Hcall; [| reflexivity].
      simpl. apply IH. destruct Hcalls as [[Hin Hnone] | [Hin Hnone]].
      - left. split; [| exact Hnone].
        apply elem_of_cons in Hin as [Heq | Hin]; [| exact Hin].
        apply andb_true_iff in Hc2 as [Hc2 _]. apply Z.eqb_eq in Hc2.
        subst cmd. discriminate.
      - rewrite Hnone in Hcall. discriminate. }
    cbn [orb] in Hcalls.
    destruct (machine_step fuel s cmd m e) as [[m' e'] |]; [| reflexivity].
    simpl. apply IH. exact Hcalls.
Qed.

(** A body that executes the call token of its own slot never returns. *)
Lemma self_calling_body_diverges `{RandomEngine} (s : Simulator) (func1 func2 : list Z) :
  (calls_slot func1 func2 func1 Token.FUNC_F1 ->
   forall fuel e, process_commands fuel s func1 func1 func2 e = None)
  /\ (calls_slot func1 func2 func2 Token.FUNC_F2 ->
      forall fuel e, process_commands fuel s func2 func1 func2 e = None).
Proof.
  split; intros Hself; induction fuel as [| fuel IH]; intros e; try reflexivity;
    cbn [process_commands]; apply commands_loop_diverges.
  - left. split; assumption.
  - right. split; assumption.
Qed.

(** Two bodies that call each other never return. *)
Lemma mutually_calling_bodies_diverge `{RandomEngine} (s : Simulator)
    (func1 func2 : list Z) :
  calls_slot func1 func2 func1 Token.FUNC_F2 ->
  calls_slot func1 func2 func2 Token.FUNC_F1 ->
  forall fuel,
    (forall e, process_commands fuel s func1 func1 func2 e = None)
    /\ (forall e, process_commands fuel s func2 func1 func2 e = None).
Proof.
  intros H12 H21. induction fuel as [| fuel [IH1 IH2]]; [split; reflexivity |].
  split; intros e; cbn [process_commands]; apply commands_loop_diverges.
  - right. split; assumption.
  - left. split; assumption.
Qed.

(** The execution pass returns on every command sequence exactly for the
    pairs of bodies whose calls are well founded. *)
Lemma process_commands_returns_iff `{RandomEngine} (s : Simulator) (func1 func2 : list Z) :
  calls_well_founded func1 func2 <->
  (forall commands e, exists fuel,
      is_Some (process_commands fuel s commands func1 func2 e)).
Proof.
  split.
  - intros Hwf commands e. exists (RUN_FUEL + CALL_DEPTH)%nat.
    apply process_commands_total; [lia | exact Hwf].
  - intros Hreturns.
    destruct (self_calling_body_diverges s func1 func2) as [Hself1 Hself2].
    split; [| split].
    + intros Hc. destruct (Hreturns func1 (mkExec (state_ s) [] ∅ 0)) as (fuel & r & Hr).
      rewrite (Hself1 Hc) in Hr. discriminate.
    + intros Hc. destruct (Hreturns func2 (mkExec (state_ s) [] ∅ 0)) as (fuel & r & Hr).
      rewrite (Hself2 Hc) in Hr. discriminate.
    + intros [H12 H21].
      destruct (Hreturns func1 (mkExec (state_ s) [] ∅ 0)) as (fuel & r & Hr).
      destruct (mutually_calling_bodies_diverge s func1 func2 H12 H21 fuel) as [Hnone _].
      rewrite Hnone in Hr. discriminate.
Qed.

(** C3 as written fails: a program that binds a library function whose body
    calls its own slot makes [simulate_program] exceed every bound on the
    depth of the recursion, so no run of it returns a score. *)
Lemma simulate_program_self_call_diverges :
  ~ exists fuel : nat,
      is_Some (simulate_program fuel [113; Token.END] self_call_simulator).
Proof.
  intros (fuel & result & Hrun). revert Hrun.
  unfold simulate_program, get_mouse_actions.
  change (parse_program self_call_simulator [113; Token.END])
    with (mkParsed [Token.FUNC_F1] [Token.FUNC_F1] []).
  cbn [main_cmd func1 func2]. rewrite self_call_diverges. discriminate.
Qed.

(** C3, corrected. When the two function bodies bound by the program do not
    call themselves, directly or through each other, [simulate_program]
    returns a score for every program and every stored state; and
    [process_commands] returns on every command sequence for every such pair
    of bodies. *)
Theorem simulate_program_returns_when_calls_well_founded `{RandomEngine}
    (fuel : nat) (program : list Z) (s : Simulator) :
  (RUN_FUEL + CALL_DEPTH <= fuel)%nat ->
  calls_well_founded (func1 (parse_program s program)) (func2 (parse_program s program)) ->
  (exists points s', simulate_program fuel program s = Some (points, s'))
  /\ (forall (commands body1 body2 : list Z) (e : Exec),
         calls_well_founded body1 body2 ->
         is_Some (process_commands fuel s commands body1 body2 e)).
Proof.
  intros Hfuel Hwf. split.
  - unfold simulate_program, get_mouse_actions.
    destruct (process_commands_total fuel s (main_cmd (parse_program s program))
                _ _ (mkExec (state_ s) [] ∅ 0) Hfuel Hwf) as [ar ->].
    cbn [mbind option_bind].
    destruct (pre_calculate_cat_actions (actions ar) (state_ s) s) as [cat_actions s1].
    destruct (pre_calculate_crzbc_actions (count_command_length program) (state_ s) s1)
      as [crzbc_actions s2].
    eexists. eexists. reflexivity.
  - intros commands body1 body2 e Hbodies.
    apply process_commands_total; assumption.
Qed.

(** ** Planning ahead and the per-tick AI *)


Lemma move_pos_valid p d :
  Position.is_valid (Position.move p d) = true -> move_pos p d = Position.move p d.
Proof.
  intros Hvalid. apply is_valid_spec in Hvalid as [Hx Hy]. unfold MAP_SIZE in *.
  unfold move_pos. change (to_int8 (MAP_SIZE - 1)) with 10.
  destruct (Position.move p d) as [mx my]. simpl in *. f_equal; lia.
Qed.



(** ** The tick loop *)

Lemma tick_finish_life_spent (r r' : Run) (was_catched stop : bool) :
  tick_finish r was_catched = (r', stop) -> virtual_life r' <= 0 ->
  stop = true /\ r' = r.
Proof.
  unfold tick_finish. intros Hfinish Hlife.
  destruct (virtual_life r <=? 0) eqn:Hspent.
  - injection Hfinish as <- <-. split; reflexivity.
  - apply Z.leb_gt in Hspent.
    destruct (count_remaining_cheese (run_state r) =? 0).
    + injection Hfinish as <- <-. simpl in Hlife. lia.
    + destruct (step (run_state r) >=? step_limit (run_state r));
        injection Hfinish as <- <-; lia.
Qed.

(** A tick that ends with no life left is the last one of the loop. *)
Lemma ticks_stop_when_life_spent `{RandomEngine} (s : Simulator) (wall_hits : gset Z)
    (command_length : Z) (cat_actions crzbc_actions : list Z * list Z)
    (itr : nat) (action : Z) (rest : list Z) (r : Run) :
  virtual_life (tick s wall_hits command_length cat_actions crzbc_actions itr action r).1
  <= 0 ->
  ticks s wall_hits command_length cat_actions crzbc_actions itr (action :: rest) r
  = (tick s wall_hits command_length cat_actions crzbc_actions itr action r).1.
Proof.
  intros Hlife. cbn [ticks].
  destruct (tick s wall_hits command_length cat_actions crzbc_actions itr action r)
    as [r' stop] eqn:Htick.
  simpl in Hlife. unfold tick in Htick.
  destruct (tick_catch 1 (tick_catch 0 _)) as [r1 was_catched] in Htick.
  destruct (tick_finish_life_spent _ _ _ _ Htick Hlife) as [-> _]. reflexivity.
Qed.

(** C7.  A tick that leaves no life ends the loop, whose result is the state
    and score after that tick's ordered effects.  On the input below the
    score nevertheless changes after the terminal tick: the mouse steps left onto the last small
    cheese while pursuer 0 steps onto the same cell; the tick takes the last
    life and the loop stops there with the second action unprocessed, the
    score standing at -500 + 10; the check after the loop then still awards
    the victory bonus [run * 10 + step = 1]. *)
Theorem caught_on_last_cheese_scores_bonus :
  let s := last_cheese_simulator in
  let r := ticks s ∅ 3 ([3; 3], [3; 3]) ([3; 3; 3], [3; 3; 3]) 0 [2; 2]
                 (mkRun last_cheese_state 0 1) in
  r = (tick s ∅ 3 ([3; 3], [3; 3]) ([3; 3; 3], [3; 3; 3]) 0 2
            (mkRun last_cheese_state 0 1)).1
  /\ virtual_life r = 0
  /\ virtual_score r = -490
  /\ step (run_state r) = 1
  /\ simulate_program 20 [2; 2; Token.END] s = Some (-489, s).
Proof.
  cbv zeta. split.
  - apply (ticks_stop_when_life_spent (H := LowRng)). vm_compute. discriminate.
  - vm_compute. repeat split; reflexivity.
Qed.

(** ** The stored state across a run *)

Lemma keeps_ret `{RandomEngine} {A} (a : A) : keeps_state (sim_ret a).
Proof. intros s. repeat split; reflexivity. Qed.

Lemma keeps_get `{RandomEngine} : keeps_state sim_get.
Proof. intros s. repeat split; reflexivity. Qed.

Lemma keeps_draw `{RandomEngine} (lo hi : Z) : keeps_state (draw lo hi).
Proof.
  intros s. unfold draw.
  destruct (uniform_int_distribution lo hi (rng_ s)). repeat split; reflexivity.
Qed.

Lemma keeps_bind `{RandomEngine} {A B} (m : Sim A) (k : A -> Sim B) :
  keeps_state m -> (forall a, keeps_state (k a)) -> keeps_state (sim_bind m k).
Proof.
  intros Hm Hk s. unfold sim_bind.
  destruct (Hm s) as (H1 & H2 & H3). destruct (m s) as [a s1]. simpl in *.
  destruct (Hk a s1) as (K1 & K2 & K3).
  rewrite K1, K2, K3. repeat split; assumption.
Qed.

Lemma keeps_plan_junction_probe `{RandomEngine} (st : GameState) (v : Virtual) (tries : nat) :
  keeps_state (plan_junction_probe tries st v).
Proof.
  induction tries as [| tries IH]; [apply keeps_ret |].
  cbn [plan_junction_probe]. apply keeps_bind; [apply keeps_draw |]. intros new_dir.
  destruct (new_dir =? Direction.OPPOSITE (virtual_dir v)); [exact IH |].
  destruct (open_cell st (Position.move (virtual_pos v) new_dir));
    [apply keeps_ret | exact IH].
Qed.

Lemma keeps_plan_blocked_probe `{RandomEngine} (st : GameState) (v : Virtual) (tries : nat) :
  keeps_state (plan_blocked_probe tries st v).
Proof.
  induction tries as [| tries IH]; [apply keeps_ret |].
  cbn [plan_blocked_probe]. apply keeps_bind; [apply keeps_draw |]. intros new_dir.
  destruct (open_cell st (Position.move (virtual_pos v) new_dir));
    [apply keeps_ret | exact IH].
Qed.

Lemma keeps_plan_step `{RandomEngine} (st : GameState) (v : Virtual) :
  keeps_state (plan_step st v).
Proof.
  unfold plan_step. apply keeps_bind; [apply keeps_get |]. intros s.
  destruct (negb _).
  - apply keeps_bind; [apply keeps_plan_junction_probe |].
    intros [v' |]; apply keeps_ret.
  - destruct (movable s (virtual_pos v) (virtual_dir v)); [apply keeps_ret |].
    apply keeps_bind; [apply keeps_plan_blocked_probe |].
    intros [v' |]; apply keeps_ret.
Qed.

Lemma keeps_pre_calculate_cat_actions `{RandomEngine} (mouse_actions : list Z)
    (st : GameState) :
  keeps_state (pre_calculate_cat_actions mouse_actions st).
Proof.
  unfold pre_calculate_cat_actions.
  apply keeps_bind; [| intros [c0 c1]; apply keeps_ret].
  generalize (virtual_of (fst (cats st))) (virtual_of (snd (cats st))).
  induction (length mouse_actions) as [| n IH]; intros c0 c1; [apply keeps_ret |].
  cbn [plan_cats_loop].
  apply keeps_bind; [apply keeps_plan_step |]. intros c0'.
  apply keeps_bind; [apply keeps_plan_step |]. intros c1'. apply IH.
Qed.

Lemma keeps_plan_crzbc_step `{RandomEngine} (st : GameState) (is_active : bool)
    (v : Virtual) :
  keeps_state (plan_crzbc_step st is_active v).
Proof.
  unfold plan_crzbc_step. destruct (negb is_active); [apply keeps_ret |].
  destruct (negb (Position.is_valid (virtual_pos v))); [apply keeps_ret |].
  apply keeps_plan_step.
Qed.

Lemma keeps_pre_calculate_crzbc_actions `{RandomEngine} (n_moves : Z) (st : GameState) :
  keeps_state (pre_calculate_crzbc_actions n_moves st).
Proof.
  unfold pre_calculate_crzbc_actions.
  apply keeps_bind; [| intros [b0 b1]; apply keeps_ret].
  generalize (virtual_of (fst (crzbc st))) (virtual_of (snd (crzbc st))).
  induction (Z.to_nat n_moves) as [| n IH]; intros b0 b1; [apply keeps_ret |].
  cbn [plan_crzbc_loop].
  apply keeps_bind; [apply keeps_plan_crzbc_step |]. intros b0'.
  apply keeps_bind; [apply keeps_plan_crzbc_step |]. intros b1'. apply IH.
Qed.

(** C9. [simulate_program] returns with the stored [GameState] of the
    simulator exactly as it was before the call (every layer, roster, scalar
    and flag: the record is equal), and [simulate_program_and_apply] is the
    same computation: same score, same simulator afterwards. *)
Theorem simulate_program_keeps_stored_state `{RandomEngine}
    (fuel : nat) (program : list Z) (s s' : Simulator) (points : Z) :
  simulate_program fuel program s = Some (points, s') ->
  state_ s' = state_ s
  /\ simulate_program_and_apply fuel program s = Some (points, s').
Proof.
  intros Hrun. split.
  - unfold simulate_program in Hrun.
    destruct (get_mouse_actions fuel s _ _ _ (state_ s)) as [ar |]; [| discriminate].
    cbn [mbind option_bind] in Hrun.
    pose proof (keeps_pre_calculate_cat_actions (actions ar) (state_ s) s) as (Hc & _).
    destruct (pre_calculate_cat_actions (actions ar) (state_ s) s) as [cat_actions s1].
    pose proof (keeps_pre_calculate_crzbc_actions (count_command_length program)
                  (state_ s) s1) as (Hz & _).
    destruct (pre_calculate_crzbc_actions (count_command_length program) (state_ s) s1)
      as [crzbc_actions s2].
    injection Hrun as _ <-. simpl in Hc, Hz. congruence.
  - unfold simulate_program_and_apply. rewrite Hrun. reflexivity.
Qed.

(** ** The snapshot boundary *)

Lemma all_active_rosters st :
  all_active st <-> roster_active (cats st) /\ roster_active (movbc st)
                    /\ roster_active (crzbc st).
Proof.
  unfold all_active, roster_active, roster_list. simpl.
  rewrite !Forall_cons, Forall_nil. tauto.
Qed.

Lemma roster_set_active (r : Roster) (i : nat) (e : Entity) :
  roster_active r -> active e = true -> roster_active (roster_set r i e).
Proof.
  intros [H0 H1] He. destruct r as [a b], i as [| i]; split; simpl in *; assumption.
Qed.

Lemma roster_at_active (r : Roster) (i : nat) :
  roster_active r -> active (roster_at r i) = true.
Proof. intros [H0 H1]. destruct i; assumption. Qed.

Lemma read_entity_active rows i r r' :
  read_entity rows i r = Some r' -> roster_active r -> roster_active r'.
Proof.
  unfold read_entity. intros Hread Hr.
  destruct (rows !! i) as [row |]; [| injection Hread as <-; exact Hr].
  destruct (row !! 0%nat) as [px |]; [| discriminate].
  destruct (row !! 1%nat) as [py |]; [| discriminate].
  injection Hread as <-. apply roster_set_active; [exact Hr | reflexivity].
Qed.

Lemma read_entities_active rows r r' :
  read_entities rows r = Some r' -> roster_active r -> roster_active r'.
Proof.
  unfold read_entities. intros Hread Hr.
  destruct (read_entity rows 0 r) as [r0 |] eqn:H0; [| discriminate].
  simpl in Hread. eapply read_entity_active; [exact Hread |].
  eapply read_entity_active; eassumption.
Qed.

Lemma read_last_pos_active rows i r r' :
  read_last_pos rows i r = Some r' -> roster_active r -> roster_active r'.
Proof.
  unfold read_last_pos. intros Hread Hr.
  destruct (rows !! i) as [row |]; [| injection Hread as <-; exact Hr].
  destruct (row !! 0%nat) as [px |]; [| discriminate].
  destruct (row !! 1%nat) as [py |]; [| discriminate].
  injection Hread as <-. apply roster_set_active; [exact Hr |].
  simpl. apply roster_at_active. exact Hr.
Qed.

Lemma read_last_positions_active r o r' :
  read_last_positions r o = Some r' -> roster_active r -> roster_active r'.
Proof.
  unfold read_last_positions. intros Hread Hr.
  destruct (cast_matrix o) as [cl |]; [| discriminate]. simpl in Hread.
  destruct (read_last_pos cl 0 r) as [r0 |] eqn:H0; [| discriminate].
  simpl in Hread. eapply read_last_pos_active; [exact Hread |].
  eapply read_last_pos_active; eassumption.
Qed.

Lemma read_direction_active dirs i r :
  roster_active r -> roster_active (read_direction dirs i r).
Proof.
  intros Hr. unfold read_direction. destruct (dirs !! i) as [d |]; [| exact Hr].
  apply roster_set_active; [exact Hr |]. simpl. apply roster_at_active. exact Hr.
Qed.

Lemma read_directions_active r o r' :
  read_directions r o = Some r' -> roster_active r -> roster_active r'.
Proof.
  unfold read_directions. intros Hread Hr.
  destruct (cast_vector o) as [cd |]; [| discriminate]. simpl in Hread.
  injection Hread as <-. apply read_direction_active, read_direction_active. exact Hr.
Qed.

(** Peeling one monadic step off a successful construction. *)
Tactic Notation "peel" hyp(H) "as" ident(v) ident(E) :=
  match type of H with
  | (?m ≫= _) = Some _ =>
      destruct m as [v |] eqn:E; [cbn [mbind option_bind] in H | discriminate H]
  end.

Lemma dict_to_state_all_active (d : gmap string PyObj) (st : GameState) :
  dict_to_state d = Some st -> all_active st.
Proof.
  unfold dict_to_state. intros Hst.
  assert (Hdefault : roster_active (Entity_default, Entity_default))
    by (split; reflexivity).
  cbn [cats movbc crzbc GameState_reset] in Hst.
  peel Hst as mouse_p Hmouse. peel Hst as mouse_last_p Hmouse_last.
  peel Hst as cat Hcat.
  peel Hst as cats1 Hcats1. peel Hst as cats2 Hcats2. peel Hst as cats3 Hcats3.
  peel Hst as sc_g Hsc. peel Hst as wall_g Hwall. peel Hst as junc_g Hjunc.
  peel Hst as deadend_g Hdeadend.
  peel Hst as movbc_m Hmovbc_m. peel Hst as movbc1 Hmovbc1.
  peel Hst as crzbc_m Hcrzbc_m. peel Hst as crzbc1 Hcrzbc1.
  peel Hst as crzbc2 Hcrzbc2.
  peel Hst as score_v Hscore. peel Hst as life_v Hlife. peel Hst as step_v Hstep.
  peel Hst as step_limit_v Hstep_limit. peel Hst as run_v Hrun.
  peel Hst as func_chance_v Hfunc_chance. peel Hst as red_zone_v Hred_zone.
  peel Hst as win_v Hwin. peel Hst as lose_v Hlose. peel Hst as catched_v Hcatched.
  injection Hst as <-. apply all_active_rosters. cbn [cats movbc crzbc].
  assert (H1 : roster_active cats1) by (eapply read_entities_active; eassumption).
  assert (H2 : roster_active cats2).
  { destruct (d !! "cat_last_pos");
      [eapply read_last_positions_active; eassumption | injection Hcats2 as <-; exact H1]. }
  assert (H3 : roster_active cats3).
  { destruct (d !! "cat_direction");
      [eapply read_directions_active; eassumption | injection Hcats3 as <-; exact H2]. }
  assert (H4 : roster_active movbc1) by (eapply read_entities_active; eassumption).
  assert (H5 : roster_active crzbc1) by (eapply read_entities_active; eassumption).
  assert (H6 : roster_active crzbc2).
  { destruct (d !! "crzbc_direction");
      [eapply read_directions_active; eassumption | injection Hcrzbc2 as <-; exact H5]. }
  auto.
Qed.

Lemma cast_vector_py l : cast_vector (py_vector l) = Some l.
Proof.
  unfold cast_vector, py_vector. apply mapM_Some_2.
  induction l as [| z l IH]; constructor; [reflexivity | exact IH].
Qed.

Lemma cast_matrix_py m : cast_matrix (py_matrix m) = Some m.
Proof.
  unfold cast_matrix, py_matrix. apply mapM_Some_2.
  induction m as [| row m IH]; constructor; [apply cast_vector_py | exact IH].
Qed.

Lemma cast_grid_py g : is_Some (cast_grid (py_matrix (grid_init (grid_at g)))).
Proof.
  unfold cast_grid. rewrite cast_matrix_py. eexists. reflexivity.
Qed.

(** An exported snapshot is always accepted back. *)
Lemma dict_to_state_of_export (st : GameState) :
  is_Some (dict_to_state (state_to_dict st)).
Proof.
  unfold dict_to_state, required_key, optional_key.
  change (state_to_dict st !! "mouse")
    with (Some (py_vector (py_position (mouse st)))).
  change (state_to_dict st !! "mouse_last_pos")
    with (Some (py_vector (py_position (mouse_last st)))).
  change (state_to_dict st !! "cat")
    with (Some (py_matrix ((fun c => py_position (pos c)) <$> roster_list (cats st)))).
  change (state_to_dict st !! "cat_last_pos")
    with (Some (py_matrix ((fun c => py_position (last_pos c)) <$> roster_list (cats st)))).
  change (state_to_dict st !! "cat_direction")
    with (Some (py_vector (direction <$> roster_list (cats st)))).
  change (state_to_dict st !! "sc") with (Some (py_matrix (grid_init (grid_at (sc st))))).
  change (state_to_dict st !! "wall")
    with (Some (py_matrix (grid_init (grid_at (wall st))))).
  change (state_to_dict st !! "junc")
    with (Some (py_matrix (grid_init (grid_at (junc st))))).
  change (state_to_dict st !! "deadend")
    with (Some (py_matrix (grid_init (grid_at (deadend st))))).
  change (state_to_dict st !! "movbc")
    with (Some (py_matrix ((fun c => py_position (pos c)) <$> roster_list (movbc st)))).
  change (state_to_dict st !! "crzbc")
    with (Some (py_matrix ((fun c => py_position (pos c)) <$> roster_list (crzbc st)))).
  change (state_to_dict st !! "crzbc_direction")
    with (Some (py_vector (direction <$> roster_list (crzbc st)))).
  change (state_to_dict st !! "score") with (Some (PyInt (score st))).
  change (state_to_dict st !! "life") with (Some (PyInt (life st))).
  change (state_to_dict st !! "step") with (Some (PyInt (step st))).
  change (state_to_dict st !! "step_limit") with (Some (PyInt (step_limit st))).
  change (state_to_dict st !! "run") with (Some (PyInt (run st))).
  change (state_to_dict st !! "func_chance") with (Some (PyInt (func_chance st))).
  change (state_to_dict st !! "red_zone") with (Some (PyInt (red_zone st))).
  change (state_to_dict st !! "win_sign") with (Some (PyBool (win_sign st))).
  change (state_to_dict st !! "lose_sign") with (Some (PyBool (lose_sign st))).
  change (state_to_dict st !! "catched") with (Some (PyBool (catched st))).
  unfold cast_position, read_last_positions, read_directions.
  rewrite !cast_vector_py, !cast_matrix_py.
  destruct (cast_grid_py (sc st)) as [sc_g ->].
  destruct (cast_grid_py (wall st)) as [wall_g ->].
  destruct (cast_grid_py (junc st)) as [junc_g ->].
  destruct (cast_grid_py (deadend st)) as [deadend_g ->].
  eexists. reflexivity.
Qed.

(** C10. [dict_to_state] marks every pursuer, stationary item and roaming
    item it reads active (the slots it does not read keep the active
    default), so every state it builds has all six entities active; an
    exported snapshot carries no activity flag, and restoring the export of
    any state, also of one in which an item has been collected, yields a
    state in which every item is active again. *)
Theorem dict_to_state_activates_every_entity :
  (forall (d : gmap string PyObj) (st : GameState),
      dict_to_state d = Some st -> all_active st)
  /\ (forall st : GameState,
         exists st', dict_to_state (state_to_dict st) = Some st' /\ all_active st').
Proof.
  split; [exact dict_to_state_all_active |].
  intros st. destruct (dict_to_state_of_export st) as [st' Hst'].
  exists st'. split; [exact Hst' | eapply dict_to_state_all_active; exact Hst'].
Qed.

(** ** Distance maps as shortest walks *)

Lemma dist_at_set_same dm n v :
  grid_dims dm -> Position.is_valid n = true ->
  dist_at (grid_set dm (Position.x n) (Position.y n) v) n = v.
Proof.
  intros Hdims Hvalid. apply is_valid_spec in Hvalid as [Hx Hy].
  unfold dist_at. apply grid_at_set_same; assumption.
Qed.

Lemma dist_at_set_other dm n v p :
  p <> n -> dist_at (grid_set dm (Position.x n) (Position.y n) v) p = dist_at dm p.
Proof.
  intros Hne. unfold dist_at. apply grid_at_set_other.
  intros Heq. apply Hne. destruct p, n. simpl in Heq. congruence.
Qed.

(** Visiting the unvisited neighbour [n] of the queue head keeps the
    invariant. *)
Lemma bfs_visit_inv wall_layer src dm curr queue h dir :
  bfs_inv wall_layer src dm (curr :: queue) h ->
  dist_at dm curr = h ->
  dir ∈ Direction.all ->
  Position.is_valid (Position.move curr dir) = true ->
  dist_at dm (Position.move curr dir) = 0 ->
  bfs_inv wall_layer src
    (grid_set dm (Position.x (Position.move curr dir))
              (Position.y (Position.move curr dir)) (h + 1))
    (curr :: (queue ++ [Position.move curr dir])) h.
Proof.
  intros (Hdims & Hq & Hmark & Hclosed & (A & B & HAB & HA & HB) & Hdone & Hmax & Hlip & Hcap)
         Hcurr Hdir Hvalid Hzero.
  set (n := Position.move curr dir) in *.
  pose proof (proj1 (is_valid_spec n) Hvalid) as [Hx Hy].
  pose proof (Forall_inv Hq) as [Hcv Hcb]. fold (dist_at dm curr) in Hcb.
  pose proof (count_zero_le dm) as Hle.
  pose proof (count_zero_set dm (Position.x n) (Position.y n) (h + 1)
                Hdims Hx Hy Hzero ltac:(lia)) as Hcount.
  pose proof (dist_at_set_same dm n (h + 1) Hdims Hvalid) as Hsame.
  pose proof (fun p => dist_at_set_other dm n (h + 1) p) as Hother.
  set (dm' := grid_set dm (Position.x n) (Position.y n) (h + 1)) in *.
  assert (Hkeep : forall p, dist_at dm p <> 0 -> dist_at dm' p = dist_at dm p).
  { intros p Hp. apply Hother. intros ->. contradiction. }
  assert (Hnz : forall p, dist_at dm p <> 0 -> dist_at dm' p <> 0).
  { intros p Hp. rewrite Hkeep; assumption. }
  assert (Hval : forall p, dist_at dm' p = if decide (p = n) then h + 1 else dist_at dm p).
  { intros p. destruct (decide (p = n)) as [-> | Hne]; [exact Hsame | apply Hother, Hne]. }
  assert (Hqk : forall c, c ∈ curr :: queue -> dist_at dm' c = dist_at dm c).
  { intros c Hc. apply Hkeep. rewrite Forall_forall in Hq.
    destruct (Hq c Hc) as [_ Hb]. fold (dist_at dm c) in Hb. lia. }
  split; [apply grid_dims_set; assumption |]. split.
  { change (Forall (queued_ok dm') ((curr :: queue) ++ [n])).
    apply Forall_app. split.
    - rewrite Forall_forall in Hq |- *. intros c Hc.
      destruct (Hq c Hc) as [Hv Hb]. split; [assumption |].
      fold (dist_at dm' c). fold (dist_at dm c) in Hb. rewrite Hqk by assumption. lia.
    - apply Forall_singleton. split; [assumption |].
      fold (dist_at dm' n). rewrite Hsame. lia. }
  split.
  { intros p Hp. unfold bfs_mark.
    destruct (decide (p = n)) as [-> | Hne].
    - rewrite Hsame.
      destruct (Hmark n Hvalid) as [(H1 & _) | [(_ & Hnw & Hns) | [(H1 & _) | (H1 & _)]]];
        try (rewrite Hzero in H1; lia).
      right. right. right. split; [lia |]. split; [assumption |]. split; [assumption |].
      exists curr, dir. split; [assumption |]. split; [assumption |]. split; [reflexivity |].
      rewrite Hkeep; lia.
    - rewrite (Hother p Hne).
      destruct (Hmark p Hp) as [H1 | [H1 | [H1 | (H1 & Hnw & Hns & q & d & Hqv & Hd & Hmv & Hqd)]]];
        [left; exact H1 | right; left; exact H1 | right; right; left; exact H1 |].
      right. right. right. split; [assumption |]. split; [assumption |]. split; [assumption |].
      exists q, d. split; [assumption |]. split; [assumption |]. split; [assumption |].
      rewrite Hkeep; lia. }
  split.
  { intros p Hp Hreach. destruct (decide (p = n)) as [-> | Hne].
    - left. right. apply elem_of_app. right. left.
    - rewrite Hother in Hreach by assumption.
      destruct (Hclosed p Hp Hreach) as [Hin | Hcl].
      + left. change (p ∈ (curr :: queue) ++ [n]). apply elem_of_app. left. assumption.
      + right. intros d Hd Hv. apply Hnz. apply Hcl; assumption. }
  split.
  { destruct A as [| a A].
    - exists [], (B ++ [n]). simpl in HAB. split; [rewrite <- HAB; reflexivity |].
      split; [constructor |]. apply Forall_app. split.
      + rewrite Forall_forall in HB |- *. intros c Hc. rewrite Hqk; [apply HB, Hc |].
        rewrite HAB. assumption.
      + apply Forall_singleton. exact Hsame.
    - exists (a :: A), (B ++ [n]). split.
      + rewrite app_assoc, <- HAB. reflexivity.
      + split.
        * rewrite Forall_forall in HA |- *. intros c Hc. rewrite Hqk; [apply HA, Hc |].
          rewrite HAB. apply elem_of_app. left. assumption.
        * apply Forall_app. split.
          -- rewrite Forall_forall in HB |- *. intros c Hc. rewrite Hqk; [apply HB, Hc |].
             rewrite HAB. apply elem_of_app. right. assumption.
          -- apply Forall_singleton. exact Hsame. }
  split.
  { intros p Hp Hreach Hnotin.
    change (p ∉ (curr :: queue) ++ [n]) in Hnotin.
    rewrite elem_of_app in Hnotin.
    assert (Hne : p <> n) by (intros ->; apply Hnotin; right; left).
    rewrite Hother in Hreach |- * by assumption.
    apply Hdone; [assumption | assumption | tauto]. }
  split.
  { intros p Hp. rewrite Hval. destruct (decide (p = n)); [lia | apply Hmax, Hp]. }
  split.
  2:{ intros p Hp. rewrite Hval. pose proof (Hcap curr Hcv).
      destruct (decide (p = n)); [lia |]. pose proof (Hcap p Hp). lia. }
  intros p d Hp Hd Hpv Hr1 Hr2. rewrite !Hval in *.
  destruct (decide (Position.move p d = n)) as [Hmn | Hmn];
    destruct (decide (p = n)) as [Hpn | Hpn]; try lia.
  - (* a visited neighbour of the new cell *)
    destruct (Hclosed p Hp Hr1) as [Hin | Hcl].
    + assert (Hlev : dist_at dm p = h \/ dist_at dm p = h + 1).
      { rewrite HAB in Hin. apply elem_of_app in Hin as [Hin | Hin].
        - left. rewrite Forall_forall in HA. apply HA, Hin.
        - right. rewrite Forall_forall in HB. apply HB, Hin. }
      lia.
    + exfalso. apply (Hcl d Hd Hpv). rewrite Hmn. exact Hzero.
  - pose proof (Hmax (Position.move p d) Hpv). lia.
  - apply Hlip; assumption.
Qed.

(** One scan of the directions [dirs] keeps the invariant and leaves no
    scanned neighbour of the queue head unvisited. *)
Lemma bfs_scan_levels wall_layer src curr h dirs : forall dm queue dm' queue',
  bfs_inv wall_layer src dm (curr :: queue) h ->
  dist_at dm curr = h ->
  (forall d, d ∈ dirs -> d ∈ Direction.all) ->
  bfs_scan dm queue curr h dirs = (dm', queue') ->
  bfs_inv wall_layer src dm' (curr :: queue') h
  /\ dist_at dm' curr = h
  /\ (forall p, dist_at dm p <> 0 -> dist_at dm' p = dist_at dm p)
  /\ (forall d, d ∈ dirs -> Position.is_valid (Position.move curr d) = true ->
        dist_at dm' (Position.move curr d) <> 0).
Proof.
  induction dirs as [| dir dirs IH]; intros dm queue dm_end q_end Hinv Hcurr Hdirs Hscan.
  - simpl in Hscan. injection Hscan as <- <-.
    split; [assumption |]. split; [assumption |]. split; [reflexivity |].
    intros d Hd. inversion Hd.
  - assert (Hdir : dir ∈ Direction.all) by (apply Hdirs; left).
    assert (Hdirs' : forall d, d ∈ dirs -> d ∈ Direction.all)
      by (intros d Hd; apply Hdirs; right; assumption).
    pose proof Hinv as (Hdims & Hq & _).
    pose proof (Forall_inv Hq) as [Hcv Hcb]. fold (dist_at dm curr) in Hcb.
    revert Hscan. cbn [bfs_scan].
    fold (dist_at dm (Position.move curr dir)).
    destruct (Position.is_valid (Position.move curr dir)
              && (dist_at dm (Position.move curr dir) =? 0)) eqn:Hvisit; intros Hscan.
    + apply andb_true_iff in Hvisit as [Hvalid Hzero]. apply Z.eqb_eq in Hzero.
      pose proof (count_zero_le dm) as Hle.
      rewrite to_int16_small in Hscan by lia.
      pose proof (bfs_visit_inv _ _ _ _ _ _ _ Hinv Hcurr Hdir Hvalid Hzero) as Hinv'.
      assert (Hstep : forall p, dist_at dm p <> 0 ->
                dist_at (grid_set dm (Position.x (Position.move curr dir))
                           (Position.y (Position.move curr dir)) (h + 1)) p
                = dist_at dm p).
      { intros p Hp. apply dist_at_set_other. intros ->. contradiction. }
      destruct (IH _ _ _ _ Hinv' ltac:(rewrite Hstep; lia) Hdirs' Hscan)
        as (Hend & Hcurr' & Hkeep & Hscanned).
      split; [assumption |]. split; [assumption |]. split.
      * intros p Hp. rewrite Hkeep; [apply Hstep, Hp | rewrite Hstep; assumption].
      * intros d Hd Hdv. apply elem_of_cons in Hd as [-> | Hd]; [| apply Hscanned; assumption].
        rewrite Hkeep; rewrite dist_at_set_same by assumption; lia.
    + destruct (IH _ _ _ _ Hinv Hcurr Hdirs' Hscan) as (Hend & Hcurr' & Hkeep & Hscanned).
      split; [assumption |]. split; [assumption |]. split; [assumption |].
      intros d Hd Hdv. apply elem_of_cons in Hd as [-> | Hd]; [| apply Hscanned; assumption].
      apply andb_false_iff in Hvisit as [Hv | Hnz]; [congruence |].
      apply Z.eqb_neq in Hnz. rewrite Hkeep; assumption.
Qed.

(** The invariant can be read at the level of the queue head. *)
Lemma bfs_inv_head wall_layer src dm curr queue h :
  bfs_inv wall_layer src dm (curr :: queue) h ->
  bfs_inv wall_layer src dm (curr :: queue) (dist_at dm curr).
Proof.
  intros (Hdims & Hq & Hmark & Hclosed & (A & B & HAB & HA & HB) & Hdone & Hmax & Hlip & Hcap).
  destruct A as [| a A].
  - simpl in HAB. subst B. pose proof (Forall_inv HB) as Hc. simpl in Hc.
    split; [assumption |]. split; [assumption |]. split; [assumption |].
    split; [assumption |]. split.
    { exists (curr :: queue), []. split; [rewrite app_nil_r; reflexivity |].
      split; [| constructor]. rewrite Hc. assumption. }
    split.
    { intros p Hp Hr Hnotin. pose proof (Hdone p Hp Hr Hnotin). lia. }
    split; [| split; assumption].
    intros p Hp. pose proof (Hmax p Hp). lia.
  - injection HAB as <- Hqueue. pose proof (Forall_inv HA) as Hc. simpl in Hc.
    rewrite Hc.
    split; [assumption |]. split; [assumption |]. split; [assumption |].
    split; [assumption |]. split; [| split; [assumption | split; [assumption | split; assumption]]].
    exists (curr :: A), B. rewrite Hqueue. split; [reflexivity |]. split; assumption.
Qed.

(** Once the head has no unvisited neighbour it can leave the queue. *)
Lemma bfs_inv_pop wall_layer src dm curr queue h :
  bfs_inv wall_layer src dm (curr :: queue) h ->
  dist_at dm curr = h ->
  bfs_closed dm curr ->
  bfs_inv wall_layer src dm queue h.
Proof.
  intros (Hdims & Hq & Hmark & Hclosed & (A & B & HAB & HA & HB) & Hdone & Hmax & Hlip & Hcap)
         Hcurr Hcl.
  split; [assumption |]. split; [exact (Forall_inv_tail Hq) |]. split; [assumption |].
  split.
  { intros p Hp Hr. destruct (Hclosed p Hp Hr) as [Hin | Hc]; [| right; exact Hc].
    apply elem_of_cons in Hin as [-> | Hin]; [right; exact Hcl | left; exact Hin]. }
  split.
  { destruct A as [| a A].
    - simpl in HAB. subst B. exists [], queue. split; [reflexivity |].
      split; [constructor | exact (Forall_inv_tail HB)].
    - injection HAB as <- Hqueue. exists A, B. split; [assumption |].
      split; [exact (Forall_inv_tail HA) | assumption]. }
  split; [| split; [assumption | split; assumption]].
  intros p Hp Hr Hnotin. destruct (decide (p = curr)) as [-> | Hne]; [lia |].
  apply Hdone; [assumption | assumption |].
  intros Hin. apply elem_of_cons in Hin as [-> | Hin]; [apply Hne; reflexivity | contradiction].
Qed.

(** Whatever map the loop returns, it is a finished one. *)
Lemma bfs_loop_levels wall_layer src fuel : forall dm queue h result,
  bfs_inv wall_layer src dm queue h ->
  bfs_loop fuel dm queue = Some result ->
  bfs_final wall_layer src result.
Proof.
  assert (Hdone_ok : forall dm h, bfs_inv wall_layer src dm [] h ->
                                  bfs_final wall_layer src dm).
  { intros dm h (Hdims & _ & Hmark & Hclosed & _ & Hdone & Hmax & Hlip & Hcap).
    split; [assumption |]. split; [assumption |]. split.
    { intros p Hp Hr. destruct (Hclosed p Hp Hr) as [Hin | Hc]; [inversion Hin | exact Hc]. }
    split; [assumption |].
    intros p Hp. pose proof (Hcap p Hp). lia. }
  induction fuel as [| fuel IH]; intros dm queue h result Hinv Hrun.
  - destruct queue; [| discriminate]. simpl in Hrun. injection Hrun as <-.
    eapply Hdone_ok. eassumption.
  - destruct queue as [| curr queue].
    { simpl in Hrun. injection Hrun as <-. eapply Hdone_ok. eassumption. }
    revert Hrun. cbn [bfs_loop]. fold (dist_at dm curr).
    destruct (bfs_scan dm queue curr (dist_at dm curr) Direction.all)
      as [dm' queue'] eqn:Hscan.
    intros Hrun. apply bfs_inv_head in Hinv.
    destruct (bfs_scan_levels _ _ _ _ _ _ _ _ _ Hinv eq_refl (fun d Hd => Hd) Hscan)
      as (Hinv' & Hcurr' & _ & Hscanned).
    eapply IH; [| exact Hrun].
    eapply bfs_inv_pop; [exact Hinv' | exact Hcurr' |].
    intros d Hd Hv. apply Hscanned; assumption.
Qed.

(** The seeded map with the source cell queued satisfies the invariant. *)
Lemma bfs_inv_seed (wall_layer : GridMap) (src : Position.t) :
  Position.is_valid src = true ->
  bfs_inv wall_layer src
    (grid_set (grid_init (fun i j => if grid_at wall_layer i j =? 0 then 0 else -1))
              (Position.x src) (Position.y src) 1)
    [src] 1.
Proof.
  intros Hvalid.
  destruct (bfs_seed_ready wall_layer src Hvalid) as (Hdims & Hq & _).
  pose proof (proj1 (is_valid_spec src) Hvalid) as [Hx Hy].
  set (init := grid_init (fun i j => if grid_at wall_layer i j =? 0 then 0 else -1)) in *.
  assert (Hsrc : dist_at (grid_set init (Position.x src) (Position.y src) 1) src = 1)
    by (apply dist_at_set_same; [apply grid_dims_init | assumption]).
  assert (Hrest : forall p, Position.is_valid p = true -> p <> src ->
            dist_at (grid_set init (Position.x src) (Position.y src) 1) p
            = if grid_at wall_layer (Position.x p) (Position.y p) =? 0 then 0 else -1).
  { intros p Hp Hne. rewrite dist_at_set_other by assumption.
    apply is_valid_spec in Hp as [Hpx Hpy]. unfold dist_at, init.
    rewrite grid_at_init by assumption. reflexivity. }
  assert (Hcount : (count_zero (grid_set init (Position.x src) (Position.y src) 1) <= 120)%nat).
  { apply count_zero_seeded; [apply grid_dims_init | assumption | assumption | lia]. }
  set (seeded := grid_set init (Position.x src) (Position.y src) 1) in *.
  assert (Hle1 : forall p, Position.is_valid p = true -> dist_at seeded p <= 1).
  { intros p Hp. destruct (decide (p = src)) as [-> | Hne]; [lia |].
    rewrite Hrest by assumption.
    destruct (grid_at wall_layer (Position.x p) (Position.y p) =? 0); lia. }
  assert (Hone : forall p, Position.is_valid p = true -> 1 <= dist_at seeded p -> p = src).
  { intros p Hp Hr. destruct (decide (p = src)) as [-> | Hne]; [reflexivity |].
    rewrite Hrest in Hr by assumption.
    destruct (grid_at wall_layer (Position.x p) (Position.y p) =? 0); lia. }
  split; [assumption |]. split; [assumption |]. split.
  { intros p Hp. unfold bfs_mark, no_wall.
    destruct (decide (p = src)) as [-> | Hne]; [right; right; left; auto |].
    rewrite Hrest by assumption.
    destruct (grid_at wall_layer (Position.x p) (Position.y p) =? 0) eqn:Hw.
    - apply Z.eqb_eq in Hw. right. left. auto.
    - apply Z.eqb_neq in Hw. left. auto. }
  split.
  { intros p Hp Hr. left. rewrite (Hone p Hp Hr). left. }
  split.
  { exists [src], []. split; [reflexivity |]. split; [| constructor].
    apply Forall_singleton. exact Hsrc. }
  split.
  { intros p Hp Hr Hnotin. exfalso. apply Hnotin. rewrite (Hone p Hp Hr). left. }
  split.
  { intros p Hp. pose proof (Hle1 p Hp). lia. }
  split.
  { intros p d Hp Hd Hpv Hr1 Hr2. pose proof (Hle1 _ Hpv). lia. }
  intros p Hp. pose proof (Hle1 p Hp). lia.
Qed.

(** A BFS from a cell of the board returns a finished map. *)
Lemma bfs_from_seed_final (wall_layer : GridMap) (src : Position.t) :
  Position.is_valid src = true ->
  exists dm,
    bfs_loop BFS_FUEL
      (grid_set (grid_init (fun i j => if grid_at wall_layer i j =? 0 then 0 else -1))
                (Position.x src) (Position.y src) 1)
      [src] = Some dm
    /\ bfs_final wall_layer src dm.
Proof.
  intros Hvalid.
  destruct (bfs_seed_ready wall_layer src Hvalid) as (Hdims & Hq & Hfuel).
  destruct (bfs_loop_total _ _ _ Hdims Hq Hfuel) as (dm & Hrun & _).
  exists dm. split; [exact Hrun |].
  eapply bfs_loop_levels; [apply bfs_inv_seed; assumption | exact Hrun].
Qed.

Lemma compute_distance_map_final (wall_layer : GridMap) (src : Position.t) :
  Position.is_valid src = true ->
  exists dm,
    compute_distance_map wall_layer (Position.x src) (Position.y src) = Some dm
    /\ bfs_final wall_layer src dm.
Proof.
  intros Hvalid. pose proof (proj1 (is_valid_spec src) Hvalid) as [Hx Hy].
  unfold compute_distance_map.
  rewrite !to_int8_small by (unfold MAP_SIZE in *; lia).
  destruct src as [sx sy]. apply (bfs_from_seed_final wall_layer (Position.mk sx sy) Hvalid).
Qed.

Lemma open_walk_valid wall_layer src k p :
  Position.is_valid src = true -> open_walk wall_layer src k p ->
  Position.is_valid p = true.
Proof. intros Hsrc Hwalk. destruct Hwalk; assumption. Qed.

(** In a finished map every cell that a walk reaches holds a level, at most
    one more than the length of the walk. *)
Lemma bfs_final_walk_bound wall_layer src dm k p :
  Position.is_valid src = true ->
  bfs_final wall_layer src dm ->
  open_walk wall_layer src k p ->
  1 <= dist_at dm p <= Z.of_nat k + 1.
Proof.
  intros Hsrc (Hdims & Hmark & Hclosed & Hlip & _) Hwalk.
  induction Hwalk as [| k p dir Hwalk IH Hdir Hvalid Hopen].
  - destruct (Hmark src Hsrc) as [(_ & _ & Hne) | [(_ & _ & Hne) | [(H1 & _) | (_ & _ & Hne & _)]]];
      try (exfalso; apply Hne; reflexivity).
    lia.
  - pose proof (open_walk_valid _ _ _ _ Hsrc Hwalk) as Hp.
    pose proof (Hclosed p Hp ltac:(lia) dir Hdir Hvalid) as Hnz.
    assert (Hreach : 1 <= dist_at dm (Position.move p dir)).
    { destruct (Hmark _ Hvalid) as [(_ & Hw & _) | [(H0 & _) | [(H1 & _) | (H2 & _)]]];
        [contradiction | contradiction | lia | lia]. }
    pose proof (Hlip p dir Hp Hdir Hvalid ltac:(lia) Hreach). lia.
Qed.

(** In a finished map a cell of level [d] is reached by a walk of [d - 1]
    moves. *)
Lemma bfs_final_walk_exists wall_layer src dm (n : nat) : forall p,
  bfs_final wall_layer src dm ->
  Position.is_valid p = true ->
  dist_at dm p = Z.of_nat n + 1 ->
  open_walk wall_layer src n p.
Proof.
  intros p Hfinal. revert p. destruct Hfinal as (Hdims & Hmark & _).
  induction n as [| n IH]; intros p Hp Hd.
  - destruct (Hmark p Hp) as [(H1 & _) | [(H1 & _) | [(_ & ->) | (H1 & _)]]]; try lia.
    constructor.
  - destruct (Hmark p Hp)
      as [(H1 & _) | [(H1 & _) | [(H1 & _) | (_ & Hopen & _ & q & dir & Hq & Hdir & -> & Hqd)]]];
      try lia.
    constructor; [| assumption | assumption | assumption].
    apply IH; [assumption | lia].
Qed.

(** X1. The map computed from a source cell of the board holds shortest
    walk lengths: a cell reached by a walk of [k] moves over cells that are
    not walls holds a level between 1 and [k + 1], and a cell that holds the
    level [d >= 1] is reached by a walk of exactly [d - 1] moves. *)
Theorem distance_map_is_shortest_walk (wall_layer : GridMap) (src : Position.t) :
  Position.is_valid src = true ->
  exists dm,
    compute_distance_map wall_layer (Position.x src) (Position.y src) = Some dm
    /\ (forall k p, open_walk wall_layer src k p ->
          1 <= dist_at dm p <= Z.of_nat k + 1)
    /\ (forall p, Position.is_valid p = true -> 1 <= dist_at dm p ->
          open_walk wall_layer src (Z.to_nat (dist_at dm p - 1)) p).
Proof.
  intros Hvalid.
  destruct (compute_distance_map_final wall_layer src Hvalid) as (dm & Hdm & Hfinal).
  exists dm. split; [exact Hdm |]. split.
  - intros k p Hwalk. eapply bfs_final_walk_bound; eassumption.
  - intros p Hp Hreach. eapply bfs_final_walk_exists; [exact Hfinal | exact Hp | lia].
Qed.

(** X2. The entries of the map computed from a source cell of the board:
    each lies between -1 and 121; -1 marks exactly the walls other than the
    source, 1 exactly the source, and 0 exactly the cells without a wall that
    no walk from the source reaches. *)
Theorem distance_map_entries (wall_layer : GridMap) (src : Position.t) :
  Position.is_valid src = true ->
  exists dm,
    compute_distance_map wall_layer (Position.x src) (Position.y src) = Some dm
    /\ grid_dims dm
    /\ forall p, Position.is_valid p = true ->
         -1 <= dist_at dm p <= 121
         /\ (dist_at dm p = -1 <-> ~ no_wall wall_layer p /\ p <> src)
         /\ (dist_at dm p = 1 <-> p = src)
         /\ (dist_at dm p = 0 <->
             no_wall wall_layer p /\ p <> src
             /\ ~ exists k, open_walk wall_layer src k p).
Proof.
  intros Hvalid.
  destruct (compute_distance_map_final wall_layer src Hvalid) as (dm & Hdm & Hfinal).
  exists dm. split; [exact Hdm |].
  pose proof Hfinal as (Hdims & Hmark & _ & _ & Hcap).
  split; [exact Hdims |]. intros p Hp. pose proof (Hcap p Hp) as Hle.
  assert (Hwalk0 : dist_at dm p = 0 -> ~ exists k, open_walk wall_layer src k p).
  { intros H0 [k Hwalk].
    pose proof (bfs_final_walk_bound _ _ _ _ _ Hvalid Hfinal Hwalk). lia. }
  assert (Hwalk2 : 1 <= dist_at dm p -> exists k, open_walk wall_layer src k p).
  { intros Hr. exists (Z.to_nat (dist_at dm p - 1)).
    eapply bfs_final_walk_exists; [exact Hfinal | exact Hp | lia]. }
  destruct (Hmark p Hp)
    as [(H1 & Hw & Hne) | [(H1 & Hw & Hne) | [(H1 & Heq) | (H1 & Hw & Hne & _)]]].
  - split; [lia |]. split; [tauto |]. split; [split; [lia | tauto] |].
    split; [lia | tauto].
  - split; [lia |]. split; [split; [lia | tauto] |]. split; [split; [lia | tauto] |].
    split; [intros _; auto | intros _; exact H1].
  - split; [lia |]. split; [split; [lia | tauto] |]. split; [tauto |].
    split; [lia | tauto].
  - split; [lia |]. split; [split; [lia | tauto] |]. split; [split; [lia | tauto] |].
    split; [lia |]. intros (_ & _ & Hno). exfalso. apply Hno, Hwalk2. lia.
Qed.

(** ** The command interpreter: actions and wall collisions *)

Lemma replay_app `{RandomEngine} (s : Simulator) (a b : list Z) : forall p idx,
  replay s (a ++ b) p idx
  = ((replay s b (replay s a p idx).1 (idx + Z.of_nat (length a))).1,
     (replay s a p idx).2
     ∪ (replay s b (replay s a p idx).1 (idx + Z.of_nat (length a))).2).
Proof.
  induction a as [| t a IH]; intros p idx.
  - simpl. rewrite Z.add_0_r. rewrite (left_id_L ∅ (∪)).
    destruct (replay s b p idx); reflexivity.
  - cbn [app replay length].
    replace (idx + Z.of_nat (S (length a))) with (idx + 1 + Z.of_nat (length a)) by lia.
    destruct (movable s p t).
    + apply IH.
    + rewrite IH. cbn [fst snd]. f_equal. rewrite (assoc_L (∪)). reflexivity.
Qed.

Lemma set_mouse_twice st p q : set_mouse (set_mouse st p) q = set_mouse st q.
Proof. reflexivity. Qed.

Lemma continues_refl `{RandomEngine} (s : Simulator) (e : Exec) : continues s e e.
Proof.
  exists []. simpl. rewrite app_nil_r, Z.add_0_r, set_mouse_same, (left_id_L ∅ (∪)).
  repeat split. constructor.
Qed.

Lemma continues_trans `{RandomEngine} (s : Simulator) (e1 e2 e3 : Exec) :
  continues s e1 e2 -> continues s e2 e3 -> continues s e1 e3.
Proof.
  intros (a & Ha & Hda & Hia & Hsa & Hwa) (b & Hb & Hdb & Hib & Hsb & Hwb).
  exists (a ++ b). rewrite replay_app. cbn [fst snd].
  rewrite Hsa in Hsb, Hwb. cbn [mouse set_mouse] in Hsb, Hwb.
  rewrite Hia in Hsb, Hwb.
  split; [rewrite Hb, Ha, app_assoc; reflexivity |].
  split; [apply Forall_app; split; assumption |].
  split; [rewrite Hib, Hia, length_app; lia |].
  split; [rewrite Hsb; reflexivity |].
  rewrite Hwb, Hwa. rewrite (assoc_L (∪)).
  f_equal. apply (comm_L (∪)).
Qed.

Lemma attempt_continues `{RandomEngine} (s : Simulator) (cmd : Z) (e : Exec) :
  Token.is_direction cmd = true -> continues s e (attempt s cmd e).
Proof.
  intros Hd. exists [cmd]. unfold attempt. cbn [replay length].
  destruct (movable s (mouse (sim_state e)) cmd); cbn [actions action_idx sim_state
    wall_collisions fst snd].
  - repeat split; [apply Forall_singleton; assumption |].
    rewrite (left_id_L ∅ (∪)). reflexivity.
  - rewrite set_mouse_same, (right_id_L ∅ (∪)).
    repeat split. apply Forall_singleton; assumption.
Qed.

Lemma loop_run_continues `{RandomEngine} (s : Simulator) (cmd : Z) (n : nat) :
  Token.is_direction cmd = true -> forall e, continues s e (loop_run n s cmd e).
Proof.
  intros Hd. induction n as [| n IH]; intros e; [apply continues_refl |].
  cbn [loop_run]. eapply continues_trans; [apply attempt_continues, Hd | apply IH].
Qed.

Lemma if_run_continues `{RandomEngine} (s : Simulator) (cmd : Z) (fuel : nat) :
  Token.is_direction cmd = true ->
  forall remaining e e', if_run fuel s cmd remaining e = Some e' -> continues s e e'.
Proof.
  intros Hd. induction fuel as [| fuel IH]; intros remaining e e'; cbn [if_run];
    destruct (remaining >? 0); try discriminate;
    try (intros [= <-]; apply continues_refl).
  destruct (movable s (mouse (sim_state e)) cmd) eqn:Hmov;
    [| intros [= <-]; apply continues_refl].
  intros Hrun. eapply continues_trans; [| eapply IH; exact Hrun].
  exists [cmd]. cbn [replay length actions action_idx sim_state wall_collisions].
  rewrite Hmov. cbn [replay fst snd]. rewrite (left_id_L ∅ (∪)).
  repeat split. apply Forall_singleton; assumption.
Qed.

Lemma machine_step_continues `{RandomEngine} (fuel : nat) (s : Simulator) (cmd : Z)
    (m m' : Machine) (e e' : Exec) :
  machine_step fuel s cmd m e = Some (m', e') -> continues s e e'.
Proof.
  unfold machine_step.
  repeat match goal with
         | |- context [if ?c then _ else _] => destruct c eqn:?
         end;
    try (intros [= <- <-]; apply continues_refl).
  - intros [= <- <-]. apply attempt_continues. assumption.
  - intros [= <- <-]. apply loop_run_continues.
    apply andb_true_iff in Heqb2 as [_ Hd]. exact Hd.
  - destruct (if_run fuel s cmd (n_iter m) e) as [e1 |] eqn:Hrun; [| discriminate].
    simpl. intros [= <- <-]. eapply if_run_continues; [| exact Hrun].
    apply andb_true_iff in Heqb3 as [_ Hd]. exact Hd.
Qed.

Lemma commands_loop_continues `{RandomEngine} (call1 call2 : Exec -> option Exec)
    (fuel : nat) (s : Simulator) (func1 func2 : list Z) :
  (forall e e', call1 e = Some e' -> continues s e e') ->
  (forall e e', call2 e = Some e' -> continues s e e') ->
  forall commands m e e',
    commands_loop call1 call2 fuel s func1 func2 commands m e = Some e' ->
    continues s e e'.
Proof.
  intros H1 H2. induction commands as [| cmd rest IH]; intros m e e'.
  - simpl. intros [= <-]. apply continues_refl.
  - cbn [commands_loop].
    destruct (cmd =? Token.END); [intros [= <-]; apply continues_refl |].
    destruct (cmd =? Token.EMPTY); [apply IH |].
    destruct ((cmd =? Token.FUNC_F1) && negb (is_empty func1)).
    { destruct (call1 e) as [e1 |] eqn:Hcall; [| discriminate]. simpl.
      intros Hrest. eapply continues_trans; [apply H1, Hcall | eapply IH, Hrest]. }
    destruct ((cmd =? Token.FUNC_F2) && negb (is_empty func2)).
    { destruct (call2 e) as [e1 |] eqn:Hcall; [| discriminate]. simpl.
      intros Hrest. eapply continues_trans; [apply H2, Hcall | eapply IH, Hrest]. }
    destruct (machine_step fuel s cmd m e) as [[m1 e1] |] eqn:Hstep; [| discriminate].
    simpl. intros Hrest.
    eapply continues_trans; [eapply machine_step_continues, Hstep | eapply IH, Hrest].
Qed.

Lemma process_commands_continues `{RandomEngine} (fuel : nat) (s : Simulator)
    (func1 func2 : list Z) : forall commands e e',
  process_commands fuel s commands func1 func2 e = Some e' -> continues s e e'.
Proof.
  induction fuel as [| fuel IH]; intros commands e e'; [discriminate |].
  cbn [process_commands]. apply commands_loop_continues; apply IH.
Qed.

(** The cell a replay ends on is its start cell or a cell of the board
    without a wall, and the blocked indices lie among those replayed. *)
Lemma replay_bounds `{RandomEngine} (s : Simulator) (acts : list Z) : forall p idx,
  Forall (fun a => Token.is_direction a = true) acts ->
  ((replay s acts p idx).1 = p \/ open_cell (state_ s) (replay s acts p idx).1 = true)
  /\ forall i, i ∈ (replay s acts p idx).2 -> idx <= i < idx + Z.of_nat (length acts).
Proof.
  induction acts as [| a acts IH]; intros p idx Hd.
  - simpl. split; [left; reflexivity |]. intros i Hi. set_solver.
  - apply Forall_cons in Hd as [Ha Hd]. cbn [replay length].
    destruct (movable s p a) eqn:Hmov.
    + destruct (IH (move_pos p a) (idx + 1) Hd) as [Hend Hidx]. split.
      * right. destruct Hend as [-> | Hopen]; [| exact Hopen].
        destruct (movable_room s p a Ha Hmov) as (-> & _). exact Hmov.
      * intros i Hi. specialize (Hidx i Hi). lia.
    + destruct (IH p (idx + 1) Hd) as [Hend Hidx]. cbn [fst snd].
      split; [exact Hend |].
      intros i Hi. apply elem_of_union in Hi as [Hi | Hi].
      * apply elem_of_singleton in Hi. lia.
      * specialize (Hidx i Hi). lia.
Qed.

(** X4. The wall-collision set that [get_mouse_actions] returns holds exactly
    the indices at which the returned actions, replayed one by one from the
    mouse cell against the stored wall layer, are blocked; the replay ends on
    the mouse cell of the scratch state, which is otherwise the state passed
    in. *)
Theorem wall_collisions_are_blocked_replays `{RandomEngine} (fuel : nat) (s : Simulator)
    (command func1 func2 : list Z) (st : GameState) (e : Exec) :
  get_mouse_actions fuel s command func1 func2 st = Some e ->
  replay s (actions e) (mouse st) 0 = (mouse (sim_state e), wall_collisions e)
  /\ sim_state e = set_mouse st (mouse (sim_state e)).
Proof.
  unfold get_mouse_actions. intros Hrun.
  apply process_commands_continues in Hrun as (added & Ha & _ & _ & Hs & Hw).
  cbn [actions action_idx sim_state wall_collisions app] in *.
  rewrite Ha, Hs, Hw. cbn [mouse set_mouse]. rewrite (right_id_L ∅ (∪)).
  split; [| reflexivity].
  destruct (replay s added (mouse st) 0); reflexivity.
Qed.

(** X5. Whatever the program, the actions that [get_mouse_actions] returns
    are direction tokens, the running index equals their number, every
    recorded wall-collision index is the index of a returned action, and the
    mouse of the scratch state is on its start cell or on a cell of the board
    without a wall. *)
Theorem mouse_actions_are_well_formed `{RandomEngine} (fuel : nat) (s : Simulator)
    (command func1 func2 : list Z) (st : GameState) (e : Exec) :
  get_mouse_actions fuel s command func1 func2 st = Some e ->
  Forall (fun a => Token.is_direction a = true) (actions e)
  /\ action_idx e = Z.of_nat (length (actions e))
  /\ (forall i, i ∈ wall_collisions e -> 0 <= i < Z.of_nat (length (actions e)))
  /\ (mouse (sim_state e) = mouse st
      \/ open_cell (state_ s) (mouse (sim_state e)) = true).
Proof.
  unfold get_mouse_actions. intros Hrun.
  apply process_commands_continues in Hrun as (added & Ha & Hd & Hi & Hs & Hw).
  cbn [actions action_idx sim_state wall_collisions app] in *.
  destruct (replay_bounds s added (mouse st) 0 Hd) as [Hend Hidx].
  rewrite Ha, Hi, Hs, Hw. cbn [mouse set_mouse]. rewrite (right_id_L ∅ (∪)).
  split; [exact Hd |]. split; [lia |]. split; [| exact Hend].
  intros i Hin. specialize (Hidx i Hin). lia.
Qed.

Lemma loop_run_actions `{RandomEngine} (s : Simulator) (d : Z) (n : nat) : forall e,
  actions (loop_run n s d e) = actions e ++ replicate n d
  /\ action_idx (loop_run n s d e) = action_idx e + Z.of_nat n.
Proof.
  induction n as [| n IH]; intros e.
  - simpl. rewrite app_nil_r. split; [reflexivity | lia].
  - cbn [loop_run replicate]. destruct (IH (attempt s d e)) as [-> ->].
    unfold attempt. destruct (movable s (mouse (sim_state e)) d);
      cbn [actions action_idx]; rewrite <- app_assoc; split; (reflexivity || lia).
Qed.

(** X6. In the NORMAL state the tokens "LOOP, count, direction" make exactly
    count attempts in that direction, count being the digit of the count
    token and ten for the token 100: one action is appended per attempt, moved
    or blocked, and the machine is back in the NORMAL state for the rest of
    the sequence. *)
Theorem loop_count_direction_attempts `{RandomEngine}
    (call1 call2 : Exec -> option Exec) (fuel : nat) (s : Simulator)
    (func1 func2 rest : list Z) (m : Machine) (e : Exec) (num d : Z) :
  need_next m = 0 ->
  Token.is_num num = true ->
  Token.is_direction d = true ->
  1 <= Token.get_num_value num <= 10
  /\ commands_loop call1 call2 fuel s func1 func2 (Token.LOOP :: num :: d :: rest) m e
     = commands_loop call1 call2 fuel s func1 func2 rest
         (mkMachine 0 0 (Token.get_num_value num))
         (loop_run (Z.to_nat (Token.get_num_value num)) s d e)
  /\ actions (loop_run (Z.to_nat (Token.get_num_value num)) s d e)
     = actions e ++ replicate (Z.to_nat (Token.get_num_value num)) d
  /\ action_idx (loop_run (Z.to_nat (Token.get_num_value num)) s d e)
     = action_idx e + Token.get_num_value num.
Proof.
  intros Hneed Hnum Hd.
  assert (Hrange : 100 <= num <= 109).
  { unfold Token.is_num, Token.NUM_BASE, Token.NUM_9 in Hnum.
    apply andb_true_iff in Hnum as [Hlo Hhi]. lia. }
  assert (Hn : 1 <= Token.get_num_value num <= 10).
  { unfold Token.get_num_value, Token.NUM_10, Token.NUM_BASE.
    destruct (num =? 100) eqn:H100; [lia |]. apply Z.eqb_neq in H100. lia. }
  destruct (direction_not_control d Hd) as (Hend & Hempty & Hf1 & Hf2).
  destruct (loop_run_actions s d (Z.to_nat (Token.get_num_value num)) e) as [Hact Hidx].
  split; [exact Hn |]. split; [| split; [exact Hact | rewrite Hidx; lia]].
  assert (Hstep : forall cmd m0 e0 m1 e1 tail,
            reaches_machine func1 func2 cmd = true ->
            machine_step fuel s cmd m0 e0 = Some (m1, e1) ->
            commands_loop call1 call2 fuel s func1 func2 (cmd :: tail) m0 e0
            = commands_loop call1 call2 fuel s func1 func2 tail m1 e1).
  { intros cmd m0 e0 m1 e1 tail Hreach Hm.
    apply reaches_machine_spec in Hreach as (H1 & H2 & H3 & H4).
    cbn [commands_loop]. rewrite H1, H2, H3, H4, Hm. reflexivity. }
  rewrite (Hstep Token.LOOP m e (mkMachine Token.LOOP (pc m) (n_iter m)) e).
  2:{ reflexivity. }
  2:{ unfold machine_step. rewrite Hneed. reflexivity. }
  rewrite (Hstep num _ e (mkMachine num Token.LOOP (Token.get_num_value num)) e).
  2:{ unfold reaches_machine, Token.END, Token.EMPTY, Token.FUNC_F1, Token.FUNC_F2.
      replace (num =? 112) with false by (symmetry; apply Z.eqb_neq; lia).
      replace (num =? 999) with false by (symmetry; apply Z.eqb_neq; lia).
      replace (num =? 10) with false by (symmetry; apply Z.eqb_neq; lia).
      replace (num =? 11) with false by (symmetry; apply Z.eqb_neq; lia).
      reflexivity. }
  2:{ unfold machine_step. cbn [need_next pc n_iter]. rewrite Hnum. reflexivity. }
  apply Hstep.
  - unfold reaches_machine. rewrite Hend, Hempty, Hf1, Hf2. reflexivity.
  - unfold machine_step. cbn [need_next pc n_iter].
    unfold Token.LOOP, Token.IF.
    replace (num =? 0) with false by (symmetry; apply Z.eqb_neq; lia).
    replace (num =? 110) with false by (symmetry; apply Z.eqb_neq; lia).
    replace (num =? 5) with false by (symmetry; apply Z.eqb_neq; lia).
    rewrite Hd. reflexivity.
Qed.



(** Beyond [2 ^ 24] the result keeps a significand [q] of 24 bits (or moves
    up to the next power of two) and is no further from the argument than
    half a unit of its last place. *)
Lemma static_cast_float_nearest (v : Z) :
  2 ^ 24 <= Z.abs v ->
  exists q : Z,
    2 ^ 23 <= q <= 2 ^ 24
    /\ static_cast_float v = Z.sgn v * (q * 2 ^ (Z.log2 (Z.abs v) - 23))
    /\ 2 * Z.abs (static_cast_float v - v) <= 2 ^ (Z.log2 (Z.abs v) - 23).
Proof.
  intros Hv. unfold static_cast_float.
  destruct (Z.abs v <? 2 ^ 24) eqn:Hlt; [apply Z.ltb_lt in Hlt; lia |].
  set (n := Z.abs v) in *.
  assert (Hlog : 24 <= Z.log2 n) by (apply Z.log2_le_pow2; lia).
  set (e := Z.log2 n - 23).
  assert (He : 1 <= e) by (unfold e; lia).
  assert (Hpow : 2 ^ e = 2 * 2 ^ (e - 1)).
  { replace e with (Z.succ (e - 1)) at 1 by lia. apply Z.pow_succ_r. lia. }
  assert (Hhalf : 0 < 2 ^ (e - 1)) by (apply Z.pow_pos_nonneg; lia).
  pose proof (Z.div_mod n (2 ^ e) ltac:(lia)) as Hdm.
  pose proof (Z.mod_pos_bound n (2 ^ e) ltac:(lia)) as Hr.
  destruct (Z.log2_spec n ltac:(lia)) as [Hlo Hhi].
  assert (Hsplit : 2 ^ Z.log2 n = 2 ^ 23 * 2 ^ e).
  { rewrite <- Z.pow_add_r by lia. f_equal. unfold e. lia. }
  assert (Hsplit' : 2 ^ Z.succ (Z.log2 n) = 2 ^ 24 * 2 ^ e).
  { rewrite <- Z.pow_add_r by lia. f_equal. unfold e. lia. }
  set (q := n / 2 ^ e) in *. set (r := n mod 2 ^ e) in *.
  assert (Hq : 2 ^ 23 <= q < 2 ^ 24) by nia.
  set (c := (2 ^ (e - 1) <? r) || ((r =? 2 ^ (e - 1)) && Z.odd q)).
  assert (Hc : (c = true -> 2 ^ (e - 1) <= r) /\ (c = false -> r <= 2 ^ (e - 1))).
  { unfold c. split; intros Hc.
    - apply orb_true_iff in Hc as [Hc | Hc]; [apply Z.ltb_lt in Hc; lia |].
      apply andb_true_iff in Hc as [Hc _]. apply Z.eqb_eq in Hc. lia.
    - apply orb_false_iff in Hc as [Hc _]. apply Z.ltb_ge in Hc. lia. }
  exists (if c then q + 1 else q).
  destruct Hc as [Ht Hf].
  split; [destruct c; lia |]. split; [reflexivity |].
  assert (Hsgn : v = Z.sgn v * n) by (unfold n; lia).
  assert (Hs : Z.sgn v = 1 \/ Z.sgn v = -1) by lia.
  destruct c.
  - specialize (Ht eq_refl). destruct Hs as [Hs | Hs]; rewrite Hs in *; nia.
  - specialize (Hf eq_refl). destruct Hs as [Hs | Hs]; rewrite Hs in *; nia.
Qed.

(** Ties go to the even significand. *)
Lemma static_cast_float_rounds_to_even :
  static_cast_float 16777217 = 16777216
  /\ static_cast_float 16777219 = 16777220
  /\ static_cast_float (-16777217) = -16777216
  /\ static_cast_float 2147483647 = 2147483648.
Proof. repeat split; reflexivity. Qed.


(** ** The planned actions *)

(** [move_pos] clamps: its result is on the board, whatever the arguments. *)
Lemma move_pos_on_board p d : Position.is_valid (move_pos p d) = true.
Proof.
  apply is_valid_spec. unfold move_pos, MAP_SIZE.
  change (to_int8 (11 - 1)) with 10. simpl. lia.
Qed.

Lemma open_cell_valid st p : open_cell st p = true -> Position.is_valid p = true.
Proof. unfold open_cell. intros Hopen. apply andb_true_iff in Hopen as [Hv _]. exact Hv. Qed.

Lemma plan_junction_probe_found `{RandomEngine} (st : GameState) (v : Virtual)
    (tries : nat) : forall (s : Simulator) v',
  (plan_junction_probe tries st v s).1 = Some v' ->
  length (planned v') = S (length (planned v))
  /\ Position.is_valid (virtual_pos v') = true.
Proof.
  induction tries as [| tries IH]; intros s v'; [discriminate |].
  cbn [plan_junction_probe]. unfold sim_bind, draw.
  destruct (uniform_int_distribution 0 (Direction.COUNT - 1) (rng_ s)) as [dir r].
  destruct (dir =? Direction.OPPOSITE (virtual_dir v)); [apply IH |].
  destruct (open_cell st (Position.move (virtual_pos v) dir)) eqn:Hopen; [| apply IH].
  simpl. intros [= <-]. simpl. rewrite length_app. simpl.
  split; [lia | eapply open_cell_valid; eassumption].
Qed.

Lemma plan_blocked_probe_found `{RandomEngine} (st : GameState) (v : Virtual)
    (tries : nat) : forall (s : Simulator) v',
  (plan_blocked_probe tries st v s).1 = Some v' ->
  length (planned v') = S (length (planned v))
  /\ Position.is_valid (virtual_pos v') = true.
Proof.
  induction tries as [| tries IH]; intros s v'; [discriminate |].
  cbn [plan_blocked_probe]. unfold sim_bind, draw.
  destruct (uniform_int_distribution 0 (Direction.COUNT - 1) (rng_ s)) as [dir r].
  destruct (open_cell st (Position.move (virtual_pos v) dir)) eqn:Hopen; [| apply IH].
  simpl. intros [= <-]. simpl. rewrite length_app. simpl.
  split; [lia | eapply open_cell_valid; eassumption].
Qed.

Lemma plan_not_found_one_more v : one_more_planned v (plan_not_found v).
Proof.
  unfold one_more_planned, plan_not_found. cbn [planned virtual_pos].
  rewrite length_app. simpl. split; [lia | auto].
Qed.

(** Every branch of a planning step appends exactly one action. *)
Lemma plan_step_one_more `{RandomEngine} (st : GameState) (v : Virtual) (s : Simulator) :
  one_more_planned v (plan_step st v s).1.
Proof.
  unfold plan_step, sim_bind, sim_get, sim_ret.
  generalize Config.MAX_RANDOM_TRIES. intros tries.
  destruct (negb (grid_at (junc st) (Position.x (virtual_pos v))
                          (Position.y (virtual_pos v)) =? 0)).
  - pose proof (plan_junction_probe_found st v tries s) as Hfound.
    destruct (plan_junction_probe tries st v s) as [[v' |] s1]; simpl.
    + destruct (Hfound v' eq_refl) as [Hlen Hv]. split; [exact Hlen | auto].
    + apply plan_not_found_one_more.
  - destruct (movable s (virtual_pos v) (virtual_dir v)).
    + unfold one_more_planned. cbn [fst planned virtual_pos].
      split; [rewrite length_app; simpl; lia |].
      intros _. apply move_pos_on_board.
    + pose proof (plan_blocked_probe_found st v tries s) as Hfound.
      destruct (plan_blocked_probe tries st v s) as [[v' |] s1]; simpl.
      * destruct (Hfound v' eq_refl) as [Hlen Hv]. split; [exact Hlen | auto].
      * apply plan_not_found_one_more.
Qed.

Lemma plan_cats_loop_lengths `{RandomEngine} (st : GameState) (n : nat) :
  forall (c0 c1 : Virtual) (s : Simulator),
    length (planned (plan_cats_loop n st c0 c1 s).1.1) = (length (planned c0) + n)%nat
    /\ length (planned (plan_cats_loop n st c0 c1 s).1.2) = (length (planned c1) + n)%nat.
Proof.
  induction n as [| n IH]; intros c0 c1 s.
  - simpl. split; lia.
  - cbn [plan_cats_loop]. unfold sim_bind.
    pose proof (plan_step_one_more st c0 s) as [H0 _].
    destruct (plan_step st c0 s) as [c0' s1]. simpl in H0.
    pose proof (plan_step_one_more st c1 s1) as [H1 _].
    destruct (plan_step st c1 s1) as [c1' s2]. simpl in H1.
    destruct (IH c0' c1' s2) as [Ha Hb]. rewrite Ha, Hb, H0, H1. split; lia.
Qed.

(** X8. The planning pass hands each pursuer exactly one planned action per
    mouse action, whatever the generator draws: in the tick loop the plan of a
    pursuer has an entry at every index the loop visits. *)
Theorem pursuer_plans_cover_every_tick `{RandomEngine} (mouse_actions : list Z)
    (st : GameState) (s : Simulator) :
  length (pre_calculate_cat_actions mouse_actions st s).1.1 = length mouse_actions
  /\ length (pre_calculate_cat_actions mouse_actions st s).1.2 = length mouse_actions
  /\ forall itr : nat, (itr < length mouse_actions)%nat ->
       is_Some ((pre_calculate_cat_actions mouse_actions st s).1.1 !! itr)
       /\ is_Some ((pre_calculate_cat_actions mouse_actions st s).1.2 !! itr).
Proof.
  unfold pre_calculate_cat_actions, sim_bind.
  pose proof (plan_cats_loop_lengths st (length mouse_actions)
                (virtual_of (fst (cats st))) (virtual_of (snd (cats st))) s) as [H0 H1].
  destruct (plan_cats_loop (length mouse_actions) st (virtual_of (fst (cats st)))
              (virtual_of (snd (cats st))) s) as [[c0 c1] s1].
  simpl in *. split; [exact H0 |]. split; [exact H1 |].
  intros itr Hitr. split; apply lookup_lt_is_Some; lia.
Qed.

Lemma plan_crzbc_step_lengths `{RandomEngine} (st : GameState) (is_active : bool)
    (v : Virtual) (s : Simulator) :
  let v' := (plan_crzbc_step st is_active v s).1 in
  Position.is_valid (virtual_pos v') = Position.is_valid (virtual_pos v)
  /\ length (planned v')
     = (length (planned v)
        + (if is_active && Position.is_valid (virtual_pos v) then 1 else 0))%nat.
Proof.
  unfold plan_crzbc_step, sim_ret. cbv zeta.
  destruct is_active; cbn [negb andb fst]; [| split; [reflexivity | lia]].
  destruct (Position.is_valid (virtual_pos v)) eqn:Hvalid; cbn [negb fst];
    [| split; [assumption | lia]].
  destruct (plan_step_one_more st v s) as [Hlen Hv].
  split; [apply Hv, Hvalid | rewrite Hlen, Nat.add_1_r; reflexivity].
Qed.

Lemma plan_crzbc_loop_lengths `{RandomEngine} (st : GameState) (n : nat) :
  forall (b0 b1 : Virtual) (s : Simulator),
    length (planned (plan_crzbc_loop n st b0 b1 s).1.1)
    = (length (planned b0)
       + (if active (fst (crzbc st)) && Position.is_valid (virtual_pos b0)
          then n else 0))%nat
    /\ length (planned (plan_crzbc_loop n st b0 b1 s).1.2)
       = (length (planned b1)
          + (if active (snd (crzbc st)) && Position.is_valid (virtual_pos b1)
             then n else 0))%nat.
Proof.
  induction n as [| n IH]; intros b0 b1 s.
  - simpl. split;
      match goal with |- context [if ?c then _ else _] => destruct c end; lia.
  - cbn [plan_crzbc_loop]. unfold sim_bind.
    pose proof (plan_crzbc_step_lengths st (active (fst (crzbc st))) b0 s) as [Hv0 H0].
    destruct (plan_crzbc_step st (active (fst (crzbc st))) b0 s) as [b0' s1].
    pose proof (plan_crzbc_step_lengths st (active (snd (crzbc st))) b1 s1) as [Hv1 H1].
    destruct (plan_crzbc_step st (active (snd (crzbc st))) b1 s1) as [b1' s2].
    simpl in Hv0, H0, Hv1, H1.
    destruct (IH b0' b1' s2) as [Ha Hb]. rewrite Ha, Hb, H0, H1, Hv0, Hv1.
    split;
      match goal with |- context [if ?c then _ else _] => destruct c end; lia.
Qed.

(** X9. The plan of a roaming item has one action per token of the program
    up to and including END when the item is active and on the board, and is
    empty otherwise; past that many ticks the tick loop leaves the item where
    it is. *)
Theorem roaming_plans_end_with_the_program `{RandomEngine} (n_moves : Z)
    (st : GameState) (s : Simulator) :
  let plans := (pre_calculate_crzbc_actions n_moves st s).1 in
  length plans.1
  = (if active (fst (crzbc st)) && Position.is_valid (pos (fst (crzbc st)))
     then Z.to_nat n_moves else 0%nat)
  /\ length plans.2
     = (if active (snd (crzbc st)) && Position.is_valid (pos (snd (crzbc st)))
        then Z.to_nat n_moves else 0%nat)
  /\ forall (s' : Simulator) (itr : nat) (now : GameState),
       (Z.to_nat n_moves <= itr)%nat ->
       tick_crzbc s' 0 plans.1 itr now = now /\ tick_crzbc s' 1 plans.2 itr now = now.
Proof.
  unfold pre_calculate_crzbc_actions, sim_bind.
  pose proof (plan_crzbc_loop_lengths st (Z.to_nat n_moves)
                (virtual_of (fst (crzbc st))) (virtual_of (snd (crzbc st))) s) as [H0 H1].
  destruct (plan_crzbc_loop (Z.to_nat n_moves) st (virtual_of (fst (crzbc st)))
              (virtual_of (snd (crzbc st))) s) as [[b0 b1] s1].
  simpl in *. split; [exact H0 |]. split; [exact H1 |].
  intros s' itr now Hitr. unfold tick_crzbc.
  assert (Hn0 : planned b0 !! itr = None).
  { apply lookup_ge_None. rewrite H0.
    match goal with |- context [if ?c then _ else _] => destruct c end; lia. }
  assert (Hn1 : planned b1 !! itr = None).
  { apply lookup_ge_None. rewrite H1.
    match goal with |- context [if ?c then _ else _] => destruct c end; lia. }
  rewrite Hn0, Hn1. split; destruct (negb _); reflexivity.
Qed.

(** ** What the tick loop changes *)

Lemma same_board_refl st : same_board st st.
Proof. repeat split. Qed.

Lemma same_board_trans st1 st2 st3 :
  same_board st1 st2 -> same_board st2 st3 -> same_board st1 st3.
Proof. unfold same_board. intuition congruence. Qed.

Lemma moved_to_refl `{RandomEngine} (s : Simulator) p : moved_to s p p.
Proof. left. reflexivity. Qed.

Lemma moved_to_trans `{RandomEngine} (s : Simulator) p1 p2 p3 :
  moved_to s p1 p2 -> moved_to s p2 p3 -> moved_to s p1 p3.
Proof. unfold moved_to. intros [-> | H1] [-> | H2]; auto. Qed.

Lemma moved_to_movable `{RandomEngine} (s : Simulator) p a :
  movable s p a = true -> moved_to s p (move_pos p a).
Proof.
  intros Hmov. right. rewrite move_pos_valid; [exact Hmov |].
  eapply open_cell_valid. exact Hmov.
Qed.

Lemma pursuer_step_refl `{RandomEngine} (s : Simulator) c : pursuer_step s c c.
Proof. repeat split. apply moved_to_refl. Qed.

Lemma pursuer_step_trans `{RandomEngine} (s : Simulator) c1 c2 c3 :
  pursuer_step s c1 c2 -> pursuer_step s c2 c3 -> pursuer_step s c1 c3.
Proof.
  intros (A1 & D1 & M1) (A2 & D2 & M2).
  split; [congruence |]. split; [congruence |]. eapply moved_to_trans; eassumption.
Qed.

Lemma stationary_step_refl b : stationary_step b b.
Proof. repeat split. auto. Qed.

Lemma stationary_step_trans b1 b2 b3 :
  stationary_step b1 b2 -> stationary_step b2 b3 -> stationary_step b1 b3.
Proof. unfold stationary_step. intuition congruence. Qed.

Lemma roaming_step_refl `{RandomEngine} (s : Simulator) b : roaming_step s b b.
Proof. repeat split; auto. apply moved_to_refl. Qed.

Lemma roaming_step_trans `{RandomEngine} (s : Simulator) b1 b2 b3 :
  roaming_step s b1 b2 -> roaming_step s b2 b3 -> roaming_step s b1 b3.
Proof.
  intros (L1 & D1 & A1 & M1 & I1) (L2 & D2 & A2 & M2 & I2).
  split; [congruence |]. split; [congruence |]. split; [auto |].
  split; [eapply moved_to_trans; eassumption |].
  intros Hoff. rewrite I2, I1; [reflexivity | assumption |].
  destruct (active b2) eqn:Hb2; [| reflexivity]. rewrite A1 in Hoff; [discriminate | reflexivity].
Qed.

Lemma evolves_refl `{RandomEngine} (s : Simulator) st : evolves s st st.
Proof.
  split; [apply same_board_refl |]. split; [auto |]. split; [auto |].
  split; [apply moved_to_refl |].
  split; [apply pursuer_step_refl |]. split; [apply pursuer_step_refl |].
  split; [apply stationary_step_refl |]. split; [apply stationary_step_refl |].
  split; [apply roaming_step_refl |]. split; [apply roaming_step_refl |]. auto.
Qed.

Lemma evolves_trans `{RandomEngine} (s : Simulator) st1 st2 st3 :
  evolves s st1 st2 -> evolves s st2 st3 -> evolves s st1 st3.
Proof.
  intros (B1 & S1 & W1 & M1 & C1 & C1' & V1 & V1' & Z1 & Z1' & D1)
         (B2 & S2 & W2 & M2 & C2 & C2' & V2 & V2' & Z2 & Z2' & D2).
  split; [eapply same_board_trans; eassumption |]. split.
  { intros i j. destruct (S2 i j) as [-> | ->]; [apply S1 | right; reflexivity]. }
  split; [auto |].
  split; [eapply moved_to_trans; eassumption |].
  split; [eapply pursuer_step_trans; eassumption |].
  split; [eapply pursuer_step_trans; eassumption |].
  split; [eapply stationary_step_trans; eassumption |].
  split; [eapply stationary_step_trans; eassumption |].
  split; [eapply roaming_step_trans; eassumption |].
  split; [eapply roaming_step_trans; eassumption |]. auto.
Qed.

(** A tactic for the steps that write one field: all other clauses hold by
    reflexivity. *)
Ltac evolves_frame :=
  repeat match goal with
         | |- _ /\ _ => split
         | |- same_board _ _ => unfold same_board; repeat split
         | |- moved_to _ _ _ => apply moved_to_refl
         | |- pursuer_step _ _ _ => apply pursuer_step_refl
         | |- stationary_step _ _ => apply stationary_step_refl
         | |- roaming_step _ _ _ => apply roaming_step_refl
         | |- forall i j, _ \/ _ => intros ? ?; left; reflexivity
         | |- _ = _ => reflexivity
         | |- _ -> _ => intros ?; assumption
         end.

Lemma tick_mouse_evolves `{RandomEngine} (s : Simulator) (action : Z) (st : GameState) :
  evolves s st (tick_mouse s action st).
Proof.
  unfold tick_mouse. cbn [mouse set_mouse_last].
  destruct (movable s (mouse st) action) eqn:Hmov.
  - unfold evolves. cbn. evolves_frame. apply moved_to_movable, Hmov.
  - unfold evolves. cbn. evolves_frame.
Qed.

Lemma tick_cat_evolves `{RandomEngine} (s : Simulator) (me other : nat) (plan : list Z)
    (itr : nat) (st : GameState) :
  (me = 0%nat /\ other = 1%nat) \/ (me = 1%nat /\ other = 0%nat) ->
  evolves s st (tick_cat s me other plan itr st).
Proof.
  intros Hslots. unfold tick_cat.
  destruct (plan !! itr) as [a |]; [| apply evolves_refl].
  destruct (movable s (pos (roster_at (cats st) me)) a) eqn:Hmov; [| apply evolves_refl].
  destruct (negb (Position.eqb (move_pos (pos (roster_at (cats st) me)) a)
                               (pos (roster_at (cats st) other)))) eqn:Hfree;
    [| apply evolves_refl].
  apply negb_true_iff in Hfree.
  assert (Hne : move_pos (pos (roster_at (cats st) me)) a
                <> pos (roster_at (cats st) other)).
  { intros Heq. apply position_eqb_eq in Heq. congruence. }
  pose proof (moved_to_movable s _ a Hmov) as Hmoved.
  destruct Hslots as [[-> ->] | [-> ->]]; cbn [roster_at roster_set] in *;
    unfold evolves; cbn; evolves_frame; try assumption.
  - repeat split; assumption.
  - repeat split; assumption.
  - intros _ Heq. apply Hne. symmetry. assumption.
Qed.

Lemma tick_crzbc_evolves `{RandomEngine} (s : Simulator) (j : nat) (plan : list Z)
    (itr : nat) (st : GameState) :
  evolves s st (tick_crzbc s j plan itr st).
Proof.
  unfold tick_crzbc.
  destruct (negb (active (roster_at (crzbc st) j))) eqn:Hact; [apply evolves_refl |].
  apply negb_false_iff in Hact.
  destruct (plan !! itr) as [a |]; [| apply evolves_refl].
  destruct (movable s (pos (roster_at (crzbc st) j)) a) eqn:Hmov; [| apply evolves_refl].
  match goal with |- context [if negb ?c then _ else _] => destruct (negb c) end;
    [| apply evolves_refl].
  pose proof (moved_to_movable s _ a Hmov) as Hmoved.
  destruct j as [| j]; cbn [roster_at roster_set] in *;
    unfold evolves; cbn; evolves_frame; try assumption.
  - repeat split; auto. intros Hoff. congruence.
  - repeat split; auto. intros Hoff. congruence.
Qed.

Lemma tick_catch_state (ci : nat) (r : Run) (was : bool) :
  run_state (tick_catch ci (r, was)).1 = run_state r
  /\ virtual_life r - 1 <= virtual_life (tick_catch ci (r, was)).1 <= virtual_life r
  /\ (was = true -> (tick_catch ci (r, was)).2 = true)
  /\ (virtual_life (tick_catch ci (r, was)).1 < virtual_life r ->
      (tick_catch ci (r, was)).2 = true).
Proof.
  unfold tick_catch.
  destruct (negb (active (roster_at (cats (run_state r)) ci))); [simpl; repeat split; (lia || auto) |].
  match goal with |- context [if ?c then _ else _] => destruct c end;
    simpl; repeat split; (lia || auto).
Qed.

Lemma collect_step (at_mouse : Position.t) (bc : Entity) (points : Z) :
  stationary_step bc (collect at_mouse bc points).1.
Proof.
  unfold collect. destruct (negb (active bc)); [apply stationary_step_refl |].
  destruct (Position.eqb at_mouse (pos bc)); [| apply stationary_step_refl].
  simpl. repeat split. discriminate.
Qed.

Lemma collect_roster_step (at_mouse : Position.t) (r : Roster) (points : Z) :
  stationary_step (fst r) (fst (collect_roster at_mouse r points).1)
  /\ stationary_step (snd r) (snd (collect_roster at_mouse r points).1).
Proof.
  unfold collect_roster.
  pose proof (collect_step at_mouse (fst r) points) as H0.
  destruct (collect at_mouse (fst r) points) as [b0 p0].
  pose proof (collect_step at_mouse (snd r) p0) as H1.
  destruct (collect at_mouse (snd r) p0) as [b1 p1]. simpl in *. split; assumption.
Qed.

Lemma tick_movbc_evolves `{RandomEngine} (s : Simulator) (r : Run) :
  evolves s (run_state r) (run_state (tick_movbc r))
  /\ virtual_life (tick_movbc r) = virtual_life r.
Proof.
  unfold tick_movbc.
  pose proof (collect_roster_step (mouse (run_state r)) (movbc (run_state r))
                (virtual_score r)) as [H0 H1].
  destruct (collect_roster (mouse (run_state r)) (movbc (run_state r)) (virtual_score r))
    as [bcs points].
  simpl in H0, H1. split; [| reflexivity].
  unfold evolves. cbn. evolves_frame; assumption.
Qed.

Lemma stationary_is_roaming `{RandomEngine} (s : Simulator) b b' :
  stationary_step b b' -> roaming_step s b b'.
Proof.
  intros (P & L & D & A). split; [assumption |]. split; [assumption |].
  split; [assumption |]. split; [left; assumption | intros _; assumption].
Qed.

Lemma tick_crzbc_collect_evolves `{RandomEngine} (s : Simulator) (r : Run) :
  evolves s (run_state r) (run_state (tick_crzbc_collect r))
  /\ virtual_life (tick_crzbc_collect r) = virtual_life r.
Proof.
  unfold tick_crzbc_collect.
  pose proof (collect_roster_step (mouse (run_state r)) (crzbc (run_state r))
                (virtual_score r)) as [H0 H1].
  destruct (collect_roster (mouse (run_state r)) (crzbc (run_state r)) (virtual_score r))
    as [bcs points].
  simpl in H0, H1. split; [| reflexivity].
  unfold evolves. cbn. evolves_frame; apply stationary_is_roaming; assumption.
Qed.

Lemma grid_set_zero_cases g i j i' j' :
  grid_at (grid_set g i j 0) i' j' = grid_at g i' j'
  \/ grid_at (grid_set g i j 0) i' j' = 0.
Proof.
  destruct (decide ((i, j) = (i', j'))) as [[= <- <-] | Hne].
  - right. unfold grid_at, grid_set.
    destruct ((i <? 0) || (j <? 0)) eqn:Hneg; [reflexivity |].
    rewrite list_lookup_alter_eq. destruct (g !! Z.to_nat i) as [row |]; simpl; [| reflexivity].
    destruct (decide (Z.to_nat j < length row)%nat) as [Hlt | Hge].
    + rewrite list_lookup_insert_eq by assumption. reflexivity.
    + rewrite list_insert_ge by lia.
      rewrite (proj2 (lookup_ge_None row (Z.to_nat j))) by lia. reflexivity.
  - left. apply grid_at_set_other. assumption.
Qed.

Lemma tick_sc_evolves `{RandomEngine} (s : Simulator) (r : Run) :
  evolves s (run_state r) (run_state (tick_sc r))
  /\ virtual_life (tick_sc r) = virtual_life r.
Proof.
  unfold tick_sc.
  destruct (negb (grid_at (sc (run_state r)) (Position.x (mouse (run_state r)))
                          (Position.y (mouse (run_state r))) =? 0));
    [| split; [apply evolves_refl | reflexivity]].
  split; [| reflexivity]. unfold evolves. cbn.
  split; [unfold same_board; repeat split |].
  split; [intros i j; apply grid_set_zero_cases |].
  evolves_frame.
Qed.

Lemma award_victory_evolves `{RandomEngine} (s : Simulator) (r : Run) :
  evolves s (run_state r) (run_state (award_victory r))
  /\ virtual_life (award_victory r) = virtual_life r.
Proof.
  unfold award_victory. split; [| reflexivity]. unfold evolves. cbn. evolves_frame.
  reflexivity.
Qed.

Lemma tick_finish_evolves `{RandomEngine} (s : Simulator) (r : Run) (was : bool) :
  evolves s (run_state r) (run_state (tick_finish r was).1)
  /\ virtual_life (tick_finish r was).1 = virtual_life r
  /\ (was = true -> (tick_finish r was).2 = true).
Proof.
  unfold tick_finish.
  destruct (virtual_life r <=? 0); [simpl; split; [apply evolves_refl | auto] |].
  destruct (count_remaining_cheese (run_state r) =? 0).
  { simpl. destruct (award_victory_evolves s r) as [He Hl]. auto. }
  destruct (step (run_state r) >=? step_limit (run_state r));
    simpl; split; (apply evolves_refl || auto).
Qed.

(** One tick: what it changes of the scratch state and of the lives. *)
Lemma tick_evolves `{RandomEngine} (s : Simulator) (wall_hits : gset Z)
    (command_length : Z) (cat_actions crzbc_actions : list Z * list Z)
    (itr : nat) (action : Z) (r : Run) :
  let out := tick s wall_hits command_length cat_actions crzbc_actions itr action r in
  evolves s (run_state r) (run_state out.1)
  /\ virtual_life r - 2 <= virtual_life out.1 <= virtual_life r
  /\ (virtual_life out.1 < virtual_life r -> out.2 = true).
Proof.
  cbv zeta. unfold tick.
  set (points := if bool_decide (Z.of_nat itr ∈ wall_hits)
                 then virtual_score r + Score.WALL_COLLISION else virtual_score r).
  set (st1 := tick_mouse s action (run_state r)).
  set (st2 := tick_cat s 1 0 (snd cat_actions) itr st1).
  set (st3 := if Z.of_nat itr <? command_length
              then tick_cat s 0 1 (fst cat_actions) itr st2 else st2).
  set (st4 := tick_crzbc s 0 (fst crzbc_actions) itr st3).
  set (st5 := tick_crzbc s 1 (snd crzbc_actions) itr st4).
  assert (E5 : evolves s (run_state r) st5).
  { eapply evolves_trans; [| apply tick_crzbc_evolves].
    eapply evolves_trans; [| apply tick_crzbc_evolves].
    eapply evolves_trans with st2.
    - eapply evolves_trans; [apply tick_mouse_evolves |].
      apply tick_cat_evolves. right. split; reflexivity.
    - unfold st3. destruct (Z.of_nat itr <? command_length); [| apply evolves_refl].
      apply tick_cat_evolves. left. split; reflexivity. }
  set (r0 := mkRun st5 points (virtual_life r)).
  destruct (tick_catch_state 0 r0 false) as (S0 & L0 & _ & C0).
  destruct (tick_catch 0 (r0, false)) as [r1 w1]. cbn [fst snd] in S0, L0, C0.
  destruct (tick_catch_state 1 r1 w1) as (S1 & L1 & K1 & C1).
  destruct (tick_catch 1 (r1, w1)) as [r2 w2]. cbn [fst snd] in S1, L1, K1, C1.
  destruct (tick_movbc_evolves s r2) as [E6 L6].
  destruct (tick_crzbc_collect_evolves s (tick_movbc r2)) as [E7 L7].
  destruct (tick_sc_evolves s (tick_crzbc_collect (tick_movbc r2))) as [E8 L8].
  destruct (tick_finish_evolves s (tick_sc (tick_crzbc_collect (tick_movbc r2))) w2)
    as (E9 & L9 & K9).
  cbn [virtual_life run_state r0] in *.
  split.
  { eapply evolves_trans; [| exact E9]. eapply evolves_trans; [| exact E8].
    eapply evolves_trans; [| exact E7]. eapply evolves_trans; [| exact E6].
    rewrite S1, S0. exact E5. }
  rewrite L9, L8, L7, L6. split; [lia |].
  intros Hlost. apply K9.
  destruct (Z.lt_ge_cases (virtual_life r2) (virtual_life r1)) as [Hlt | Hge].
  - apply C1, Hlt.
  - apply K1, C0. lia.
Qed.

(** The whole loop: what it changes of the scratch state and of the lives. *)
Lemma ticks_evolves `{RandomEngine} (s : Simulator) (wall_hits : gset Z)
    (command_length : Z) (cat_actions crzbc_actions : list Z * list Z)
    (todo : list Z) : forall (itr : nat) (r : Run),
  let r' := ticks s wall_hits command_length cat_actions crzbc_actions itr todo r in
  evolves s (run_state r) (run_state r')
  /\ virtual_life r - 2 <= virtual_life r' <= virtual_life r.
Proof.
  cbv zeta. induction todo as [| action rest IH]; intros itr r.
  - simpl. split; [apply evolves_refl | lia].
  - cbn [ticks].
    pose proof (tick_evolves s wall_hits command_length cat_actions crzbc_actions
                  itr action r) as (E & L & K).
    destruct (tick s wall_hits command_length cat_actions crzbc_actions itr action r)
      as [r1 stop]. cbn [fst snd] in E, L, K.
    destruct stop; [split; assumption |].
    destruct (IH (S itr) r1) as [E' L'].
    split; [eapply evolves_trans; eassumption |].
    assert (virtual_life r1 = virtual_life r).
    { destruct (Z.lt_ge_cases (virtual_life r1) (virtual_life r)) as [Hlt | Hge];
        [specialize (K Hlt); discriminate | lia]. }
    lia.
Qed.

(** X10. The tick loop writes neither the wall, junction and dead-end layers
    nor the score, life, limits, run, radius and lost/caught fields of the
    scratch state (the score and the lives of a run are kept in separate
    totals), and the stationary bonus items stay on their cells. *)
Theorem ticks_keep_board_and_stationary_items `{RandomEngine} (s : Simulator)
    (wall_hits : gset Z) (command_length : Z)
    (cat_actions crzbc_actions : list Z * list Z) (itr : nat) (todo : list Z) (r : Run) :
  let st := run_state r in
  let st' := run_state (ticks s wall_hits command_length cat_actions crzbc_actions
                              itr todo r) in
  same_board st st'
  /\ pos (fst (movbc st')) = pos (fst (movbc st))
  /\ pos (snd (movbc st')) = pos (snd (movbc st)).
Proof.
  cbv zeta.
  destruct (ticks_evolves s wall_hits command_length cat_actions crzbc_actions todo itr r)
    as [(B & _ & _ & _ & _ & _ & (P0 & _) & (P1 & _) & _) _].
  split; [exact B |]. split; assumption.
Qed.

(** X11. Through the tick loop a small cheese is only ever removed, a bonus
    item is only ever collected (no inactive item becomes active), the won
    flag is only ever set, and the pursuers keep their active flags and their
    facings. *)
Theorem ticks_only_collect `{RandomEngine} (s : Simulator)
    (wall_hits : gset Z) (command_length : Z)
    (cat_actions crzbc_actions : list Z * list Z) (itr : nat) (todo : list Z) (r : Run) :
  let st := run_state r in
  let st' := run_state (ticks s wall_hits command_length cat_actions crzbc_actions
                              itr todo r) in
  (forall i j, grid_at (sc st') i j = grid_at (sc st) i j \/ grid_at (sc st') i j = 0)
  /\ (win_sign st = true -> win_sign st' = true)
  /\ Forall2 (fun b b' => active b' = true -> active b = true)
             (roster_list (movbc st) ++ roster_list (crzbc st))
             (roster_list (movbc st') ++ roster_list (crzbc st'))
  /\ Forall2 (fun c c' => active c' = active c /\ direction c' = direction c)
             (roster_list (cats st)) (roster_list (cats st')).
Proof.
  cbv zeta.
  destruct (ticks_evolves s wall_hits command_length cat_actions crzbc_actions todo itr r)
    as [(_ & S & W & _ & (A0 & D0 & _) & (A1 & D1 & _) & (_ & _ & _ & V0)
         & (_ & _ & _ & V1) & (_ & _ & Z0 & _) & (_ & _ & Z1 & _) & _) _].
  split; [exact S |]. split; [exact W |]. split.
  - unfold roster_list. cbn [app].
    repeat (constructor; [assumption |]). constructor.
  - unfold roster_list.
    repeat (constructor; [first [assumption | split; assumption] |]). constructor.
Qed.

(** X12. Through the tick loop the mouse, each pursuer and each roaming item
    ends on the cell it started on or on a cell of the board that the stored
    wall layer leaves open, and a roaming item that is inactive at the start
    does not move. *)
Theorem ticks_move_onto_open_cells `{RandomEngine} (s : Simulator)
    (wall_hits : gset Z) (command_length : Z)
    (cat_actions crzbc_actions : list Z * list Z) (itr : nat) (todo : list Z) (r : Run) :
  let st := run_state r in
  let st' := run_state (ticks s wall_hits command_length cat_actions crzbc_actions
                              itr todo r) in
  moved_to s (mouse st) (mouse st')
  /\ Forall2 (fun c c' => moved_to s (pos c) (pos c'))
             (roster_list (cats st) ++ roster_list (crzbc st))
             (roster_list (cats st') ++ roster_list (crzbc st'))
  /\ Forall2 (fun b b' => active b = false -> pos b' = pos b)
             (roster_list (crzbc st)) (roster_list (crzbc st')).
Proof.
  cbv zeta.
  destruct (ticks_evolves s wall_hits command_length cat_actions crzbc_actions todo itr r)
    as [(_ & _ & _ & M & (_ & _ & C0) & (_ & _ & C1) & _ & _
         & (_ & _ & _ & Z0 & I0) & (_ & _ & _ & Z1 & I1) & _) _].
  split; [exact M |]. split.
  - unfold roster_list. cbn [app].
    repeat (constructor; [assumption |]). constructor.
  - unfold roster_list.
    repeat (constructor; [first [assumption | split; assumption] |]). constructor.
Qed.

(** X13. Two pursuers that start the tick loop on different cells are on
    different cells after it. *)
Theorem ticks_keep_pursuers_apart `{RandomEngine} (s : Simulator)
    (wall_hits : gset Z) (command_length : Z)
    (cat_actions crzbc_actions : list Z * list Z) (itr : nat) (todo : list Z) (r : Run) :
  pos (fst (cats (run_state r))) <> pos (snd (cats (run_state r))) ->
  let st' := run_state (ticks s wall_hits command_length cat_actions crzbc_actions
                              itr todo r) in
  pos (fst (cats st')) <> pos (snd (cats st')).
Proof.
  intros Hapart. cbv zeta.
  destruct (ticks_evolves s wall_hits command_length cat_actions crzbc_actions todo itr r)
    as [(_ & _ & _ & _ & _ & _ & _ & _ & _ & _ & D) _].
  apply D, Hapart.
Qed.

(** X14. One run of the tick loop costs at most two lives and never adds
    one: a tick in which a pursuer catches the mouse is the last tick of the
    run. *)
Theorem ticks_cost_at_most_two_lives `{RandomEngine} (s : Simulator)
    (wall_hits : gset Z) (command_length : Z)
    (cat_actions crzbc_actions : list Z * list Z) (itr : nat) (todo : list Z) (r : Run) :
  (virtual_life r - 2
   <= virtual_life (ticks s wall_hits command_length cat_actions crzbc_actions itr todo r)
   <= virtual_life r)
  /\ forall action : Z,
       virtual_life (tick s wall_hits command_length cat_actions crzbc_actions
                          itr action r).1 < virtual_life r ->
       (tick s wall_hits command_length cat_actions crzbc_actions itr action r).2 = true.
Proof.
  split.
  - apply (ticks_evolves s wall_hits command_length cat_actions crzbc_actions todo itr r).
  - intros action.
    apply (tick_evolves s wall_hits command_length cat_actions crzbc_actions itr action r).
Qed.

(** ** The per-tick movers *)

Lemma flee_scan_spec (st : GameState) (dm : DistanceMap) (p : Position.t) (dirs : list Z) :
  forall b m,
    m <= (flee_scan st dm p dirs b m).2
    /\ (forall d, d ∈ dirs -> open_cell st (Position.move p d) = true ->
          dist_at dm (Position.move p d) <= (flee_scan st dm p dirs b m).2)
    /\ (((flee_scan st dm p dirs b m).1 = b /\ (flee_scan st dm p dirs b m).2 = m)
        \/ ((flee_scan st dm p dirs b m).1 ∈ dirs
            /\ open_cell st (Position.move p (flee_scan st dm p dirs b m).1) = true
            /\ dist_at dm (Position.move p (flee_scan st dm p dirs b m).1)
               = (flee_scan st dm p dirs b m).2
            /\ m < (flee_scan st dm p dirs b m).2)).
Proof.
  induction dirs as [| dir dirs IH]; intros b m.
  - simpl. split; [lia |]. split; [intros d Hd; inversion Hd | left; auto].
  - cbn [flee_scan]. unfold open_cell in *.
    destruct (Position.is_valid (Position.move p dir)) eqn:Hvalid; cbn [negb].
    2:{ destruct (IH b m) as (Hle & Hmax & Hbest). split; [exact Hle |]. split.
        - intros d Hd Hopen. apply elem_of_cons in Hd as [-> | Hd];
            [rewrite Hvalid in Hopen; discriminate | apply Hmax; assumption].
        - destruct Hbest as [Hsame | (Hin & Hrest)]; [left; exact Hsame |].
          right. split; [right; exact Hin | exact Hrest]. }
    destruct (grid_at (wall st) (Position.x (Position.move p dir))
                      (Position.y (Position.move p dir)) =? 0) eqn:Hwall; cbn [negb].
    2:{ destruct (IH b m) as (Hle & Hmax & Hbest). split; [exact Hle |]. split.
        - intros d Hd Hopen. apply elem_of_cons in Hd as [-> | Hd];
            [rewrite Hvalid, Hwall in Hopen; discriminate | apply Hmax; assumption].
        - destruct Hbest as [Hsame | (Hin & Hrest)]; [left; exact Hsame |].
          right. split; [right; exact Hin | exact Hrest]. }
    fold (dist_at dm (Position.move p dir)).
    destruct (dist_at dm (Position.move p dir) >? m) eqn:Hfar.
    + apply Z.gtb_lt in Hfar.
      destruct (IH dir (dist_at dm (Position.move p dir))) as (Hle & Hmax & Hbest).
      split; [lia |]. split.
      * intros d Hd Hopen. apply elem_of_cons in Hd as [-> | Hd];
          [exact Hle | apply Hmax; assumption].
      * right. destruct Hbest as [[Hb Hm] | (Hin & Hopen & Hd & Hlt)].
        -- rewrite Hb, Hm. split; [left |]. rewrite Hvalid, Hwall.
           split; [reflexivity |]. split; [reflexivity | lia].
        -- split; [right; exact Hin |]. split; [exact Hopen |]. split; [exact Hd | lia].
    + destruct (IH b m) as (Hle & Hmax & Hbest). split; [exact Hle |]. split.
      * intros d Hd Hopen. apply elem_of_cons in Hd as [-> | Hd];
          [| apply Hmax; assumption].
        destruct (Z.gtb_spec (dist_at dm (Position.move p dir)) m); [discriminate | lia].
      * destruct Hbest as [Hsame | (Hin & Hrest)]; [left; exact Hsame |].
        right. split; [right; exact Hin | exact Hrest].
Qed.

Lemma direction_small d : d ∈ Direction.all -> 0 <= d <= 3.
Proof. unfold Direction.all. rewrite !elem_of_cons, elem_of_nil. lia. Qed.

(** X15. The flee rule of [move_single_cat]: a pursuer that is not on a
    dead end, whose cell holds a distance inside the red zone, and that has an
    open neighbour farther from the mouse, moves onto an open neighbour that
    is farther than its cell and at least as far as every other open
    neighbour, faces the direction of the move, and draws no random number. *)
Theorem flee_moves_to_farthest_neighbour `{RandomEngine} (cat : Entity) (st : GameState)
    (dm : DistanceMap) (s : Simulator) (d0 : Z) :
  grid_at (deadend st) (Position.x (pos cat)) (Position.y (pos cat)) = 0 ->
  0 < dist_at dm (pos cat) <= red_zone st ->
  d0 ∈ Direction.all ->
  open_cell st (Position.move (pos cat) d0) = true ->
  dist_at dm (pos cat) < dist_at dm (Position.move (pos cat) d0) ->
  (move_single_cat cat st dm s).2 = s
  /\ last_pos (move_single_cat cat st dm s).1 = pos cat
  /\ active (move_single_cat cat st dm s).1 = active cat
  /\ exists d,
       d ∈ Direction.all
       /\ pos (move_single_cat cat st dm s).1 = Position.move (pos cat) d
       /\ direction (move_single_cat cat st dm s).1 = d
       /\ open_cell st (Position.move (pos cat) d) = true
       /\ dist_at dm (pos cat) < dist_at dm (Position.move (pos cat) d)
       /\ forall d', d' ∈ Direction.all ->
            open_cell st (Position.move (pos cat) d') = true ->
            dist_at dm (Position.move (pos cat) d')
            <= dist_at dm (Position.move (pos cat) d).
Proof.
  intros Hdead Hzone Hd0 Hopen0 Hfar0.
  unfold move_single_cat. cbn [pos set_last_pos].
  rewrite Hdead. cbn [Z.eqb negb]. fold (dist_at dm (pos cat)).
  replace ((dist_at dm (pos cat) >? 0) && (dist_at dm (pos cat) <=? red_zone st))
    with true by (symmetry; apply andb_true_iff; split;
                  [apply Z.gtb_lt | apply Z.leb_le]; lia).
  destruct (flee_scan_spec st dm (pos cat) Direction.all (-1) (dist_at dm (pos cat)))
    as (_ & Hmax & Hbest).
  destruct Hbest as [[_ Hm] | (Hin & Hopen & Hd & Hlt)].
  { pose proof (Hmax d0 Hd0 Hopen0). lia. }
  set (best := (flee_scan st dm (pos cat) Direction.all (-1) (dist_at dm (pos cat))).1) in *.
  pose proof (direction_small best Hin) as Hsmall.
  replace (best >=? 0) with true by (symmetry; apply Z.geb_le; lia).
  unfold sim_ret. cbn [fst snd pos last_pos active direction set_pos set_direction].
  split; [reflexivity |]. split; [reflexivity |]. split; [reflexivity |].
  exists best. split; [exact Hin |]. split; [reflexivity |].
  split; [apply to_int8_small; lia |]. split; [exact Hopen |]. split; [lia |].
  intros d' Hd' Hopen'. rewrite Hd. apply Hmax; assumption.
Qed.

Lemma random_probe_found `{RandomEngine} (st : GameState) (p : Position.t) (tries : nat) :
  forall (s : Simulator) next dir,
    (random_probe tries st p s).1 = Some (next, dir) -> open_cell st next = true.
Proof.
  induction tries as [| tries IH]; intros s next dir; [discriminate |].
  cbn [random_probe]. unfold sim_bind, draw.
  destruct (uniform_int_distribution 0 (Direction.COUNT - 1) (rng_ s)) as [d r].
  destruct (open_cell st (Position.move p d)) eqn:Hopen; [| apply IH].
  unfold sim_ret. cbn [fst]. intros [= <- _]. exact Hopen.
Qed.

Lemma cat_straight_or_probe_moved `{RandomEngine} (cat : Entity) (st : GameState)
    (s : Simulator) :
  let c' := (cat_straight_or_probe cat st s).1 in
  active c' = active cat /\ last_pos c' = last_pos cat
  /\ (pos c' = pos cat \/ open_cell st (pos c') = true).
Proof.
  cbv zeta. unfold cat_straight_or_probe, sim_bind, sim_ret.
  generalize Config.MAX_RANDOM_TRIES. intros tries.
  destruct (open_cell st (Position.move (pos cat) (direction cat))) eqn:Hopen.
  - cbn. auto.
  - pose proof (random_probe_found st (pos cat) tries s) as Hfound.
    destruct (random_probe tries st (pos cat) s) as [[[next dir] |] s1]; cbn.
    + split; [reflexivity |]. split; [reflexivity |]. right. eapply Hfound. reflexivity.
    + auto.
Qed.

Lemma array_at_elem (l : list Z) (i : Z) :
  0 <= i < Z.of_nat (length l) -> array_at l i ∈ l.
Proof.
  intros Hi. unfold array_at.
  replace (i <? 0) with false by (symmetry; apply Z.ltb_ge; lia).
  destruct (l !! Z.to_nat i) as [v |] eqn:Hv.
  - simpl. eapply list_elem_of_lookup_2. exact Hv.
  - apply lookup_ge_None in Hv. lia.
Qed.

Lemma cat_junction_moved `{RandomEngine} (cat : Entity) (st : GameState) (s : Simulator) :
  draws_in_range ->
  let c' := (cat_junction cat st s).1 in
  active c' = active cat /\ last_pos c' = last_pos cat
  /\ (pos c' = pos cat \/ open_cell st (pos c') = true).
Proof.
  intros Hlaw. cbv zeta. unfold cat_junction.
  destruct (negb (grid_at (junc st) (Position.x (pos cat)) (Position.y (pos cat)) =? 0));
    [| apply cat_straight_or_probe_moved].
  destruct (junction_dirs st (pos cat) (Direction.OPPOSITE (direction cat)))
    as [| d ds] eqn:Hdirs; cbn [is_empty negb]; [apply cat_straight_or_probe_moved |].
  unfold sim_bind, draw, sim_ret.
  pose proof (Hlaw 0 (Z.of_nat (length (d :: ds)) - 1) (rng_ s)
                ltac:(cbn [length]; lia)) as Hdraw.
  destruct (uniform_int_distribution 0 (Z.of_nat (length (d :: ds)) - 1) (rng_ s))
    as [i r]. cbn [fst] in Hdraw.
  cbn [fst pos last_pos active set_pos set_direction].
  split; [reflexivity |]. split; [reflexivity |]. right.
  assert (Hin : array_at (d :: ds) i ∈ junction_dirs st (pos cat)
                                        (Direction.OPPOSITE (direction cat))).
  { rewrite Hdirs. apply array_at_elem. lia. }
  unfold junction_dirs in Hin. apply list_elem_of_filter in Hin as [Hok _].
  apply andb_true_iff in Hok as [_ Hopen]. exact Hopen.
Qed.

Lemma move_single_cat_stepped `{RandomEngine} (cat : Entity) (st : GameState)
    (dm : DistanceMap) (s : Simulator) :
  draws_in_range -> stepped st cat (move_single_cat cat st dm s).1.
Proof.
  intros Hlaw. unfold move_single_cat, stepped. cbn [pos set_last_pos].
  destruct (negb (grid_at (deadend st) (Position.x (pos cat)) (Position.y (pos cat)) =? 0)).
  { unfold sim_ret. cbn. auto. }
  fold (dist_at dm (pos cat)).
  set (best := if (dist_at dm (pos cat) >? 0) && (dist_at dm (pos cat) <=? red_zone st)
               then (flee_scan st dm (pos cat) Direction.all (-1) (dist_at dm (pos cat))).1
               else -1).
  destruct (best >=? 0) eqn:Hbest.
  - apply Z.geb_le in Hbest. unfold sim_ret. cbn.
    split; [reflexivity |]. split; [reflexivity |]. right.
    unfold best in *.
    destruct ((dist_at dm (pos cat) >? 0) && (dist_at dm (pos cat) <=? red_zone st));
      [| lia].
    destruct (flee_scan_spec st dm (pos cat) Direction.all (-1) (dist_at dm (pos cat)))
      as (_ & _ & [[Hb _] | (_ & Hopen & _)]); [lia | exact Hopen].
  - destruct (cat_junction_moved (set_last_pos cat (pos cat)) st s Hlaw) as (A & L & P).
    cbn [pos last_pos active set_last_pos] in A, L, P. auto.
Qed.

(** X16. With a generator whose draws lie between their bounds, one call of
    [move_single_cat] leaves the pursuer on its cell or on a cell of the board
    without a wall, records the cell it was on as its last cell, and keeps
    its active flag. *)
Theorem move_single_cat_lands_on_open_cell `{RandomEngine} (cat : Entity)
    (st : GameState) (dm : DistanceMap) (s : Simulator) :
  draws_in_range ->
  let cat' := (move_single_cat cat st dm s).1 in
  active cat' = active cat
  /\ last_pos cat' = pos cat
  /\ (pos cat' = pos cat \/ open_cell st (pos cat') = true).
Proof. intros Hlaw. apply move_single_cat_stepped, Hlaw. Qed.

Lemma move_one_movbc_stepped `{RandomEngine} (bc : Entity) (st : GameState)
    (s : Simulator) :
  stepped st bc (move_one_movbc bc st s).1
  /\ direction (move_one_movbc bc st s).1 = direction bc.
Proof.
  unfold move_one_movbc, stepped, sim_bind, sim_ret. cbn [pos set_last_pos].
  generalize Config.MAX_RANDOM_TRIES. intros tries.
  pose proof (random_probe_found st (pos bc) tries s) as Hfound.
  destruct (random_probe tries st (pos bc) s) as [[[next dir] |] s1]; cbn.
  - split; [| reflexivity]. split; [reflexivity |]. split; [reflexivity |].
    right. eapply Hfound. reflexivity.
  - auto.
Qed.

Lemma move_one_crzbc_stepped `{RandomEngine} (bc : Entity) (st : GameState)
    (s : Simulator) :
  draws_in_range -> stepped st bc (move_one_crzbc bc st s).1.
Proof.
  intros Hlaw. unfold move_one_crzbc, stepped. cbn [pos set_last_pos].
  destruct (negb (grid_at (deadend st) (Position.x (pos bc)) (Position.y (pos bc)) =? 0)).
  { unfold sim_ret. cbn. auto. }
  destruct (cat_junction_moved (set_last_pos bc (pos bc)) st s Hlaw) as (A & L & P).
  cbn [pos last_pos active set_last_pos] in A, L, P. auto.
Qed.

(** A slot handled by "skip if inactive, else move". *)
Lemma slot_moved_intro `{RandomEngine} (st : GameState) (c : Entity)
    (f : Sim Entity) (s : Simulator) :
  stepped st c (f s).1 ->
  slot_moved st c ((if negb (active c) then sim_ret c else f) s).1.
Proof.
  intros Hstep. unfold slot_moved. destruct (active c); cbn [negb]; [exact Hstep |].
  reflexivity.
Qed.

Lemma stepped_same_walls (st st' : GameState) (c c' : Entity) :
  wall st' = wall st -> stepped st' c c' -> stepped st c c'.
Proof.
  intros Hwall (A & L & P). split; [exact A |]. split; [exact L |].
  unfold open_cell in *. rewrite <- Hwall. exact P.
Qed.

(** X17. Each of [move_cats], [move_movbc] and [move_crzbc] writes only its
    own roster; a slot that is inactive is left exactly as it is, and an
    active slot has its old cell recorded as last cell and ends on that cell
    or on a cell of the board without a wall (for the two functions with a
    junction rule: when the draws lie between their bounds).  [move_movbc]
    never writes a facing. *)
Theorem move_functions_skip_inactive_slots `{RandomEngine} (st : GameState)
    (dm : DistanceMap) (s : Simulator) :
  (draws_in_range ->
   let st' := (move_cats st dm s).1 in
   st' = set_cats st (cats st')
   /\ slot_moved st (fst (cats st)) (fst (cats st'))
   /\ slot_moved st (snd (cats st)) (snd (cats st')))
  /\ (let st' := (move_movbc st s).1 in
      st' = set_movbc st (movbc st')
      /\ slot_moved st (fst (movbc st)) (fst (movbc st'))
      /\ slot_moved st (snd (movbc st)) (snd (movbc st'))
      /\ direction (fst (movbc st')) = direction (fst (movbc st))
      /\ direction (snd (movbc st')) = direction (snd (movbc st)))
  /\ (draws_in_range ->
      let st' := (move_crzbc st dm s).1 in
      st' = set_crzbc st (crzbc st')
      /\ slot_moved st (fst (crzbc st)) (fst (crzbc st'))
      /\ slot_moved st (snd (crzbc st)) (snd (crzbc st'))).
Proof.
  split; [| split].
  - intros Hlaw. cbv zeta. unfold move_cats, sim_bind.
    pose proof (slot_moved_intro st (fst (cats st))
                  (move_single_cat (fst (cats st)) st dm) s
                  (move_single_cat_stepped (fst (cats st)) st dm s Hlaw)) as H0.
    destruct ((if negb (active (fst (cats st))) then sim_ret (fst (cats st))
               else move_single_cat (fst (cats st)) st dm) s) as [c0 s1].
    cbn [fst] in H0. cbn [cats set_cats fst snd].
    pose proof (slot_moved_intro st (snd (cats st))
                  (move_single_cat (snd (cats st)) (set_cats st (c0, snd (cats st))) dm) s1
                  (stepped_same_walls st (set_cats st (c0, snd (cats st))) _ _ eq_refl
                     (move_single_cat_stepped (snd (cats st))
                        (set_cats st (c0, snd (cats st))) dm s1 Hlaw))) as H1.
    destruct ((if negb (active (snd (cats st))) then sim_ret (snd (cats st))
               else move_single_cat (snd (cats st)) (set_cats st (c0, snd (cats st))) dm) s1)
      as [c1 s2].
    cbn [fst] in H1. unfold sim_ret. cbn [cats set_cats fst snd].
    split; [reflexivity |]. split; assumption.
  - cbv zeta. unfold move_movbc, sim_bind.
    destruct (move_one_movbc_stepped (fst (movbc st)) st s) as [S0 D0].
    pose proof (slot_moved_intro st (fst (movbc st))
                  (move_one_movbc (fst (movbc st)) st) s S0) as H0.
    assert (Hd0 : direction ((if negb (active (fst (movbc st)))
                              then sim_ret (fst (movbc st))
                              else move_one_movbc (fst (movbc st)) st) s).1
                  = direction (fst (movbc st))).
    { destruct (active (fst (movbc st))); [exact D0 | reflexivity]. }
    destruct ((if negb (active (fst (movbc st))) then sim_ret (fst (movbc st))
               else move_one_movbc (fst (movbc st)) st) s) as [b0 s1].
    cbn [fst] in H0, Hd0. cbn [movbc set_movbc fst snd].
    destruct (move_one_movbc_stepped (snd (movbc st))
                (set_movbc st (b0, snd (movbc st))) s1) as [S1 D1].
    pose proof (slot_moved_intro st (snd (movbc st))
                  (move_one_movbc (snd (movbc st)) (set_movbc st (b0, snd (movbc st)))) s1
                  (stepped_same_walls st (set_movbc st (b0, snd (movbc st))) _ _ eq_refl
                     S1)) as H1.
    assert (Hd1 : direction ((if negb (active (snd (movbc st)))
                              then sim_ret (snd (movbc st))
                              else move_one_movbc (snd (movbc st))
                                     (set_movbc st (b0, snd (movbc st)))) s1).1
                  = direction (snd (movbc st))).
    { destruct (active (snd (movbc st))); [exact D1 | reflexivity]. }
    destruct ((if negb (active (snd (movbc st))) then sim_ret (snd (movbc st))
               else move_one_movbc (snd (movbc st))
                      (set_movbc st (b0, snd (movbc st)))) s1) as [b1 s2].
    cbn [fst] in H1, Hd1. unfold sim_ret. cbn [movbc set_movbc fst snd].
    split; [reflexivity |]. repeat split; assumption.
  - intros Hlaw. cbv zeta. unfold move_crzbc, sim_bind.
    pose proof (slot_moved_intro st (fst (crzbc st))
                  (move_one_crzbc (fst (crzbc st)) st) s
                  (move_one_crzbc_stepped (fst (crzbc st)) st s Hlaw)) as H0.
    destruct ((if negb (active (fst (crzbc st))) then sim_ret (fst (crzbc st))
               else move_one_crzbc (fst (crzbc st)) st) s) as [b0 s1].
    cbn [fst] in H0. cbn [crzbc set_crzbc fst snd].
    pose proof (slot_moved_intro st (snd (crzbc st))
                  (move_one_crzbc (snd (crzbc st)) (set_crzbc st (b0, snd (crzbc st)))) s1
                  (stepped_same_walls st (set_crzbc st (b0, snd (crzbc st))) _ _ eq_refl
                     (move_one_crzbc_stepped (snd (crzbc st))
                        (set_crzbc st (b0, snd (crzbc st))) s1 Hlaw))) as H1.
    destruct ((if negb (active (snd (crzbc st))) then sim_ret (snd (crzbc st))
               else move_one_crzbc (snd (crzbc st)) (set_crzbc st (b0, snd (crzbc st)))) s1)
      as [b1 s2].
    cbn [fst] in H1. unfold sim_ret. cbn [crzbc set_crzbc fst snd].
    split; [reflexivity |]. split; assumption.
Qed.

(** ** The snapshot boundary: round trip, required keys and defaults *)

Lemma grid_init_ext (f f' : Z -> Z -> Z) :
  (forall i j, 0 <= i < MAP_SIZE -> 0 <= j < MAP_SIZE -> f i j = f' i j) ->
  grid_init f = grid_init f'.
Proof.
  intros Hext. unfold grid_init.
  apply list_fmap_ext. intros k i Hi.
  apply list_fmap_ext. intros k' j Hj.
  apply Hext; apply elem_of_indices; eapply list_elem_of_lookup_2; eassumption.
Qed.

Lemma grid_init_grid_at (g : GridMap) : grid_dims g -> grid_init (grid_at g) = g.
Proof.
  intros [Hlen Hrows]. unfold grid_init. apply list_eq. intros i.
  rewrite list_lookup_fmap. unfold indices, MAP_SIZE in *.
  destruct (decide (i < 11)%nat) as [Hi | Hi].
  - rewrite lookup_seqZ_lt by lia. cbn [fmap option_fmap option_map].
    destruct (g !! i) as [row |] eqn:Hrow; [| apply lookup_ge_None in Hrow; lia].
    f_equal. apply list_eq. intros j. rewrite list_lookup_fmap.
    assert (Hrowlen : length row = 11%nat).
    { rewrite Forall_forall in Hrows. apply Hrows.
      eapply list_elem_of_lookup_2. eassumption. }
    destruct (decide (j < 11)%nat) as [Hj | Hj].
    + rewrite lookup_seqZ_lt by lia. cbn [fmap option_fmap option_map].
      destruct (row !! j) as [v |] eqn:Hv; [| apply lookup_ge_None in Hv; lia].
      f_equal. unfold grid_at.
      replace ((0 + Z.of_nat i <? 0) || (0 + Z.of_nat j <? 0)) with false
        by (symmetry; apply orb_false_iff; lia).
      replace (Z.to_nat (0 + Z.of_nat i)) with i by lia.
      replace (Z.to_nat (0 + Z.of_nat j)) with j by lia.
      rewrite Hrow, Hv. reflexivity.
    + rewrite lookup_seqZ_ge by lia. cbn [fmap option_fmap option_map].
      symmetry. apply lookup_ge_None. lia.
  - rewrite lookup_seqZ_ge by lia. cbn [fmap option_fmap option_map].
    symmetry. apply lookup_ge_None. lia.
Qed.

Lemma lookup_indices (i : nat) :
  (i < 11)%nat -> indices !! i = Some (Z.of_nat i).
Proof.
  intros Hi. unfold indices, MAP_SIZE. rewrite lookup_seqZ_lt by lia. reflexivity.
Qed.

Lemma mapM_indices {A} (h : nat -> option A) (k : Z -> A) :
  (forall i, (i < 11)%nat -> h i = Some (k (Z.of_nat i))) ->
  mapM h (seq 0 (Z.to_nat MAP_SIZE)) = Some (k <$> indices).
Proof.
  intros Hh. apply mapM_Some_2. apply Forall2_same_length_lookup_2.
  - rewrite length_fmap. reflexivity.
  - intros i x y Hx Hy. apply lookup_seq in Hx as [-> Hlt]. simpl in Hlt.
    change (Z.to_nat MAP_SIZE) with 11%nat in Hlt.
    rewrite list_lookup_fmap, lookup_indices in Hy by exact Hlt.
    injection Hy as <-. apply Hh, Hlt.
Qed.

(** Reading back an exported layer narrows each of its cells. *)
Lemma read_grid_init (f : Z -> Z -> Z) :
  read_grid (grid_init f) = Some (grid_init (fun i j => to_int8 (f i j))).
Proof.
  unfold read_grid, grid_init.
  apply (mapM_indices _ (fun i => (fun j => to_int8 (f i j)) <$> indices)).
  intros i Hi. rewrite list_lookup_fmap, lookup_indices by exact Hi.
  cbn [fmap option_fmap option_map mbind option_bind].
  apply (mapM_indices _ (fun j => to_int8 (f (Z.of_nat i) j))).
  intros j Hj. rewrite list_lookup_fmap, lookup_indices by exact Hj. reflexivity.
Qed.

Lemma cast_grid_typed (g : GridMap) :
  grid_typed g -> cast_grid (py_matrix (grid_init (grid_at g))) = Some g.
Proof.
  intros [Hdims Hcells]. unfold cast_grid. rewrite cast_matrix_py. cbn [mbind option_bind].
  rewrite read_grid_init. f_equal.
  transitivity (grid_init (grid_at g)); [| apply grid_init_grid_at, Hdims].
  apply grid_init_ext. intros i j Hi Hj. apply to_int8_small. apply Hcells; assumption.
Qed.

Lemma read_position_typed (p : Position.t) :
  position_typed p -> cast_position (py_vector (py_position p)) = Some p.
Proof.
  intros [Hx Hy]. unfold cast_position. rewrite cast_vector_py.
  unfold py_position, read_position. cbn.
  rewrite !to_int8_small by assumption. destruct p; reflexivity.
Qed.

(** X18. Exporting a state whose fields hold values of their C++ types and
    restoring the export gives the state back except for what a snapshot does
    not carry: every entity is active again, the last cell of each bonus item
    is its cell, and the facing of each stationary item is 0. *)
Theorem export_then_restore (st : GameState) :
  state_typed st -> dict_to_state (state_to_dict st) = Some (reimported st).
Proof.
  intros (Hwall & Hsc & Hjunc & Hdeadend & Hmouse & Hmouse_last & Hents
          & Hlife & Hstep & Hstep_limit & Hrun & Hfunc & Hred).
  unfold roster_list in Hents. cbn [app] in Hents.
  rewrite !Forall_cons in Hents.
  destruct Hents as ((Hc0p & Hc0l & Hc0d) & (Hc1p & Hc1l & Hc1d)
                     & (Hb0p & _) & (Hb1p & _)
                     & (Hz0p & _ & Hz0d) & (Hz1p & _ & Hz1d) & _).
  unfold dict_to_state, required_key, optional_key.
  change (state_to_dict st !! "mouse")
    with (Some (py_vector (py_position (mouse st)))).
  change (state_to_dict st !! "mouse_last_pos")
    with (Some (py_vector (py_position (mouse_last st)))).
  change (state_to_dict st !! "cat")
    with (Some (py_matrix ((fun c => py_position (pos c)) <$> roster_list (cats st)))).
  change (state_to_dict st !! "cat_last_pos")
    with (Some (py_matrix ((fun c => py_position (last_pos c)) <$> roster_list (cats st)))).
  change (state_to_dict st !! "cat_direction")
    with (Some (py_vector (direction <$> roster_list (cats st)))).
  change (state_to_dict st !! "sc") with (Some (py_matrix (grid_init (grid_at (sc st))))).
  change (state_to_dict st !! "wall")
    with (Some (py_matrix (grid_init (grid_at (wall st))))).
  change (state_to_dict st !! "junc")
    with (Some (py_matrix (grid_init (grid_at (junc st))))).
  change (state_to_dict st !! "deadend")
    with (Some (py_matrix (grid_init (grid_at (deadend st))))).
  change (state_to_dict st !! "movbc")
    with (Some (py_matrix ((fun c => py_position (pos c)) <$> roster_list (movbc st)))).
  change (state_to_dict st !! "crzbc")
    with (Some (py_matrix ((fun c => py_position (pos c)) <$> roster_list (crzbc st)))).
  change (state_to_dict st !! "crzbc_direction")
    with (Some (py_vector (direction <$> roster_list (crzbc st)))).
  change (state_to_dict st !! "score") with (Some (PyInt (score st))).
  change (state_to_dict st !! "life") with (Some (PyInt (life st))).
  change (state_to_dict st !! "step") with (Some (PyInt (step st))).
  change (state_to_dict st !! "step_limit") with (Some (PyInt (step_limit st))).
  change (state_to_dict st !! "run") with (Some (PyInt (run st))).
  change (state_to_dict st !! "func_chance") with (Some (PyInt (func_chance st))).
  change (state_to_dict st !! "red_zone") with (Some (PyInt (red_zone st))).
  change (state_to_dict st !! "win_sign") with (Some (PyBool (win_sign st))).
  change (state_to_dict st !! "lose_sign") with (Some (PyBool (lose_sign st))).
  change (state_to_dict st !! "catched") with (Some (PyBool (catched st))).
  cbv beta iota.
  rewrite !read_position_typed by assumption.
  rewrite !cast_grid_typed by assumption.
  unfold read_last_positions, read_directions.
  rewrite !cast_vector_py, !cast_matrix_py.
  unfold roster_list, py_position.
  cbn [mbind option_bind fmap list_fmap read_entities read_entity read_last_pos
       read_direction lookup list_lookup roster_set roster_at cats movbc crzbc
       GameState_reset fst snd direction Entity_default set_last_pos set_direction
       pos last_pos active cast_int cast_bool].
  unfold position_typed, is_int8, is_int16 in *.
  rewrite !to_int8_small by tauto. rewrite !to_int16_small by tauto.
  unfold reimported, reimported_cat, reimported_movbc, reimported_crzbc.
  destruct (cats st) as [[[c0x c0y] [l0x l0y] d0 a0] [[c1x c1y] [l1x l1y] d1 a1]].
  destruct (movbc st) as [[[b0x b0y] ? ? ?] [[b1x b1y] ? ? ?]].
  destruct (crzbc st) as [[[z0x z0y] ? ? ?] [[z1x z1y] ? ? ?]].
  reflexivity.
Qed.

(** X19. A snapshot that lacks one of the eleven keys read unconditionally
    (mouse, cat, sc, wall, junc, deadend, movbc, crzbc, score, life, step) is
    rejected, whatever else it holds. *)
Theorem dict_to_state_needs_required_keys (d : gmap string PyObj) (key : string) :
  key ∈ required_keys -> d !! key = None -> dict_to_state d = None.
Proof.
  intros Hkey Hnone. unfold required_keys in Hkey.
  unfold dict_to_state, required_key.
  repeat (apply elem_of_cons in Hkey as [-> | Hkey];
          [rewrite Hnone; cbv iota;
           repeat first
             [ reflexivity
             | match goal with
               | |- ?m ≫= _ = None => destruct m; cbn [mbind option_bind]
               end ] |]).
  inversion Hkey.
Qed.

Lemma read_entity_fresh rows i r r' (P : Entity -> Prop) :
  (forall p d, P (mkEntity p p d true)) ->
  read_entity rows i r = Some r' -> P (fst r) -> P (snd r) -> P (fst r') /\ P (snd r').
Proof.
  intros Hnew. unfold read_entity. intros Hread H0 H1.
  destruct (rows !! i) as [row |]; [| injection Hread as <-; auto].
  destruct (row !! 0%nat) as [px |]; [| discriminate].
  destruct (row !! 1%nat) as [py |]; [| discriminate].
  injection Hread as <-. destruct i; cbn [roster_set fst snd]; auto.
Qed.

Lemma read_entities_fresh rows r r' (P : Entity -> Prop) :
  (forall p d, P (mkEntity p p d true)) ->
  read_entities rows r = Some r' -> P (fst r) -> P (snd r) -> P (fst r') /\ P (snd r').
Proof.
  intros Hnew. unfold read_entities. intros Hread H0 H1.
  destruct (read_entity rows 0 r) as [r0 |] eqn:Hr0; [| discriminate].
  cbn [mbind option_bind] in Hread.
  destruct (read_entity_fresh _ _ _ _ P Hnew Hr0 H0 H1) as [A B].
  eapply read_entity_fresh; eassumption.
Qed.

(** Reading entities keeps the facing every slot had. *)
Lemma read_entities_direction rows r r' :
  read_entities rows r = Some r' ->
  direction (fst r') = direction (fst r) /\ direction (snd r') = direction (snd r).
Proof.
  unfold read_entities, read_entity. intros Hread.
  destruct (rows !! 0%nat) as [row0 |]; cbn [mbind option_bind] in Hread.
  - destruct (row0 !! 0%nat) as [px |]; [| discriminate].
    destruct (row0 !! 1%nat) as [py |]; [| discriminate].
    cbn [mbind option_bind roster_set roster_at fst snd] in Hread.
    destruct (rows !! 1%nat) as [row1 |].
    + destruct (row1 !! 0%nat) as [qx |]; [| discriminate].
      destruct (row1 !! 1%nat) as [qy |]; [| discriminate].
      injection Hread as <-. split; reflexivity.
    + injection Hread as <-. split; reflexivity.
  - destruct (rows !! 1%nat) as [row1 |].
    + destruct (row1 !! 0%nat) as [qx |]; [| discriminate].
      destruct (row1 !! 1%nat) as [qy |]; [| discriminate].
      injection Hread as <-. split; reflexivity.
    + injection Hread as <-. split; reflexivity.
Qed.

Lemma read_directions_last_pos r o r' :
  read_directions r o = Some r' ->
  (last_pos (fst r') = last_pos (fst r) /\ pos (fst r') = pos (fst r))
  /\ (last_pos (snd r') = last_pos (snd r) /\ pos (snd r') = pos (snd r)).
Proof.
  unfold read_directions. intros Hread.
  destruct (cast_vector o) as [cd |]; [| discriminate]. cbn [mbind option_bind] in Hread.
  injection Hread as <-. unfold read_direction.
  destruct (cd !! 0%nat), (cd !! 1%nat); cbn; auto.
Qed.

Lemma read_last_positions_direction r o r' :
  read_last_positions r o = Some r' ->
  direction (fst r') = direction (fst r) /\ direction (snd r') = direction (snd r).
Proof.
  unfold read_last_positions, read_last_pos. intros Hread.
  destruct (cast_matrix o) as [cl |]; [| discriminate]. cbn [mbind option_bind] in Hread.
  destruct (cl !! 0%nat) as [row0 |]; cbn [mbind option_bind] in Hread.
  - destruct (row0 !! 0%nat) as [px |]; [| discriminate].
    destruct (row0 !! 1%nat) as [py |]; [| discriminate].
    cbn [mbind option_bind roster_set roster_at fst snd] in Hread.
    destruct (cl !! 1%nat) as [row1 |].
    + destruct (row1 !! 0%nat) as [qx |]; [| discriminate].
      destruct (row1 !! 1%nat) as [qy |]; [| discriminate].
      injection Hread as <-. split; reflexivity.
    + injection Hread as <-. split; reflexivity.
  - destruct (cl !! 1%nat) as [row1 |].
    + destruct (row1 !! 0%nat) as [qx |]; [| discriminate].
      destruct (row1 !! 1%nat) as [qy |]; [| discriminate].
      injection Hread as <-. split; reflexivity.
    + injection Hread as <-. split; reflexivity.
Qed.

(** X20. The state built from a snapshot takes defaults for what the
    snapshot leaves out: the step limit 200, run 0, function chance 4, red
    zone 5 and the three flags false; the mouse's last cell is its cell and a
    pursuer's last cell is its cell; facings are 0.  Whatever the snapshot
    holds, the last cell of a bonus item is its cell and a stationary item
    faces 0. *)
Theorem dict_to_state_defaults (d : gmap string PyObj) (st : GameState) :
  dict_to_state d = Some st ->
  (d !! "mouse_last_pos" = None -> mouse_last st = mouse st)
  /\ (d !! "step_limit" = None -> step_limit st = 200)
  /\ (d !! "run" = None -> run st = 0)
  /\ (d !! "func_chance" = None -> func_chance st = 4)
  /\ (d !! "red_zone" = None -> red_zone st = 5)
  /\ (d !! "win_sign" = None -> win_sign st = false)
  /\ (d !! "lose_sign" = None -> lose_sign st = false)
  /\ (d !! "catched" = None -> catched st = false)
  /\ (d !! "cat_last_pos" = None ->
      Forall (fun c => last_pos c = pos c) (roster_list (cats st)))
  /\ (d !! "cat_direction" = None ->
      Forall (fun c => direction c = 0) (roster_list (cats st)))
  /\ (d !! "crzbc_direction" = None ->
      Forall (fun b => direction b = 0) (roster_list (crzbc st)))
  /\ Forall (fun b => last_pos b = pos b /\ direction b = 0) (roster_list (movbc st))
  /\ Forall (fun b => last_pos b = pos b) (roster_list (crzbc st)).
Proof.
  unfold dict_to_state, optional_key. intros Hst.
  cbn [cats movbc crzbc GameState_reset] in Hst.
  peel Hst as mouse_p Hmouse. peel Hst as mouse_last_p Hmouse_last.
  peel Hst as cat Hcat.
  peel Hst as cats1 Hcats1. peel Hst as cats2 Hcats2. peel Hst as cats3 Hcats3.
  peel Hst as sc_g Hsc. peel Hst as wall_g Hwall. peel Hst as junc_g Hjunc.
  peel Hst as deadend_g Hdeadend.
  peel Hst as movbc_m Hmovbc_m. peel Hst as movbc1 Hmovbc1.
  peel Hst as crzbc_m Hcrzbc_m. peel Hst as crzbc1 Hcrzbc1.
  peel Hst as crzbc2 Hcrzbc2.
  peel Hst as score_v Hscore. peel Hst as life_v Hlife. peel Hst as step_v Hstep.
  peel Hst as step_limit_v Hstep_limit. peel Hst as run_v Hrun.
  peel Hst as func_chance_v Hfunc_chance. peel Hst as red_zone_v Hred_zone.
  peel Hst as win_v Hwin. peel Hst as lose_v Hlose. peel Hst as catched_v Hcatched.
  injection Hst as <-.
  cbn [mouse mouse_last cats movbc crzbc step_limit run func_chance red_zone
       win_sign lose_sign catched].
  pose proof (read_entities_fresh _ _ _ (fun e => last_pos e = pos e)
                (fun _ _ => eq_refl) Hcats1 eq_refl eq_refl) as [Lc0 Lc1].
  pose proof (read_entities_direction _ _ _ Hcats1) as [Dc0 Dc1].
  pose proof (read_entities_fresh _ _ _ (fun e => last_pos e = pos e)
                (fun _ _ => eq_refl) Hmovbc1 eq_refl eq_refl) as [Lb0 Lb1].
  pose proof (read_entities_direction _ _ _ Hmovbc1) as [Db0 Db1].
  pose proof (read_entities_fresh _ _ _ (fun e => last_pos e = pos e)
                (fun _ _ => eq_refl) Hcrzbc1 eq_refl eq_refl) as [Lz0 Lz1].
  pose proof (read_entities_direction _ _ _ Hcrzbc1) as [Dz0 Dz1].
  cbn [fst snd direction Entity_default] in Dc0, Dc1, Db0, Db1, Dz0, Dz1.
  unfold roster_list.
  split; [intros Hk; rewrite Hk in Hmouse_last; congruence |].
  split; [intros Hk; rewrite Hk in Hstep_limit; injection Hstep_limit as <-; reflexivity |].
  split; [intros Hk; rewrite Hk in Hrun; injection Hrun as <-; reflexivity |].
  split; [intros Hk; rewrite Hk in Hfunc_chance; injection Hfunc_chance as <-;
          reflexivity |].
  split; [intros Hk; rewrite Hk in Hred_zone; injection Hred_zone as <-; reflexivity |].
  split; [intros Hk; rewrite Hk in Hwin; congruence |].
  split; [intros Hk; rewrite Hk in Hlose; congruence |].
  split; [intros Hk; rewrite Hk in Hcatched; congruence |].
  split.
  { intros Hk. rewrite Hk in Hcats2. injection Hcats2 as <-.
    destruct (d !! "cat_direction") as [o |].
    - destruct (read_directions_last_pos _ _ _ Hcats3) as [[A0 B0] [A1 B1]].
      repeat constructor; congruence.
    - injection Hcats3 as <-. repeat constructor; assumption. }
  split.
  { intros Hk. rewrite Hk in Hcats3. injection Hcats3 as <-.
    destruct (d !! "cat_last_pos") as [o |].
    - destruct (read_last_positions_direction _ _ _ Hcats2) as [A0 A1].
      repeat constructor; congruence.
    - injection Hcats2 as <-. repeat constructor; assumption. }
  split.
  { intros Hk. rewrite Hk in Hcrzbc2. injection Hcrzbc2 as <-.
    repeat constructor; assumption. }
  split; [repeat constructor; assumption |].
  destruct (d !! "crzbc_direction") as [o |].
  - destruct (read_directions_last_pos _ _ _ Hcrzbc2) as [[A0 B0] [A1 B1]].
    repeat constructor; congruence.
  - injection Hcrzbc2 as <-. repeat constructor; assumption.
Qed.

(** ** The cache switches, the parsed program, directions and the cheese count *)

(** X3. After [initialize_cache] the cache is enabled and initialised, and
    [create_distance_map] answers with the map of the wall layer the cache was
    filled from, whatever the wall layer of the simulator asked.  With the
    cache disabled, or cleared, the map is computed from the wall layer of the
    simulator asked; enabling the cache again brings the stored maps back. *)
Theorem cache_answers_for_the_walls_it_was_filled_from `{RandomEngine}
    (s s' : Simulator) (g0 : Globals) (target : Position.t) :
  Position.is_valid target = true ->
  exists g,
    initialize_cache s g0 = Some g
    /\ is_cache_enabled g = true /\ is_cache_initialized g = true
    /\ create_distance_map g s' target
       = compute_distance_map (wall (state_ s)) (Position.x target) (Position.y target)
    /\ create_distance_map (disable_global_cache g) s' target
       = compute_distance_map (wall (state_ s')) (Position.x target) (Position.y target)
    /\ create_distance_map (enable_global_cache (disable_global_cache g)) s' target
       = compute_distance_map (wall (state_ s)) (Position.x target) (Position.y target)
    /\ create_distance_map (clear_cache g) s' target
       = compute_distance_map (wall (state_ s')) (Position.x target) (Position.y target).
Proof.
  intros Hvalid. pose proof (proj1 (is_valid_spec target) Hvalid) as [Hx Hy].
  destruct (cache_initialize_lookup (wall (state_ s)) _ _ Hx Hy) as (c & Hc & Hinit & Hget).
  exists (mkGlobals true c). unfold initialize_cache. rewrite Hc.
  split; [reflexivity |]. split; [reflexivity |]. split; [exact Hinit |].
  split; [| split; [| split]].
  - unfold create_distance_map. cbn [global_cache_enabled_ instance]. rewrite Hinit.
    exact Hget.
  - apply create_distance_map_uncached; [reflexivity | exact Hvalid].
  - unfold create_distance_map, enable_global_cache, disable_global_cache.
    cbn [global_cache_enabled_ instance]. rewrite Hinit. exact Hget.
  - apply create_distance_map_uncached; [reflexivity | exact Hvalid].
Qed.

Lemma scanned_tokens program t :
  t ∈ scanned program -> t <> Token.END /\ t <> Token.EMPTY /\ t ∈ program.
Proof.
  induction program as [| token rest IH]; [intros Hin; inversion Hin |].
  cbn [scanned].
  destruct (token =? Token.END) eqn:Hend; [intros Hin; inversion Hin |].
  destruct (token =? Token.EMPTY) eqn:Hempty.
  - intros Hin. destruct (IH Hin) as (A & B & C). split; [exact A |].
    split; [exact B | right; exact C].
  - intros Hin. apply elem_of_cons in Hin as [-> | Hin].
    + apply Z.eqb_neq in Hend, Hempty. split; [exact Hend |]. split; [exact Hempty | left].
    + destruct (IH Hin) as (A & B & C). split; [exact A |].
      split; [exact B | right; exact C].
Qed.

Lemma scanned_length program : (length (scanned program) <= length program)%nat.
Proof.
  induction program as [| token rest IH]; [reflexivity |]. cbn [scanned].
  destruct (token =? Token.END); [simpl; lia |].
  destruct (token =? Token.EMPTY); simpl; lia.
Qed.

Lemma bind_rewrite_length first second l :
  (length (l ≫= rewrite_token first second) <= length l)%nat.
Proof.
  induction l as [| t l IH]; [reflexivity |].
  cbn [mbind list_bind]. rewrite length_app. unfold rewrite_token at 1.
  destruct (Token.is_func_lib t); [| simpl; lia].
  destruct (decide (first = Some t)); [simpl; lia |].
  destruct (decide (second = Some t)); simpl; lia.
Qed.

(** X21. The main sequence that [parse_program] returns holds no END, no
    filler and no function-library id: every token of it is a call token of
    one of the two slots or a token of the program that is none of these; it
    is never longer than the program.  Each function body is empty or the
    library's body of an id that occurs in the program. *)
Theorem parsed_main_holds_no_library_id `{RandomEngine} (s : Simulator)
    (program : list Z) :
  let parsed := parse_program s program in
  Forall (fun t => t <> Token.END /\ t <> Token.EMPTY /\ Token.is_func_lib t = false
                   /\ (t = Token.FUNC_F1 \/ t = Token.FUNC_F2 \/ t ∈ program))
         (main_cmd parsed)
  /\ (length (main_cmd parsed) <= length program)%nat
  /\ Forall (fun body =>
               body = [] \/ exists id, id ∈ program /\ Token.is_func_lib id = true
                                       /\ body = func_lib_ s id)
            [func1 parsed; func2 parsed].
Proof.
  cbv zeta. rewrite parse_program_spec. unfold parse_spec. cbn [main_cmd func1 func2].
  assert (Hids : forall id, id ∈ lib_ids program ->
                            id ∈ program /\ Token.is_func_lib id = true).
  { intros id Hid. unfold lib_ids in Hid. apply list_elem_of_filter in Hid as [Hlib Hin].
    split; [apply (scanned_tokens program id Hin) | exact Hlib]. }
  split; [| split].
  - apply Forall_forall. intros t Hin.
    apply list_elem_of_bind in Hin as (t0 & Hin & Hscan).
    destruct (scanned_tokens program t0 Hscan) as (Hend & Hempty & Hprog).
    unfold rewrite_token in Hin.
    destruct (Token.is_func_lib t0) eqn:Hlib.
    + destruct (decide (first_bound program = Some t0));
        [apply list_elem_of_singleton in Hin as ->;
         repeat split; try discriminate; auto |].
      destruct (decide (second_bound program = Some t0));
        [apply list_elem_of_singleton in Hin as ->;
         repeat split; try discriminate; auto | inversion Hin].
    + apply list_elem_of_singleton in Hin as ->. auto 6.
  - etransitivity; [apply bind_rewrite_length | apply scanned_length].
  - assert (Hhead : forall (l : list Z) (id : Z), head l = Some id -> id ∈ l).
    { intros l id Hl. destruct l; [discriminate |]. injection Hl as ->. left. }
    constructor; [| constructor; [| constructor]].
    + destruct (first_bound program) as [f |] eqn:Hf; [| left; reflexivity].
      right. exists f. unfold first_bound in Hf.
      destruct (Hids f (Hhead _ _ Hf)) as [A B]. auto.
    + unfold second_bound. destruct (first_bound program) as [f |]; [| left; reflexivity].
      destruct (head (filter (fun token => token <> f) (lib_ids program)))
        as [g |] eqn:Hg; [| left; reflexivity].
      right. exists g. apply Hhead in Hg. apply list_elem_of_filter in Hg as [_ Hg].
      destruct (Hids g Hg) as [A B]. auto.
Qed.

(** X22. The four directions are unit steps along one axis, and [OPPOSITE]
    inverts them: from a cell of the board, a move followed by the move in
    the opposite direction returns to the cell, and the opposite of the
    opposite is the direction itself. *)
Theorem opposite_direction_undoes_move (p : Position.t) (d : Z) :
  Position.is_valid p = true ->
  d ∈ Direction.all ->
  Z.abs (Direction.DX d) + Z.abs (Direction.DY d) = 1
  /\ Direction.OPPOSITE d ∈ Direction.all
  /\ Direction.OPPOSITE (Direction.OPPOSITE d) = d
  /\ Position.move (Position.move p d) (Direction.OPPOSITE d) = p.
Proof.
  intros Hvalid Hd. apply is_valid_spec in Hvalid as [Hx Hy]. unfold MAP_SIZE in *.
  destruct p as [px py]. cbn [Position.x Position.y] in *.
  unfold Direction.all in *. rewrite !elem_of_cons, elem_of_nil in Hd.
  destruct Hd as [-> | [-> | [-> | [-> | []]]]];
    (split; [reflexivity |]); (split; [rewrite !elem_of_cons; cbn; tauto |]);
    (split; [reflexivity |]);
    unfold Position.move; cbn [Position.x Position.y];
    change (Direction.OPPOSITE 0) with 1; change (Direction.OPPOSITE 1) with 0;
    change (Direction.OPPOSITE 2) with 3; change (Direction.OPPOSITE 3) with 2;
    change (Direction.DX 0) with (-1); change (Direction.DX 1) with 1;
    change (Direction.DX 2) with 0; change (Direction.DX 3) with 0;
    change (Direction.DY 0) with 0; change (Direction.DY 1) with 0;
    change (Direction.DY 2) with (-1); change (Direction.DY 3) with 1;
    rewrite (to_int8_small (px + _)), (to_int8_small (py + _)) by lia;
    rewrite !to_int8_small by lia; f_equal; lia.
Qed.

Lemma foldl_add_zero {A} (f : A -> Z) (l : list A) : forall a,
  (forall x, x ∈ l -> 0 <= f x) ->
  a <= foldl (fun acc x => acc + f x) a l
  /\ (foldl (fun acc x => acc + f x) a l = a <-> forall x, x ∈ l -> f x = 0).
Proof.
  induction l as [| y l IH]; intros a Hnn.
  - simpl. split; [lia |]. split; [intros _ x Hx; inversion Hx | reflexivity].
  - cbn [foldl].
    assert (Hy : 0 <= f y) by (apply Hnn; left).
    destruct (IH (a + f y)) as [Hle Hiff]; [intros x Hx; apply Hnn; right; exact Hx |].
    split; [lia |]. split.
    + intros Heq. assert (Hfy : f y = 0) by lia.
      rewrite Hfy, Z.add_0_r in Hiff. rewrite Hfy, Z.add_0_r in Heq.
      intros x Hx. apply elem_of_cons in Hx as [-> | Hx]; [exact Hfy |].
      apply (proj1 Hiff Heq x Hx).
    + intros Hall. assert (Hfy : f y = 0) by (apply Hall; left).
      rewrite Hfy, Z.add_0_r in *. apply Hiff. intros x Hx. apply Hall. right. exact Hx.
Qed.

(** X23. When no cell of the small-cheese layer is negative,
    [count_remaining_cheese] is 0 exactly when every cell of the layer on the
    board is 0, and it is never negative. *)
Theorem no_cheese_left_iff_layer_is_zero (st : GameState) :
  (forall i j, 0 <= i < MAP_SIZE -> 0 <= j < MAP_SIZE -> 0 <= grid_at (sc st) i j) ->
  0 <= count_remaining_cheese st
  /\ (count_remaining_cheese st = 0 <->
      forall i j, 0 <= i < MAP_SIZE -> 0 <= j < MAP_SIZE -> grid_at (sc st) i j = 0).
Proof.
  intros Hnn. unfold count_remaining_cheese.
  set (row_sum := fun i => foldl (fun count j => count + grid_at (sc st) i j) 0 indices).
  assert (Hrow : forall i count,
            foldl (fun count j => count + grid_at (sc st) i j) count indices
            = count + row_sum i).
  { intros i. unfold row_sum. generalize indices. intros l.
    induction l as [| j l IH]; intros count; [simpl; lia |].
    cbn [foldl]. rewrite IH, (IH (0 + _)). lia. }
  assert (Hrows : forall i, 0 <= i < MAP_SIZE ->
            0 <= row_sum i
            /\ (row_sum i = 0 <->
                forall j, 0 <= j < MAP_SIZE -> grid_at (sc st) i j = 0)).
  { intros i Hi. unfold row_sum.
    destruct (foldl_add_zero (fun j => grid_at (sc st) i j) indices 0) as [Hle Hiff].
    { intros j Hj. apply Hnn; [exact Hi | apply elem_of_indices, Hj]. }
    split; [exact Hle |]. rewrite Hiff. split.
    - intros Hall j Hj. apply Hall, elem_of_indices, Hj.
    - intros Hall j Hj. apply Hall, elem_of_indices, Hj. }
  assert (Hfold : forall l a,
            foldl (fun count i =>
                     foldl (fun count j => count + grid_at (sc st) i j) count indices) a l
            = foldl (fun count i => count + row_sum i) a l).
  { induction l as [| i l IH]; intros a; [reflexivity |].
    cbn [foldl]. rewrite Hrow. apply IH. }
  rewrite Hfold.
  destruct (foldl_add_zero row_sum indices 0) as [Hle Hiff].
  { intros i Hi. apply Hrows, elem_of_indices, Hi. }
  split; [exact Hle |]. rewrite Hiff. split.
  - intros Hall i j Hi Hj. apply (Hrows i Hi); [| exact Hj].
    apply Hall, elem_of_indices, Hi.
  - intros Hall i Hi. apply elem_of_indices in Hi. apply (Hrows i Hi).
    intros j Hj. apply Hall; assumption.
Qed.

(** A property of every cell of the board can be checked cell by cell. *)
Lemma cells_forall (P : Z -> Z -> Prop) :
  Forall (fun c => P c.1 c.2) cells ->
  forall i j, 0 <= i < MAP_SIZE -> 0 <= j < MAP_SIZE -> P i j.
Proof.
  intros Hall i j Hi Hj. rewrite Forall_forall in Hall.
  apply (Hall (i, j)). apply elem_of_cells. split; assumption.
Qed.

(** ** The two passes of a run *)

Lemma replay_cell_index `{RandomEngine} (s : Simulator) (acts : list Z) :
  forall p idx idx', (replay s acts p idx).1 = (replay s acts p idx').1.
Proof.
  induction acts as [| a acts IH]; intros p idx idx'; [reflexivity |].
  cbn [replay]. destruct (movable s p a); cbn [fst]; apply IH.
Qed.

Lemma replay_hits_range `{RandomEngine} (s : Simulator) (acts : list Z) :
  forall p idx i, i ∈ (replay s acts p idx).2 ->
                  idx <= i < idx + Z.of_nat (length acts).
Proof.
  induction acts as [| a acts IH]; intros p idx i.
  - simpl. intros Hi. apply elem_of_empty in Hi. contradiction.
  - cbn [replay length]. destruct (movable s p a); cbn [snd].
    + intros Hi. specialize (IH _ _ _ Hi). lia.
    + intros Hi. apply elem_of_union in Hi as [Hi | Hi].
      * apply elem_of_singleton in Hi. lia.
      * specialize (IH _ _ _ Hi). lia.
Qed.

(** An index is among the blocked ones of a replay exactly when the action
    at that index is blocked on the cell the actions before it lead to. *)
Lemma replay_hit_at `{RandomEngine} (s : Simulator) (acts : list Z) :
  forall p idx (k : nat) a,
    acts !! k = Some a ->
    (idx + Z.of_nat k ∈ (replay s acts p idx).2
     <-> movable s (replay s (take k acts) p 0).1 a = false).
Proof.
  induction acts as [| b acts IH]; intros p idx k a Hk; [discriminate |].
  destruct k as [| k].
  - injection Hk as ->. cbn [replay take fst]. rewrite Z.add_0_r.
    destruct (movable s p a) eqn:Hmov; cbn [snd].
    + split; [| discriminate]. intros Hin. apply replay_hits_range in Hin. lia.
    + split; [reflexivity |]. intros _. apply elem_of_union. left.
      apply elem_of_singleton. reflexivity.
  - cbn [lookup list_lookup] in Hk. cbn [replay take].
    replace (idx + Z.of_nat (S k)) with (idx + 1 + Z.of_nat k) by lia.
    destruct (movable s p b); cbn [fst snd].
    + rewrite (replay_cell_index s (take k acts) _ 1 0). apply IH, Hk.
    + rewrite (replay_cell_index s (take k acts) _ 1 0).
      rewrite <- (IH p (idx + 1) k a Hk). rewrite elem_of_union, elem_of_singleton.
      split; [intros [Heq | Hin]; [lia | exact Hin] | intros Hin; right; exact Hin].
Qed.

Lemma tick_cat_mouse `{RandomEngine} (s : Simulator) (me other : nat) (plan : list Z)
    (itr : nat) (st : GameState) :
  mouse (tick_cat s me other plan itr st) = mouse st.
Proof.
  unfold tick_cat. destruct (plan !! itr); [| reflexivity].
  destruct (movable s _ _); [| reflexivity]. destruct (negb _); reflexivity.
Qed.

Lemma tick_crzbc_mouse `{RandomEngine} (s : Simulator) (j : nat) (plan : list Z)
    (itr : nat) (st : GameState) :
  mouse (tick_crzbc s j plan itr st) = mouse st.
Proof.
  unfold tick_crzbc. destruct (negb (active _)); [reflexivity |].
  destruct (plan !! itr); [| reflexivity].
  destruct (movable s _ _); [| reflexivity]. destruct (negb _); reflexivity.
Qed.

Lemma tick_tail_mouse (r : Run) (was : bool) :
  mouse (run_state (tick_finish (tick_sc (tick_crzbc_collect (tick_movbc r))) was).1)
  = mouse (run_state r).
Proof.
  assert (H1 : mouse (run_state (tick_movbc r)) = mouse (run_state r)).
  { unfold tick_movbc. destruct (collect_roster _ _ _). reflexivity. }
  assert (H2 : forall r0, mouse (run_state (tick_crzbc_collect r0)) = mouse (run_state r0)).
  { intros r0. unfold tick_crzbc_collect. destruct (collect_roster _ _ _). reflexivity. }
  assert (H3 : forall r0, mouse (run_state (tick_sc r0)) = mouse (run_state r0)).
  { intros r0. unfold tick_sc. destruct (negb _); reflexivity. }
  assert (H4 : forall r0, mouse (run_state (tick_finish r0 was).1) = mouse (run_state r0)).
  { intros r0. unfold tick_finish.
    repeat match goal with |- context [if ?c then _ else _] => destruct c end;
      reflexivity. }
  rewrite H4, H3, H2, H1. reflexivity.
Qed.

(** In one tick the mouse makes the move of [tick_mouse] and no other. *)
Lemma tick_mouse_cell `{RandomEngine} (s : Simulator) (wall_hits : gset Z)
    (command_length : Z) (cat_actions crzbc_actions : list Z * list Z)
    (itr : nat) (action : Z) (r : Run) :
  mouse (run_state (tick s wall_hits command_length cat_actions crzbc_actions
                         itr action r).1)
  = if movable s (mouse (run_state r)) action
    then move_pos (mouse (run_state r)) action else mouse (run_state r).
Proof.
  unfold tick.
  set (st5 := tick_crzbc s 1 _ itr _).
  set (r0 := mkRun st5 _ (virtual_life r)).
  destruct (tick_catch_state 0 r0 false) as (S0 & _).
  destruct (tick_catch 0 (r0, false)) as [r1 w1]. cbn [fst] in S0.
  destruct (tick_catch_state 1 r1 w1) as (S1 & _).
  destruct (tick_catch 1 (r1, w1)) as [r2 w2]. cbn [fst] in S1.
  rewrite tick_tail_mouse, S1, S0. unfold r0, st5. cbn [run_state].
  rewrite !tick_crzbc_mouse.
  destruct (Z.of_nat itr <? command_length); rewrite !tick_cat_mouse;
    unfold tick_mouse; cbn [mouse set_mouse_last];
    destruct (movable s (mouse (run_state r)) action); reflexivity.
Qed.

(** At the start of its [k]-th executed tick the loop has the mouse on the
    cell that the first [k] actions lead to. *)
Lemma tick_starts_mouse `{RandomEngine} (s : Simulator) (wall_hits : gset Z)
    (command_length : Z) (cat_actions crzbc_actions : list Z * list Z)
    (todo : list Z) : forall (itr : nat) (r : Run) (k : nat) (r_k : Run),
  tick_starts s wall_hits command_length cat_actions crzbc_actions itr todo r !! k
  = Some r_k ->
  is_Some (todo !! k)
  /\ mouse (run_state r_k) = (replay s (take k todo) (mouse (run_state r)) 0).1.
Proof.
  induction todo as [| action rest IH]; intros itr r k r_k; [discriminate |].
  cbn [tick_starts]. destruct k as [| k].
  - intros [= <-]. split; [eexists; reflexivity | reflexivity].
  - cbn [lookup list_lookup].
    pose proof (tick_mouse_cell s wall_hits command_length cat_actions crzbc_actions
                  itr action r) as Hcell.
    destruct (tick s wall_hits command_length cat_actions crzbc_actions itr action r)
      as [r1 stop]. cbn [fst snd] in *.
    destruct stop; [discriminate |].
    intros Hk. destruct (IH _ _ _ _ Hk) as [Hsome Hm]. split; [exact Hsome |].
    rewrite Hm, Hcell. cbn [take replay].
    destruct (movable s (mouse (run_state r)) action); cbn [fst];
      apply replay_cell_index.
Qed.

(** [tick_starts] walks the loop of [ticks]: the loop returns what the tick
    started last returns. *)
Lemma ticks_from_last_start `{RandomEngine} (s : Simulator) (wall_hits : gset Z)
    (command_length : Z) (cat_actions crzbc_actions : list Z * list Z)
    (todo : list Z) : forall (itr : nat) (r : Run),
  match last (tick_starts s wall_hits command_length cat_actions crzbc_actions
                          itr todo r) with
  | None => todo = []
            /\ ticks s wall_hits command_length cat_actions crzbc_actions itr todo r = r
  | Some r_last =>
      exists (k : nat) (action : Z),
        todo !! k = Some action
        /\ ticks s wall_hits command_length cat_actions crzbc_actions itr todo r
           = (tick s wall_hits command_length cat_actions crzbc_actions
                   (itr + k) action r_last).1
  end.
Proof.
  induction todo as [| action rest IH]; intros itr r; [split; reflexivity |].
  cbn [tick_starts ticks].
  destruct (tick s wall_hits command_length cat_actions crzbc_actions itr action r)
    as [r1 stop] eqn:Htick. cbn [fst snd].
  specialize (IH (S itr) r1).
  destruct stop.
  - cbn [last]. exists 0%nat, action. rewrite Nat.add_0_r, Htick.
    split; reflexivity.
  - destruct (tick_starts s wall_hits command_length cat_actions crzbc_actions
                          (S itr) rest r1) as [| r2 starts] eqn:Hstarts.
    + cbn [last] in IH |- *. destruct IH as [-> Hticks].
      exists 0%nat, action. rewrite Nat.add_0_r, Htick. split; reflexivity.
    + rewrite last_cons_cons. destruct (last (r2 :: starts)) as [r_last |] eqn:Hlast.
      * destruct IH as (k & a & Hk & Hticks). exists (S k), a.
        split; [exact Hk |]. rewrite Hticks. f_equal. f_equal. lia.
      * apply last_None in Hlast. discriminate.
Qed.

(** X24. The two passes agree: when the tick loop runs on the actions and the
    wall-collision set that [get_mouse_actions] returned for the same start
    state, the index of an executed tick is in the set (the tick charges the
    wall penalty) exactly when the mouse cannot make the move of that tick
    (the mouse stays where it is). *)
Theorem wall_penalty_iff_mouse_blocked `{RandomEngine} (fuel : nat) (s : Simulator)
    (command func1 func2 : list Z) (st : GameState) (e : Exec) :
  get_mouse_actions fuel s command func1 func2 st = Some e ->
  forall (command_length : Z) (cat_actions crzbc_actions : list Z * list Z)
         (points lives : Z) (k : nat) (r_k : Run),
    tick_starts s (wall_collisions e) command_length cat_actions crzbc_actions 0
                (actions e) (mkRun st points lives) !! k = Some r_k ->
    exists action,
      actions e !! k = Some action
      /\ (Z.of_nat k ∈ wall_collisions e
          <-> movable s (mouse (run_state r_k)) action = false).
Proof.
  unfold get_mouse_actions. intros Hrun command_length cat_actions crzbc_actions
    points lives k r_k Hk.
  apply process_commands_continues in Hrun as (added & Ha & _ & _ & _ & Hw).
  cbn [actions action_idx sim_state wall_collisions app] in Ha, Hw.
  rewrite (right_id_L ∅ (∪)) in Hw.
  destruct (tick_starts_mouse _ _ _ _ _ _ _ _ _ _ Hk) as [[action Haction] Hm].
  cbn [run_state] in Hm.
  exists action. split; [exact Haction |].
  rewrite Hm, Hw, Ha in *.
  apply (replay_hit_at s added (mouse st) 0 k action Haction).
Qed.

Lemma parse_loop_until_end (get_function : Z -> list Z) (pre post : list Z) :
  forall l, parse_loop get_function (pre ++ Token.END :: post) l
            = parse_loop get_function (pre ++ [Token.END]) l.
Proof.
  induction pre as [| token pre IH]; intros l; [reflexivity |].
  cbn [app parse_loop].
  repeat match goal with
         | |- context [if ?c then _ else _] => destruct c
         end; try reflexivity; apply IH.
Qed.

Lemma count_command_length_until_end (pre post : list Z) :
  count_command_length (pre ++ Token.END :: post)
  = count_command_length (pre ++ [Token.END]).
Proof.
  induction pre as [| token pre IH]; [reflexivity |].
  cbn [app count_command_length]. destruct (token =? Token.END); [reflexivity |].
  rewrite IH. reflexivity.
Qed.

(** X25. Whatever follows the first END of a program is ignored: the parsed
    program, the token count [command_length] and so the whole result of
    [simulate_program], score and simulator afterwards, are those of the
    program cut after that END. *)
Theorem tokens_after_end_are_ignored `{RandomEngine} (fuel : nat)
    (pre post : list Z) (s : Simulator) :
  parse_program s (pre ++ Token.END :: post) = parse_program s (pre ++ [Token.END])
  /\ simulate_program fuel (pre ++ Token.END :: post) s
     = simulate_program fuel (pre ++ [Token.END]) s.
Proof.
  assert (Hparse : parse_program s (pre ++ Token.END :: post)
                   = parse_program s (pre ++ [Token.END]))
    by apply parse_loop_until_end.
  split; [exact Hparse |].
  unfold simulate_program. rewrite Hparse, count_command_length_until_end. reflexivity.
Qed.

(** * Worked instances on concrete boards *)

(** C8 as written fails for the cache: cell (0, 4) of the level-3 board is a
    wall, and in the map the cache stores for that source the cell holds 1,
    not -1. *)
Lemma wall_source_holds_one_not_sentinel :
  grid_at (wall GameState_init_level3) 0 4 = 1
  /\ (c ← GlobalDistanceCache_initialize (wall GameState_init_level3);
      dm ← GlobalDistanceCache_get c 0 4;
      Some (grid_at dm 0 4)) = Some 1.
Proof. split; vm_compute; reflexivity. Qed.

(** C5 as written fails: after IF and the invalid count 108 the first UP is
    consumed, and the second UP is ignored as well, although the same token
    at the head of a program yields an action. *)
Lemma tokens_after_invalid_count_are_ignored :
  actions <$> get_mouse_actions 20 level3_simulator
                [Token.IF; 108; Direction.UP; Direction.UP; Token.END] [] []
                GameState_init_level3
  = Some []
  /\ actions <$> get_mouse_actions 20 level3_simulator
                   [Direction.UP; Token.END] [] [] GameState_init_level3
     = Some [Direction.UP].
Proof. split; vm_compute; reflexivity. Qed.

(** A filler token or an executed call between IF and its count leaves the
    count awaited: the conditional that follows runs. *)
Lemma count_awaited_across_filler_and_call :
  actions <$> get_mouse_actions 20 level3_simulator
                [Token.IF; Token.EMPTY; 101; Direction.UP; Token.END] [] []
                GameState_init_level3
  = Some [Direction.UP]
  /\ actions <$> get_mouse_actions 20 level3_simulator
                   [Token.IF; Token.FUNC_F1; 101; Direction.UP; Token.END]
                   [Direction.LEFT] [] GameState_init_level3
     = Some [Direction.LEFT; Direction.UP].
Proof. split; vm_compute; reflexivity. Qed.

(** C1 on the level-3 board, for the mouse's start cell. *)
Lemma cached_distance_map_equals_direct_level3 :
  Position.is_valid (Position.mk 10 10) = true
  /\ wall (state_ level3_simulator) = wall (state_ level3_simulator)
  /\ global_cache_enabled_ (mkGlobals false GlobalDistanceCache_empty)
     && initialized_ (instance (mkGlobals false GlobalDistanceCache_empty)) = false
  /\ exists g dm,
       initialize_cache level3_simulator (mkGlobals false GlobalDistanceCache_empty)
       = Some g
       /\ create_distance_map g level3_simulator (Position.mk 10 10) = Some dm
       /\ create_distance_map (mkGlobals false GlobalDistanceCache_empty)
            level3_simulator (Position.mk 10 10) = Some dm.
Proof.
  split; [reflexivity |]. split; [reflexivity |]. split; [reflexivity |].
  apply (cached_distance_map_equals_direct level3_simulator level3_simulator
           (mkGlobals false GlobalDistanceCache_empty)
           (mkGlobals false GlobalDistanceCache_empty) (Position.mk 10 10));
    reflexivity.
Defined.


(** C3, corrected, for a program whose first function calls the second. *)
Lemma simulate_program_returns_with_chained_calls :
  (RUN_FUEL + CALL_DEPTH <= 15)%nat
  /\ calls_well_founded (func1 (parse_program chain_simulator [113; 114; Token.END]))
                        (func2 (parse_program chain_simulator [113; 114; Token.END]))
  /\ (exists points s',
         simulate_program 15 [113; 114; Token.END] chain_simulator = Some (points, s'))
  /\ (forall (commands body1 body2 : list Z) (e : Exec),
         calls_well_founded body1 body2 ->
         is_Some (process_commands 15 chain_simulator commands body1 body2 e)).
Proof.
  assert (Hfuel : (RUN_FUEL + CALL_DEPTH <= 15)%nat) by (vm_compute; lia).
  assert (Hwf : calls_well_founded
                  (func1 (parse_program chain_simulator [113; 114; Token.END]))
                  (func2 (parse_program chain_simulator [113; 114; Token.END]))).
  { unfold calls_well_founded, calls_slot.
    apply (bool_decide_unpack _). vm_compute. exact I. }
  split; [exact Hfuel |]. split; [exact Hwf |].
  apply (simulate_program_returns_when_calls_well_founded 15
           [113; 114; Token.END] chain_simulator Hfuel Hwf).
Defined.

(** C4 for "IF 2 UP" from the mouse's start cell of the level-3 board. *)
Lemma conditional_run_level3 :
  let m := mkMachine 102 Token.IF 2 in
  let e := mkExec GameState_init_level3 [] ∅ 0 in
  pc m = Token.IF
  /\ need_next m = Token.NUM_BASE + 2
  /\ n_iter m = 2
  /\ 1 <= 2 <= 7
  /\ Token.is_direction Direction.UP = true
  /\ (RUN_FUEL <= 12)%nat
  /\ exists k : nat,
       commands_loop Some Some 12 level3_simulator [] [] [Direction.UP] m e
       = commands_loop Some Some 12 level3_simulator [] [] []
           (mkMachine 0 0 2) (after_run e Direction.UP k)
       /\ (forall j : nat, (j < k)%nat ->
             movable level3_simulator (walk j (mouse (sim_state e)) Direction.UP)
                     Direction.UP = true
             /\ crossed (junc (sim_state e)) j (mouse (sim_state e)) Direction.UP < 2)
       /\ (crossed (junc (sim_state e)) k (mouse (sim_state e)) Direction.UP = 2
           \/ (crossed (junc (sim_state e)) k (mouse (sim_state e)) Direction.UP < 2
               /\ movable level3_simulator (walk k (mouse (sim_state e)) Direction.UP)
                          Direction.UP = false)).
Proof.
  intros m e.
  split; [reflexivity |]. split; [reflexivity |]. split; [reflexivity |].
  split; [lia |]. split; [reflexivity |]. split; [unfold RUN_FUEL; lia |].
  apply (conditional_run_after_valid_count Some Some 12 level3_simulator
           [] [] [] m e Direction.UP 2);
    [reflexivity | reflexivity | reflexivity | lia | reflexivity | unfold RUN_FUEL; lia].
Defined.

(** C5, corrected, for the invalid count 108. *)
Lemma invalid_count_108_blocks_sequence :
  let m := mkMachine Token.IF 0 0 in
  let e := mkExec GameState_init_level3 [] ∅ 0 in
  need_next m = Token.IF
  /\ Token.is_if_num 108 = false
  /\ reaches_machine [] [] 108 = true
  /\ 108 <> 0 /\ 108 <> Token.IF /\ 108 <> Token.LOOP
  /\ commands_loop Some Some 12 level3_simulator [] [] [108; Direction.UP] m e
     = commands_loop Some Some 12 level3_simulator [] []
         (executed_calls [] [] [Direction.UP]) Machine_init e.
Proof.
  intros m e.
  split; [reflexivity |]. split; [reflexivity |]. split; [reflexivity |].
  split; [discriminate |]. split; [discriminate |]. split; [discriminate |].
  apply (proj2 (invalid_conditional_count_blocks_sequence Some Some 12 level3_simulator
                  [] [] [Direction.UP] m e 108 eq_refl eq_refl eq_refl));
    discriminate.
Defined.

(** C6 for a program with three library ids: the third is dropped. *)
Lemma parse_three_library_ids :
  let program := [113; 114; 115; Direction.RIGHT; 113; Token.END] in
  dropped_id program 115
  /\ parse_program level3_simulator program
     = parse_spec (func_lib_ level3_simulator) program
  /\ parse_program level3_simulator (filter (fun t => t <> 115) program)
     = parse_program level3_simulator program.
Proof.
  intros program.
  assert (Hdropped : dropped_id program 115).
  { split; [reflexivity |]. split; vm_compute; discriminate. }
  split; [exact Hdropped |]. split.
  - apply (proj1 (parse_program_binds_two_slots level3_simulator program)).
  - apply (proj2 (parse_program_binds_two_slots level3_simulator program) 115 Hdropped).
Defined.

(** C8, corrected, for the wall cell (0, 4) of the level-3 board as source. *)
Lemma distance_map_from_wall_source :
  0 <= 0 < MAP_SIZE /\ 0 <= 4 < MAP_SIZE
  /\ exists dm,
       compute_distance_map WALL_DATA 0 4 = Some dm
       /\ source_one_walls_sentinel WALL_DATA (Position.mk 0 4) dm.
Proof.
  assert (H0 : 0 <= 0 < MAP_SIZE) by (unfold MAP_SIZE; lia).
  assert (H4 : 0 <= 4 < MAP_SIZE) by (unfold MAP_SIZE; lia).
  split; [exact H0 |]. split; [exact H4 |].
  apply (proj1 (distance_map_source_and_walls (H := LowRng)) WALL_DATA 0 4 H0 H4).
Defined.

(** C9 for a one-token program on the level-3 board. *)
Lemma simulate_program_keeps_level3_state :
  simulate_program 20 [Direction.RIGHT; Token.END] level3_simulator
  = Some (-10, level3_simulator)
  /\ state_ level3_simulator = state_ level3_simulator
  /\ simulate_program_and_apply 20 [Direction.RIGHT; Token.END] level3_simulator
     = Some (-10, level3_simulator).
Proof.
  assert (Hrun : simulate_program 20 [Direction.RIGHT; Token.END] level3_simulator
                 = Some (-10, level3_simulator)) by (vm_compute; reflexivity).
  split; [exact Hrun |].
  apply (simulate_program_keeps_stored_state 20 [Direction.RIGHT; Token.END]
           level3_simulator level3_simulator (-10) Hrun).
Defined.

(** C10 for the level-3 state with a collected item: its export restores to
    the initial state, the item active again. *)
Lemma restore_reactivates_collected_item :
  active (fst (movbc collected_state)) = false
  /\ dict_to_state (state_to_dict collected_state) = Some GameState_init_level3
  /\ all_active GameState_init_level3.
Proof.
  assert (Hrestore : dict_to_state (state_to_dict collected_state)
                     = Some GameState_init_level3) by (vm_compute; reflexivity).
  split; [reflexivity |]. split; [exact Hrestore |].
  apply (proj1 dict_to_state_activates_every_entity
           (state_to_dict collected_state) GameState_init_level3 Hrestore).
Defined.

(** X1 for the mouse's start cell of the level-3 board. *)
Lemma distance_map_is_shortest_walk_level3 :
  Position.is_valid (Position.mk 10 10) = true
  /\ exists dm,
       compute_distance_map WALL_DATA 10 10 = Some dm
       /\ (forall k p, open_walk WALL_DATA (Position.mk 10 10) k p ->
             1 <= dist_at dm p <= Z.of_nat k + 1)
       /\ (forall p, Position.is_valid p = true -> 1 <= dist_at dm p ->
             open_walk WALL_DATA (Position.mk 10 10) (Z.to_nat (dist_at dm p - 1)) p).
Proof.
  split; [reflexivity |].
  apply (distance_map_is_shortest_walk WALL_DATA (Position.mk 10 10)). reflexivity.
Defined.

(** X2 for the wall cell (0, 4) of the level-3 board as source. *)
Lemma distance_map_entries_from_wall :
  Position.is_valid (Position.mk 0 4) = true
  /\ exists dm,
       compute_distance_map WALL_DATA 0 4 = Some dm
       /\ grid_dims dm
       /\ forall p, Position.is_valid p = true ->
            -1 <= dist_at dm p <= 121
            /\ (dist_at dm p = -1 <-> ~ no_wall WALL_DATA p /\ p <> Position.mk 0 4)
            /\ (dist_at dm p = 1 <-> p = Position.mk 0 4)
            /\ (dist_at dm p = 0 <->
                no_wall WALL_DATA p /\ p <> Position.mk 0 4
                /\ ~ exists k, open_walk WALL_DATA (Position.mk 0 4) k p).
Proof.
  split; [reflexivity |].
  apply (distance_map_entries WALL_DATA (Position.mk 0 4)). reflexivity.
Defined.

(** X4 for a move into the border from the mouse's start cell. *)
Lemma wall_collisions_are_blocked_replays_level3 :
  let e := mkExec GameState_init_level3 [Direction.RIGHT] ({[0]} ∪ ∅) 1 in
  get_mouse_actions 20 level3_simulator [Direction.RIGHT; Token.END] [] []
                    GameState_init_level3 = Some e
  /\ replay level3_simulator (actions e) (mouse GameState_init_level3) 0
     = (mouse (sim_state e), wall_collisions e)
  /\ sim_state e = set_mouse GameState_init_level3 (mouse (sim_state e)).
Proof.
  intros e.
  assert (Hrun : get_mouse_actions 20 level3_simulator [Direction.RIGHT; Token.END] [] []
                   GameState_init_level3 = Some e) by reflexivity.
  split; [exact Hrun |].
  apply (wall_collisions_are_blocked_replays 20 level3_simulator
           [Direction.RIGHT; Token.END] [] [] GameState_init_level3 e Hrun).
Defined.

(** X5 for a loop of three attempts upwards from the mouse's start cell:
    the first moves, the other two are blocked. *)
Lemma mouse_actions_are_well_formed_level3 :
  let e := mkExec (set_mouse GameState_init_level3 (Position.mk 9 10))
                  [Direction.UP; Direction.UP; Direction.UP]
                  ({[2]} ∪ ({[1]} ∪ ∅)) 3 in
  get_mouse_actions 20 level3_simulator
    [Token.LOOP; 103; Direction.UP; Token.END] [] [] GameState_init_level3 = Some e
  /\ Forall (fun a => Token.is_direction a = true) (actions e)
  /\ action_idx e = Z.of_nat (length (actions e))
  /\ (forall i, i ∈ wall_collisions e -> 0 <= i < Z.of_nat (length (actions e)))
  /\ (mouse (sim_state e) = mouse GameState_init_level3
      \/ open_cell (state_ level3_simulator) (mouse (sim_state e)) = true).
Proof.
  intros e.
  assert (Hrun : get_mouse_actions 20 level3_simulator
                   [Token.LOOP; 103; Direction.UP; Token.END] [] []
                   GameState_init_level3 = Some e) by reflexivity.
  split; [exact Hrun |].
  apply (mouse_actions_are_well_formed 20 level3_simulator
           [Token.LOOP; 103; Direction.UP; Token.END] [] [] GameState_init_level3 e Hrun).
Defined.

(** X6 for "LOOP 10 UP" from the mouse's start cell. *)
Lemma loop_count_direction_attempts_level3 :
  let e := mkExec GameState_init_level3 [] ∅ 0 in
  need_next Machine_init = 0
  /\ Token.is_num Token.NUM_10 = true
  /\ Token.is_direction Direction.UP = true
  /\ 1 <= Token.get_num_value Token.NUM_10 <= 10
  /\ commands_loop Some Some 12 level3_simulator [] []
       [Token.LOOP; Token.NUM_10; Direction.UP; Token.END] Machine_init e
     = commands_loop Some Some 12 level3_simulator [] [] [Token.END]
         (mkMachine 0 0 (Token.get_num_value Token.NUM_10))
         (loop_run (Z.to_nat (Token.get_num_value Token.NUM_10)) level3_simulator
                   Direction.UP e)
  /\ actions (loop_run (Z.to_nat (Token.get_num_value Token.NUM_10)) level3_simulator
                       Direction.UP e)
     = actions e ++ replicate (Z.to_nat (Token.get_num_value Token.NUM_10)) Direction.UP
  /\ action_idx (loop_run (Z.to_nat (Token.get_num_value Token.NUM_10)) level3_simulator
                          Direction.UP e)
     = action_idx e + Token.get_num_value Token.NUM_10.
Proof.
  intros e.
  split; [reflexivity |]. split; [reflexivity |]. split; [reflexivity |].
  apply (loop_count_direction_attempts Some Some 12 level3_simulator [] [] [Token.END]
           Machine_init e Token.NUM_10 Direction.UP); reflexivity.
Defined.


(** X13 on the level-3 board for a run of two moves up. *)
Lemma ticks_keep_pursuers_apart_level3 :
  let r := mkRun GameState_init_level3 0 3 in
  let plans := ([Direction.DOWN; Direction.DOWN], [Direction.RIGHT; Direction.RIGHT]) in
  pos (fst (cats (run_state r))) <> pos (snd (cats (run_state r)))
  /\ pos (fst (cats (run_state (ticks level3_simulator ∅ 3 plans ([], []) 0
                                      [Direction.UP; Direction.UP] r))))
     <> pos (snd (cats (run_state (ticks level3_simulator ∅ 3 plans ([], []) 0
                                         [Direction.UP; Direction.UP] r)))).
Proof.
  intros r plans.
  assert (Hapart : pos (fst (cats (run_state r))) <> pos (snd (cats (run_state r))))
    by discriminate.
  split; [exact Hapart |].
  apply (ticks_keep_pursuers_apart level3_simulator ∅ 3 plans ([], []) 0
           [Direction.UP; Direction.UP] r Hapart).
Defined.

Lemma low_draws_in_range : draws_in_range (H := LowRng).
Proof. intros lo hi r Hle. simpl. lia. Qed.

(** X15 for a pursuer next to the mouse in the open corridor of row 2 of the
    level-3 board, with the distances from the cell (2, 3). *)
Lemma flee_moves_to_farthest_neighbour_level3 :
  let cat := entity_at (Position.mk 2 2) Direction.DOWN in
  let st := GameState_init_level3 in
  let dm := default [] (compute_distance_map WALL_DATA 2 3) in
  grid_at (deadend st) (Position.x (pos cat)) (Position.y (pos cat)) = 0
  /\ 0 < dist_at dm (pos cat) <= red_zone st
  /\ Direction.LEFT ∈ Direction.all
  /\ open_cell st (Position.move (pos cat) Direction.LEFT) = true
  /\ dist_at dm (pos cat) < dist_at dm (Position.move (pos cat) Direction.LEFT)
  /\ (move_single_cat cat st dm level3_simulator).2 = level3_simulator
  /\ last_pos (move_single_cat cat st dm level3_simulator).1 = pos cat
  /\ active (move_single_cat cat st dm level3_simulator).1 = active cat
  /\ exists d,
       d ∈ Direction.all
       /\ pos (move_single_cat cat st dm level3_simulator).1 = Position.move (pos cat) d
       /\ direction (move_single_cat cat st dm level3_simulator).1 = d
       /\ open_cell st (Position.move (pos cat) d) = true
       /\ dist_at dm (pos cat) < dist_at dm (Position.move (pos cat) d)
       /\ forall d', d' ∈ Direction.all ->
            open_cell st (Position.move (pos cat) d') = true ->
            dist_at dm (Position.move (pos cat) d')
            <= dist_at dm (Position.move (pos cat) d).
Proof.
  intros cat st dm.
  assert (Hdead : grid_at (deadend st) (Position.x (pos cat)) (Position.y (pos cat)) = 0)
    by reflexivity.
  assert (Hzone : 0 < dist_at dm (pos cat) <= red_zone st) by (vm_compute; split; congruence).
  assert (Hdir : Direction.LEFT ∈ Direction.all) by (apply (bool_decide_unpack _); reflexivity).
  assert (Hopen : open_cell st (Position.move (pos cat) Direction.LEFT) = true)
    by reflexivity.
  assert (Hfar : dist_at dm (pos cat) < dist_at dm (Position.move (pos cat) Direction.LEFT))
    by (vm_compute; reflexivity).
  split; [exact Hdead |]. split; [exact Hzone |]. split; [exact Hdir |].
  split; [exact Hopen |]. split; [exact Hfar |].
  apply (flee_moves_to_farthest_neighbour cat st dm level3_simulator Direction.LEFT
           Hdead Hzone Hdir Hopen Hfar).
Defined.

(** X16 for pursuer 0 of the level-3 board. *)
Lemma move_single_cat_lands_on_open_cell_level3 :
  draws_in_range (H := LowRng)
  /\ (let cat' := (move_single_cat (fst (cats GameState_init_level3))
                     GameState_init_level3 grid_zero level3_simulator).1 in
      active cat' = active (fst (cats GameState_init_level3))
      /\ last_pos cat' = pos (fst (cats GameState_init_level3))
      /\ (pos cat' = pos (fst (cats GameState_init_level3))
          \/ open_cell GameState_init_level3 (pos cat') = true)).
Proof.
  split; [exact low_draws_in_range |].
  apply (move_single_cat_lands_on_open_cell (fst (cats GameState_init_level3))
           GameState_init_level3 grid_zero level3_simulator low_draws_in_range).
Defined.

(** X3 for a cache filled from the level-3 walls and asked by a simulator
    whose board has no wall. *)
Lemma cache_answers_for_level3_walls :
  Position.is_valid (Position.mk 10 10) = true
  /\ exists g,
       initialize_cache level3_simulator (mkGlobals false GlobalDistanceCache_empty)
       = Some g
       /\ is_cache_enabled g = true /\ is_cache_initialized g = true
       /\ create_distance_map g last_cheese_simulator (Position.mk 10 10)
          = compute_distance_map (wall (state_ level3_simulator)) 10 10
       /\ create_distance_map (disable_global_cache g) last_cheese_simulator
            (Position.mk 10 10)
          = compute_distance_map (wall (state_ last_cheese_simulator)) 10 10
       /\ create_distance_map (enable_global_cache (disable_global_cache g))
            last_cheese_simulator (Position.mk 10 10)
          = compute_distance_map (wall (state_ level3_simulator)) 10 10
       /\ create_distance_map (clear_cache g) last_cheese_simulator (Position.mk 10 10)
          = compute_distance_map (wall (state_ last_cheese_simulator)) 10 10.
Proof.
  split; [reflexivity |].
  apply (cache_answers_for_the_walls_it_was_filled_from level3_simulator
           last_cheese_simulator (mkGlobals false GlobalDistanceCache_empty)
           (Position.mk 10 10)).
  reflexivity.
Defined.

(** X18 for the level-3 state with a collected item. *)
Lemma export_then_restore_collected :
  state_typed collected_state
  /\ dict_to_state (state_to_dict collected_state) = Some (reimported collected_state).
Proof.
  assert (Htyped : state_typed collected_state).
  { assert (Hgrid : forall g, grid_typed (grid_init (grid_at g)) <->
                              Forall (fun c => -128 <= grid_at (grid_init (grid_at g)) c.1 c.2
                                               < 128) cells).
    { intros g. split.
      - intros [_ Hcells]. apply Forall_forall. intros [i j] Hin.
        apply elem_of_cells in Hin as [Hi Hj]. apply Hcells; assumption.
      - intros Hall. split; [apply grid_dims_init |].
        apply (cells_forall (fun i j => is_int8 (grid_at (grid_init (grid_at g)) i j))).
        exact Hall. }
    unfold state_typed, collected_state.
    cbn [wall sc junc deadend mouse mouse_last cats movbc crzbc life step step_limit run
         func_chance red_zone set_movbc GameState_init_level3].
    split; [apply Hgrid, (bool_decide_unpack _); vm_compute; exact I |].
    split.
    { split; [apply grid_dims_set, grid_dims_init |].
      apply (cells_forall
               (fun i j => is_int8 (grid_at (grid_set (grid_init (grid_at SC_DATA)) 10 10 0)
                                            i j))).
      unfold is_int8. apply (bool_decide_unpack _). vm_compute. exact I. }
    split; [apply Hgrid, (bool_decide_unpack _); vm_compute; exact I |].
    split; [apply Hgrid, (bool_decide_unpack _); vm_compute; exact I |].
    unfold position_typed, entity_typed, is_int8, is_int16.
    split; [cbn; lia |]. split; [cbn; lia |].
    split; [| apply (bool_decide_unpack _); vm_compute; exact I].
    unfold roster_list. cbn [app].
    repeat first [apply Forall_nil_2 | apply Forall_cons_2];
      vm_compute; repeat split; first [reflexivity | discriminate]. }
  split; [exact Htyped |].
  apply (export_then_restore collected_state Htyped).
Defined.

(** X19 for an exported snapshot from which the step counter was removed. *)
Lemma snapshot_without_step_is_rejected :
  "step"%string ∈ required_keys
  /\ delete "step"%string (state_to_dict GameState_init_level3) !! "step"%string = None
  /\ dict_to_state (delete "step"%string (state_to_dict GameState_init_level3)) = None.
Proof.
  assert (Hkey : "step"%string ∈ required_keys)
    by (apply (bool_decide_unpack _); vm_compute; exact I).
  assert (Hnone : delete "step"%string (state_to_dict GameState_init_level3)
                  !! "step"%string = None) by apply lookup_delete_eq.
  split; [exact Hkey |]. split; [exact Hnone |].
  apply (dict_to_state_needs_required_keys
           (delete "step"%string (state_to_dict GameState_init_level3)) "step" Hkey Hnone).
Defined.

(** X20 for the snapshot with the required keys only. *)
Lemma dict_to_state_defaults_minimal :
  dict_to_state minimal_snapshot = Some minimal_state
  /\ (minimal_snapshot !! "mouse_last_pos"%string = None ->
      mouse_last minimal_state = mouse minimal_state)
  /\ (minimal_snapshot !! "step_limit"%string = None -> step_limit minimal_state = 200)
  /\ (minimal_snapshot !! "run"%string = None -> run minimal_state = 0)
  /\ (minimal_snapshot !! "func_chance"%string = None -> func_chance minimal_state = 4)
  /\ (minimal_snapshot !! "red_zone"%string = None -> red_zone minimal_state = 5)
  /\ (minimal_snapshot !! "win_sign"%string = None -> win_sign minimal_state = false)
  /\ (minimal_snapshot !! "lose_sign"%string = None -> lose_sign minimal_state = false)
  /\ (minimal_snapshot !! "catched"%string = None -> catched minimal_state = false)
  /\ (minimal_snapshot !! "cat_last_pos"%string = None ->
      Forall (fun c => last_pos c = pos c) (roster_list (cats minimal_state)))
  /\ (minimal_snapshot !! "cat_direction"%string = None ->
      Forall (fun c => direction c = 0) (roster_list (cats minimal_state)))
  /\ (minimal_snapshot !! "crzbc_direction"%string = None ->
      Forall (fun b => direction b = 0) (roster_list (crzbc minimal_state)))
  /\ Forall (fun b => last_pos b = pos b /\ direction b = 0)
            (roster_list (movbc minimal_state))
  /\ Forall (fun b => last_pos b = pos b) (roster_list (crzbc minimal_state)).
Proof.
  assert (Hst : dict_to_state minimal_snapshot = Some minimal_state)
    by (vm_compute; reflexivity).
  split; [exact Hst |].
  apply (dict_to_state_defaults minimal_snapshot minimal_state Hst).
Defined.

(** X22 for a move up from the mouse's start cell. *)
Lemma opposite_direction_undoes_move_up :
  Position.is_valid (Position.mk 10 10) = true
  /\ Direction.UP ∈ Direction.all
  /\ Z.abs (Direction.DX Direction.UP) + Z.abs (Direction.DY Direction.UP) = 1
  /\ Direction.OPPOSITE Direction.UP ∈ Direction.all
  /\ Direction.OPPOSITE (Direction.OPPOSITE Direction.UP) = Direction.UP
  /\ Position.move (Position.move (Position.mk 10 10) Direction.UP)
                   (Direction.OPPOSITE Direction.UP) = Position.mk 10 10.
Proof.
  assert (Hd : Direction.UP ∈ Direction.all) by left.
  split; [reflexivity |]. split; [exact Hd |].
  apply (opposite_direction_undoes_move (Position.mk 10 10) Direction.UP eq_refl Hd).
Defined.

(** X23 for the level-3 board. *)
Lemma no_cheese_left_iff_layer_is_zero_level3 :
  (forall i j, 0 <= i < MAP_SIZE -> 0 <= j < MAP_SIZE ->
               0 <= grid_at (sc GameState_init_level3) i j)
  /\ 0 <= count_remaining_cheese GameState_init_level3
  /\ (count_remaining_cheese GameState_init_level3 = 0 <->
      forall i j, 0 <= i < MAP_SIZE -> 0 <= j < MAP_SIZE ->
                  grid_at (sc GameState_init_level3) i j = 0).
Proof.
  assert (Hnn : forall i j, 0 <= i < MAP_SIZE -> 0 <= j < MAP_SIZE ->
                            0 <= grid_at (sc GameState_init_level3) i j).
  { apply (cells_forall (fun i j => 0 <= grid_at (sc GameState_init_level3) i j)).
    apply (bool_decide_unpack _). vm_compute. exact I. }
  split; [exact Hnn |].
  apply (no_cheese_left_iff_layer_is_zero GameState_init_level3 Hnn).
Defined.

(** X24 for two attempts upwards from the mouse's start cell of the level-3
    board: the second tick charges the wall penalty. *)
Lemma wall_penalty_iff_mouse_blocked_level3 :
  let e := mkExec (set_mouse GameState_init_level3 (Position.mk 9 10))
                  [Direction.UP; Direction.UP] ({[1]} ∪ ∅) 2 in
  get_mouse_actions 20 level3_simulator [Direction.UP; Direction.UP; Token.END] [] []
                    GameState_init_level3 = Some e
  /\ forall (command_length : Z) (cat_actions crzbc_actions : list Z * list Z)
            (points lives : Z) (k : nat) (r_k : Run),
       tick_starts level3_simulator (wall_collisions e) command_length cat_actions
                   crzbc_actions 0 (actions e) (mkRun GameState_init_level3 points lives)
       !! k = Some r_k ->
       exists action,
         actions e !! k = Some action
         /\ (Z.of_nat k ∈ wall_collisions e
             <-> movable level3_simulator (mouse (run_state r_k)) action = false).
Proof.
  intros e.
  assert (Hrun : get_mouse_actions 20 level3_simulator
                   [Direction.UP; Direction.UP; Token.END] [] []
                   GameState_init_level3 = Some e) by reflexivity.
  split; [exact Hrun |].
  apply (wall_penalty_iff_mouse_blocked 20 level3_simulator
           [Direction.UP; Direction.UP; Token.END] [] [] GameState_init_level3 e Hrun).
Defined.
